(** * MotionMetrics: camera_synchronization.cpp

    A shallow embedding of the multi-camera synchronizer
    (src/camera_synchronization.cpp): the [FrameData] record, the
    [SafeQueue] hand-off queue, the producer loop [AcquireImages], the
    consumer loop [DisplayFrames], and the lifecycle code
    ([ConfigureTrigger], [RunMultipleCameras], [main]).

    Conventions.
    - [uint64_t] and [int] values are [Z]; wrap-around is written out.
    - [cv::Mat] is a header (rows, cols, type) plus a symbolic description
      of its pixel buffer: what was drawn is recorded, not rasterised.
    - [std::queue<FrameData>] is a [list FrameData], front of the queue
      first.
    - Threads are interleaved at the granularity of one shared-memory
      access (a queue operation under its mutex, or one access to the
      atomic [isRunning]) per step.
    - [float] and [double] arithmetic is IEEE 754 binary32 / binary64 as
      specified by the standard library's [SpecFloat]. *)

From Stdlib Require Import ZArith Lia.
From Stdlib Require Import SpecFloat.
From stdpp Require Import base list strings pretty.

Local Open Scope Z_scope.

(** ** OpenCV matrices *)

Inductive MatType := CV_8UC1 | CV_8UC3.

Definition channels (t : MatType) : Z :=
  match t with CV_8UC1 => 1 | CV_8UC3 => 3 end.

(** Symbolic pixel buffers. [PxSensor id] is the buffer the format
    converter and [resize] deliver for the raw capture [id]. *)
#[warnings="-register-all"] Inductive Pixels :=
| PxNone
| PxZeros
| PxSensor (id : N)
| PxText (base : Pixels) (text : string) (x y : Z)
| PxHConcat (cells : list Pixels)
| PxVConcat (rows : list Pixels).

Record Mat := mkMat {
  mat_rows : Z;
  mat_cols : Z;
  mat_type : MatType;
  mat_data : Pixels
}.

(** [Mat()] *)
Definition Mat_default : Mat := mkMat 0 0 CV_8UC1 PxNone.

(** [Mat::zeros(rows, cols, type)] *)
Definition Mat_zeros (rows cols : Z) (type : MatType) : Mat :=
  mkMat rows cols type PxZeros.

(** [putText(img, text, Point(x, y), ...)]: draws into the buffer of [img]. *)
Definition putText (img : Mat) (text : string) (x y : Z) : Mat :=
  mkMat (mat_rows img) (mat_cols img) (mat_type img)
        (PxText (mat_data img) text x y).

(** The text overlays drawn into a buffer, the last drawn first, each
    with its anchor point. *)
Fixpoint overlays (p : Pixels) : list (string * Z * Z) :=
  match p with
  | PxText base text x y => (text, x, y) :: overlays base
  | _ => []
  end.

Definition sumZ (l : list Z) : Z := foldr Z.add 0 l.

(** [hconcat(src, dst)]: the cells side by side. *)
Definition hconcat (src : list Mat) : Mat :=
  match src with
  | [] => Mat_default
  | m :: _ => mkMat (mat_rows m) (sumZ (mat_cols <$> src)) (mat_type m)
                    (PxHConcat (mat_data <$> src))
  end.

(** [vconcat(src, dst)]: the rows on top of each other. *)
Definition vconcat (src : list Mat) : Mat :=
  match src with
  | [] => Mat_default
  | m :: _ => mkMat (sumZ (mat_rows <$> src)) (mat_cols m) (mat_type m)
                    (PxVConcat (mat_data <$> src))
  end.

(** ** FrameData *)

Record FrameData := mkFrameData {
  frame : Mat;
  timestamp : Z;      (* uint64_t *)
  cameraIndex : Z     (* int *)
}.

(** [FrameData()] *)
Definition FrameData_default : FrameData := mkFrameData Mat_default 0 (-1).

(** ** SafeQueue *)

Module SafeQueue.

(** The [std::queue] member [q]; the mutex and the condition variable
    carry no data.  Every member function runs its body under the
    queue's mutex, so each call is one atomic transition of the queue. *)
Abbreviation t := (list FrameData).

Definition new : t := [].

(** [void push(FrameData&& item)] *)
Definition push (item : FrameData) (q : t) : t := q ++ [item].

(** [bool pop(FrameData& item)]: the returned triple is the [bool]
    result, the new value of the reference argument [item], and the
    queue afterwards. *)
Definition pop (item : FrameData) (q : t) : bool * FrameData * t :=
  match q with
  | [] => (false, item, q)
  | front :: rest => (true, front, rest)
  end.

(** [bool empty() const] *)
Definition empty (q : t) : bool :=
  match q with [] => true | _ => false end.

(** A client of one queue: a sequence of member calls. *)
Inductive op := Push (item : FrameData) | Pop.

(** Runs [ops] on [q]; returns the items handed out by the successful
    pops, in call order, and the final queue. *)
Fixpoint run (ops : list op) (q : t) : list FrameData * t :=
  match ops with
  | [] => ([], q)
  | Push item :: ops' => run ops' (push item q)
  | Pop :: ops' =>
      match pop FrameData_default q with
      | (true, item, q') =>
          let '(out, qf) := run ops' q' in (item :: out, qf)
      | (false, _, q') => run ops' q'
      end
  end.

(** The items pushed by [ops], in call order. *)
Fixpoint pushed (ops : list op) : list FrameData :=
  match ops with
  | [] => []
  | Push item :: ops' => item :: pushed ops'
  | Pop :: ops' => pushed ops'
  end.

Definition is_push (o : op) : bool :=
  match o with Push _ => true | Pop => false end.

End SafeQueue.

(** ** SafeQueue under its mutex *)

Module LockedQueue.

(** The member functions at the grain of [mtx]: a call first constructs
    its lock, which waits while another thread holds the mutex, and
    then runs the statements under the lock.  The queue's condition
    variable is only ever notified: no member function waits on it. *)
Inductive Call :=
| CallPush (item : FrameData)
| CallPop (item : FrameData)      (* the caller's [item] before the call *)
| CallEmpty.

Inductive Ret :=
| RetPush
| RetPop (ok : bool) (item : FrameData)   (* the caller's [item] after *)
| RetEmpty (b : bool).

Inductive Pc :=
| Outside                 (* between calls *)
| AtLock (c : Call)       (* at the lock's constructor *)
| Locked (c : Call)       (* holding [mtx] *)
| AtNotify.               (* [cond.notify_one()], after [lock.unlock()] *)

Record QState := mkQState {
  items : SafeQueue.t;            (* the member [q] *)
  holder : option nat;            (* the thread that holds [mtx] *)
  threads : list Pc;
  returns : list (nat * Ret)      (* completed calls, newest first *)
}.

Definition init (numThreads : nat) (q : SafeQueue.t) : QState :=
  mkQState q None (replicate numThreads Outside) [].

(** One step of thread [t]; [c] is the call it makes if it is between
    calls.  [None]: the thread cannot move. *)
Definition step (t : nat) (c : Call) (st : QState) : option QState :=
  match threads st !! t with
  | None => None
  | Some Outside =>
      Some (mkQState (items st) (holder st)
              (<[t := AtLock c]> (threads st)) (returns st))
  | Some (AtLock c') =>
      match holder st with
      | None =>
          Some (mkQState (items st) (Some t)
                  (<[t := Locked c']> (threads st)) (returns st))
      | Some _ => None
      end
  | Some (Locked (CallPush item)) =>
      Some (mkQState (SafeQueue.push item (items st)) None
              (<[t := AtNotify]> (threads st)) (returns st))
  | Some AtNotify =>
      Some (mkQState (items st) (holder st)
              (<[t := Outside]> (threads st)) ((t, RetPush) :: returns st))
  | Some (Locked (CallPop item)) =>
      let '(ok, item', q') := SafeQueue.pop item (items st) in
      Some (mkQState q' None
              (<[t := Outside]> (threads st))
              ((t, RetPop ok item') :: returns st))
  | Some (Locked CallEmpty) =>
      Some (mkQState (items st) None
              (<[t := Outside]> (threads st))
              ((t, RetEmpty (SafeQueue.empty (items st))) :: returns st))
  end.

(** A schedule names the thread that is given the next turn; a thread
    that cannot move loses its turn. *)
Fixpoint exec (sched : list (nat * Call)) (st : QState) : QState :=
  match sched with
  | [] => st
  | (t, c) :: sched' => exec sched' (default st (step t c st))
  end.

(** The mutex is held by exactly the thread that is under a lock. *)
Definition holder_ok (st : QState) : Prop :=
  forall u, holder st = Some u <-> exists c, threads st !! u = Some (Locked c).



End LockedQueue.

(** ** Integer and floating-point arithmetic of the source *)

Definition uint64_sub (a b : Z) : Z := (a - b) mod 2 ^ 64.

(** [static_cast<int64_t>(u)] for [u] in the [uint64_t] range. *)
Definition to_int64 (u : Z) : Z := if u <? 2 ^ 63 then u else u - 2 ^ 64.

Module IEEE.

Definition prec32 : Z := 24.
Definition emax32 : Z := 128.
Definition prec64 : Z := 53.
Definition emax64 : Z := 1024.

(** Conversion of an integer to the format, round to nearest even. *)
Definition of_int (prec emax : Z) (n : Z) : spec_float :=
  binary_normalize prec emax n 0 false.

(** The integer [ceil] of a finite value [(-1)^s * m * 2^e]. *)
Definition ceilZ (x : spec_float) : option Z :=
  match x with
  | S754_zero _ => Some 0
  | S754_finite s m e =>
      if 0 <=? e then Some (cond_Zopp s (Zpos m * 2 ^ e))
      else
        let d := 2 ^ (- e) in
        Some (if s then - (Zpos m / d) else (Zpos m + d - 1) / d)
  | _ => None
  end.

(** [std::ceil]: the result is an integer of the same format. *)
Definition ceil (prec emax : Z) (x : spec_float) : spec_float :=
  match ceilZ x with
  | Some z => binary_normalize prec emax z 0
                (match x with S754_zero s | S754_finite s _ _ => s | _ => false end)
  | None => x
  end.

(** The integer part of a finite value, rounding toward zero. *)
Definition truncZ (x : spec_float) : option Z :=
  match x with
  | S754_zero _ => Some 0
  | S754_finite s m e =>
      if 0 <=? e then Some (cond_Zopp s (Zpos m * 2 ^ e))
      else Some (cond_Zopp s (Zpos m / 2 ^ (- e)))
  | _ => None
  end.

(** Conversion of a floating value to [int].  Outside the range of
    [int], or for NaN, C++ leaves the behaviour undefined; the model
    yields [INT_MIN] there, as the x86 conversion instructions do. *)
Definition to_int (x : spec_float) : Z :=
  match truncZ x with
  | Some z => if (- 2 ^ 31 <=? z) && (z <? 2 ^ 31) then z else - 2 ^ 31
  | None => - 2 ^ 31
  end.

End IEEE.

(** [int gridCols = ceil(sqrt(numCameras));] -- [sqrt] on an [int]
    argument is the [double] overload. *)
Definition gridCols (numCameras : Z) : Z :=
  IEEE.to_int
    (IEEE.ceil IEEE.prec64 IEEE.emax64
       (SFsqrt IEEE.prec64 IEEE.emax64
          (IEEE.of_int IEEE.prec64 IEEE.emax64 numCameras))).

(** [int gridRows = ceil((float)numCameras / gridCols);] *)
Definition gridRows (numCameras : Z) : Z :=
  IEEE.to_int
    (IEEE.ceil IEEE.prec32 IEEE.emax32
       (SFdiv IEEE.prec32 IEEE.emax32
          (IEEE.of_int IEEE.prec32 IEEE.emax32 numCameras)
          (IEEE.of_int IEEE.prec32 IEEE.emax32 (gridCols numCameras)))).

(** The layout the specification asks for, in exact integer arithmetic:
    the least [c] with [n <= c * c], and the least [r] with [n <= r * c]. *)
Definition ceil_sqrt (n : Z) : Z :=
  let s := Z.sqrt n in if s * s =? n then s else s + 1.

Definition ceil_div (n c : Z) : Z := (n + c - 1) / c.

(** ** The running system: globals, threads, events *)

(** What one iteration of [AcquireImages] gets from the camera driver
    and the image processor. *)
Inductive Capture :=
| TriggerThrows (what : string)      (* the trigger node or [Execute] raises *)
| CaptureTimeout (what : string)     (* [GetNextImage(1000)] raises on timeout *)
| CaptureThrows (what : string)      (* [GetNextImage] raises another error *)
| CaptureIncomplete (releaseThrows : option string)   (* [IsIncomplete()] *)
| ConvertThrows (what : string)      (* [GetTimeStamp] or [Convert] raises *)
| CaptureOk (ts : Z) (id : N) (releaseThrows : option string).

(** Observable calls, newest first in the log. *)
Inductive Event :=
| EvCout (line : string)
| EvRelease (cam : nat)
| EvPush (cam : nat) (item : FrameData)
| EvPop (cam : nat) (item : FrameData)
| EvPopEmpty (cam : nat)
| EvSleep (ms : Z)
| EvImshow (img : Mat).

(** Control points of [AcquireImages]: at the [while] test, inside the
    body, returned. *)
Inductive ProducerPc := PWhile | PBody | PDone.

(** Control points of [DisplayFrames]: at the [while] test, at the test
    of the collecting [for] loop with loop variable [i], returned. *)
Inductive DisplayPc := DWhile | DFor (i : nat) | DDone.

Record State := mkState {
  frameQueues : list SafeQueue.t;     (* global [vector<SafeQueue>] *)
  isRunning : bool;                   (* global [atomic<bool>] *)
  producers : list ProducerPc;        (* one [AcquireImages] thread per camera *)
  display : DisplayPc;                (* the [DisplayFrames] thread *)
  latestFrames : list Mat;            (* locals of [DisplayFrames] *)
  latestTimestamps : list Z;
  log : list Event
}.

Definition set_frameQueues (v : list SafeQueue.t) (st : State) : State :=
  mkState v (isRunning st) (producers st) (display st)
          (latestFrames st) (latestTimestamps st) (log st).
Definition set_isRunning (v : bool) (st : State) : State :=
  mkState (frameQueues st) v (producers st) (display st)
          (latestFrames st) (latestTimestamps st) (log st).
Definition set_producers (v : list ProducerPc) (st : State) : State :=
  mkState (frameQueues st) (isRunning st) v (display st)
          (latestFrames st) (latestTimestamps st) (log st).
Definition set_display (v : DisplayPc) (st : State) : State :=
  mkState (frameQueues st) (isRunning st) (producers st) v
          (latestFrames st) (latestTimestamps st) (log st).
Definition set_latestFrames (v : list Mat) (st : State) : State :=
  mkState (frameQueues st) (isRunning st) (producers st) (display st)
          v (latestTimestamps st) (log st).
Definition set_latestTimestamps (v : list Z) (st : State) : State :=
  mkState (frameQueues st) (isRunning st) (producers st) (display st)
          (latestFrames st) v (log st).
Definition emit (e : Event) (st : State) : State :=
  mkState (frameQueues st) (isRunning st) (producers st) (display st)
          (latestFrames st) (latestTimestamps st) (e :: log st).

(** The state when the threads are started: [isRunning{true}], the
    queues created by [RunMultipleCameras], and
    [vector<Mat> latestFrames(numCameras)],
    [vector<uint64_t> latestTimestamps(numCameras)]. *)
Definition init (numCameras : nat) : State :=
  mkState (replicate numCameras SafeQueue.new) true
          (replicate numCameras PWhile) DWhile
          (replicate numCameras Mat_default) (replicate numCameras 0) [].

(** *** AcquireImages *)

Definition camera_error_line (cameraIndex : nat) (what : string) : string :=
  "Camera " +:+ pretty cameraIndex +:+ " Error: " +:+ what.

(** [resize(frame, frameCopy, Size(640, 480))] followed by the
    timestamp overlay. *)
Definition frameCopy (ts : Z) (id : N) : Mat :=
  putText (mkMat 480 640 CV_8UC3 (PxSensor id))
          ("Timestamp: " +:+ pretty ts +:+ " ns") 10 30.

Definition release (cameraIndex : nat) (releaseThrows : option string)
    (st : State) : State :=
  match releaseThrows with
  | None => emit (EvRelease cameraIndex) st
  | Some what => emit (EvCout (camera_error_line cameraIndex what)) st
  end.

(** One pass through the body of the [while] loop.  Indexing
    [frameQueues] out of range is undefined in the source; the model
    leaves the state alone there. *)
Definition AcquireImages_body (cameraIndex : nat) (c : Capture)
    (st : State) : State :=
  match c with
  | TriggerThrows what | CaptureTimeout what
  | CaptureThrows what | ConvertThrows what =>
      emit (EvCout (camera_error_line cameraIndex what)) st
  | CaptureIncomplete r => release cameraIndex r st
  | CaptureOk ts id r =>
      match frameQueues st !! cameraIndex with
      | Some q =>
          let item := mkFrameData (frameCopy ts id) ts (Z.of_nat cameraIndex) in
          release cameraIndex r
            (emit (EvPush cameraIndex item)
               (set_frameQueues
                  (<[cameraIndex := SafeQueue.push item q]> (frameQueues st)) st))
      | None => st
      end
  end.

(** One step of the producer thread [cameraIndex]. *)
Definition AcquireImages_step (cameraIndex : nat) (c : Capture)
    (st : State) : State :=
  match producers st !! cameraIndex with
  | Some PWhile =>
      set_producers
        (<[cameraIndex := if isRunning st then PBody else PDone]> (producers st)) st
  | Some PBody =>
      let st' := AcquireImages_body cameraIndex c st in
      set_producers (<[cameraIndex := PWhile]> (producers st')) st'
  | Some PDone | None => st
  end.

(** *** DisplayFrames *)

Global Instance Mat_inhabited : Inhabited Mat := populate Mat_default.

Definition diff_line (diff : Z) : string :=
  "Diff with Cam0: " +:+ pretty diff +:+ " ns".

(** The body of the loop over [i] that draws the timestamp difference. *)
Definition draw_diff (ts : list Z) (frames : list Mat) (i : nat) : list Mat :=
  let diff := to_int64 (uint64_sub (ts !!! i) (ts !!! 0%nat)) in
  <[i := putText (frames !!! i) (diff_line diff) 10 60]> frames.

(** [if (numCameras > 1) for (int i = 1; i < numCameras; i++) ...] *)
Definition draw_diffs (numCameras : nat) (ts : list Z) (frames : list Mat)
    : list Mat :=
  if (1 <? numCameras)%nat
  then foldl (draw_diff ts) frames (seq 1 (numCameras - 1))
  else frames.

(** The cell in row [i], column [j] of the grid. *)
Definition grid_cell (numCameras cols : Z) (frames : list Mat) (i j : Z) : Mat :=
  let idx := i * cols + j in
  if idx <? numCameras then frames !!! Z.to_nat idx
  else Mat_zeros 480 640 CV_8UC3.

Definition grid_row (numCameras cols : Z) (frames : list Mat) (i : Z) : list Mat :=
  grid_cell numCameras cols frames i <$> seqZ 0 cols.

Definition grid_cells (numCameras rows cols : Z) (frames : list Mat)
    : list (list Mat) :=
  grid_row numCameras cols frames <$> seqZ 0 rows.

(** [displayGrid] *)
Definition displayGrid (numCameras : nat) (frames : list Mat) : Mat :=
  let n := Z.of_nat numCameras in
  vconcat (hconcat <$> grid_cells n (gridRows n) (gridCols n) frames).

(** [char key = (char)waitKey(1); key == 'q' || key == 'Q'] *)
Definition is_quit (key : Z) : bool :=
  let c := key mod 256 in (c =? 113) || (c =? 81).

(** One step of the display thread; [key] is what [waitKey(1)] returns
    if this step reaches it. *)
Definition DisplayFrames_step (numCameras : nat) (key : Z) (st : State) : State :=
  match display st with
  | DDone => st
  | DWhile => set_display (if isRunning st then DFor 0 else DDone) st
  | DFor i =>
      if (i <? numCameras)%nat then
        match frameQueues st !! i with
        | Some q =>
            match SafeQueue.pop FrameData_default q with
            | (true, frameData, q') =>
                set_display (DFor (S i))
                  (emit (EvPop i frameData)
                     (set_latestTimestamps
                        (<[i := timestamp frameData]> (latestTimestamps st))
                        (set_latestFrames
                           (<[i := frame frameData]> (latestFrames st))
                           (set_frameQueues (<[i := q']> (frameQueues st)) st))))
            | (false, _, _) =>
                set_display DWhile (emit (EvSleep 1) (emit (EvPopEmpty i) st))
            end
        | None => st
        end
      else
        let frames := draw_diffs numCameras (latestTimestamps st) (latestFrames st) in
        let st1 := emit (EvImshow (displayGrid numCameras frames))
                        (set_latestFrames frames st) in
        set_display DWhile
          (if is_quit key then set_isRunning false st1 else st1)
  end.

(** *** Interleavings *)

Inductive Action :=
| ActProducer (cameraIndex : nat) (c : Capture)
| ActDisplay (key : Z).

Definition step (numCameras : nat) (a : Action) (st : State) : State :=
  match a with
  | ActProducer i c => AcquireImages_step i c st
  | ActDisplay key => DisplayFrames_step numCameras key st
  end.

Fixpoint exec (numCameras : nat) (sched : list Action) (st : State) : State :=
  match sched with
  | [] => st
  | a :: sched' => exec numCameras sched' (step numCameras a st)
  end.

Definition is_display (a : Action) : bool :=
  match a with ActDisplay _ => true | _ => false end.

Definition is_producer (i : nat) (a : Action) : bool :=
  match a with ActProducer j _ => bool_decide (i = j) | _ => false end.

(** *** Reading the log *)

(** The pops of the collecting loop that is under way: queue index and
    item, oldest first. *)
Fixpoint collecting (l : list Event) : list (nat * FrameData) :=
  match l with
  | [] => []
  | EvPop i item :: older => collecting older ++ [(i, item)]
  | EvPopEmpty _ :: _ => []
  | EvImshow _ :: _ => []
  | _ :: older => collecting older
  end.

(** The completed cycles: the FrameSet and the composite shown. *)
Fixpoint completed (l : list Event) : list (list (nat * FrameData) * Mat) :=
  match l with
  | [] => []
  | EvImshow img :: older => (collecting older, img) :: completed older
  | _ :: older => completed older
  end.

(** The abandoned attempts: the index whose pop failed and the items
    popped before it in that attempt. *)
Fixpoint abandoned (l : list Event) : list (nat * list (nat * FrameData)) :=
  match l with
  | [] => []
  | EvPopEmpty i :: older => (i, collecting older) :: abandoned older
  | _ :: older => abandoned older
  end.

Fixpoint popped_items (l : list Event) : list FrameData :=
  match l with
  | [] => []
  | EvPop _ item :: older => item :: popped_items older
  | _ :: older => popped_items older
  end.

Fixpoint pushed_items (l : list Event) : list FrameData :=
  match l with
  | [] => []
  | EvPush _ item :: older => item :: pushed_items older
  | _ :: older => pushed_items older
  end.

Definition frameset_items (fs : list (nat * FrameData)) : list FrameData := fs.*2.

Definition discarded_items (l : list Event) : list FrameData :=
  concat ((fun a => frameset_items a.2) <$> abandoned l).

Definition rendered_items (l : list Event) : list FrameData :=
  concat ((fun c => frameset_items c.1) <$> completed l).

Definition is_cout (e : Event) : bool :=
  match e with EvCout _ => true | _ => false end.

(** ** Lifecycle: ConfigureTrigger, RunMultipleCameras, main *)

Module Lifecycle.

(** Calls made by the lifecycle code, oldest first. *)
Inductive LEvent :=
| LGetInstance
| LGetCameras
| LCout (line : string)
| LGetChar
| LCamListClear
| LReleaseInstance
| LQueueCreate (i : nat)            (* [frameQueues.emplace_back()] *)
| LInit (i : nat)
| LBeginAcquisition (i : nat)
| LEndAcquisition (i : nat)
| LDeInit (i : nat)
| LSpawnProducer (i : nat)          (* [thread(AcquireImages, cameras[i], i)] *)
| LSpawnDisplay (numCameras : nat)  (* [thread(DisplayFrames, numCameras)] *)
| LJoinDisplay
| LJoinProducer (i : nat).

(** The node accesses of [ConfigureTrigger] that can raise. *)
Inductive TriggerStage :=
| StTimestamp | StModeOff | StSelector | StSource | StModeOn.

Global Instance TriggerStage_eq_dec : EqDecision TriggerStage.
Proof. solve_decision. Defined.

(** How the node map of one camera behaves. *)
Record NodeMap := mkNodeMap {
  timestampWritable : bool;
  triggerModeReadable : bool;
  selectorWritable : bool;
  sourceWritable : bool;
  triggerFault : option (TriggerStage * string)
}.

(** How one camera behaves during setup and teardown. *)
Record Camera := mkCamera {
  initFault : option string;            (* [Init()] raises *)
  nodeMap : NodeMap;
  acquisitionModeWritable : bool;
  acquisitionModeFault : option string; (* [SetIntValue] raises *)
  beginFault : option string;           (* [BeginAcquisition()] raises *)
  endFault : option string;             (* [EndAcquisition()] raises *)
  deinitFault : option string           (* [DeInit()] raises *)
}.

(** Computations that write to the trace.  A computation returns,
    raises a [Spinnaker::Exception], or waits in [thread::join] for a
    thread that has not returned. *)
Inductive Result (A : Type) :=
| Ok (a : A)
| Raise (what : string)
| Blocked.
Global Arguments Ok {A} a.
Global Arguments Raise {A} what.
Global Arguments Blocked {A}.

Definition M (A : Type) : Type := list LEvent -> Result A * list LEvent.

Definition ret {A} (a : A) : M A := fun tr => (Ok a, tr).

Definition bind {A B} (m : M A) (k : A -> M B) : M B :=
  fun tr =>
    match m tr with
    | (Ok a, tr') => k a tr'
    | (Raise what, tr') => (Raise what, tr')
    | (Blocked, tr') => (Blocked, tr')
    end.

Definition call (e : LEvent) : M unit := fun tr => (Ok tt, tr ++ [e]).

Definition raise {A} (what : string) : M A := fun tr => (Raise what, tr).

(** A driver call that either raises or happens. *)
Definition driver (fault : option string) (e : list LEvent) : M unit :=
  fun tr =>
    match fault with
    | Some what => (Raise what, tr)
    | None => (Ok tt, tr ++ e)
    end.

(** [try { body } catch (Spinnaker::Exception& e) { handler }] *)
Definition try_catch {A} (body : M A) (handler : string -> M A) : M A :=
  fun tr =>
    match body tr with
    | (Ok a, tr') => (Ok a, tr')
    | (Raise what, tr') => handler what tr'
    | (Blocked, tr') => (Blocked, tr')
    end.

Definition when (b : bool) (m : M unit) : M unit := if b then m else ret tt.

Global Instance M_ret : MRet M := @ret.
Global Instance M_bind : MBind M := fun A B k m => bind m k.

Definition stage_fault (nm : NodeMap) (s : TriggerStage) : option string :=
  match triggerFault nm with
  | Some (s', what) => if decide (s = s') then Some what else None
  | None => None
  end.

(** [int ConfigureTrigger(INodeMap& nodeMap)] *)
Definition ConfigureTrigger (nm : NodeMap) : M Z :=
  call (LCout "") ;;
  call (LCout "* CONFIGURING TRIGGER AND TIMESTAMP *") ;;
  try_catch
    (when (timestampWritable nm)
       (driver (stage_fault nm StTimestamp) [LCout "Timestamp enabled..."]) ;;
     if negb (triggerModeReadable nm) then
       call (LCout "Unable to disable trigger mode (node retrieval). Aborting...") ;;
       ret (-1)
     else
       driver (stage_fault nm StModeOff) [] ;;
       when (selectorWritable nm) (driver (stage_fault nm StSelector) []) ;;
       when (sourceWritable nm) (driver (stage_fault nm StSource) []) ;;
       driver (stage_fault nm StModeOn)
         [LCout "Trigger configured for software trigger..."] ;;
       ret 0)
    (fun what => call (LCout ("Error: " +:+ what)) ;; ret (-1)).

Definition emplace_queues (numCameras : nat) : M unit :=
  fun tr => (Ok tt, tr ++ (LQueueCreate <$> seq 0 numCameras)).

(** The camera initialisation loop of [RunMultipleCameras], from index
    [i] on; [result] is the local of that name.  [ConfigureTrigger]'s
    return value is only or-ed into [result]. *)
Fixpoint init_cameras (i : nat) (cams : list Camera) (result : Z) : M Z :=
  match cams with
  | [] => ret result
  | cam :: rest =>
      driver (initFault cam) [LInit i] ;;
      r ← ConfigureTrigger (nodeMap cam);
      when (acquisitionModeWritable cam)
        (driver (acquisitionModeFault cam) []) ;;
      driver (beginFault cam) [LBeginAcquisition i] ;;
      init_cameras (S i) rest (Z.lor result r)
  end.

Fixpoint cleanup_cameras (i : nat) (cams : list Camera) : M unit :=
  match cams with
  | [] => ret tt
  | cam :: rest =>
      driver (endFault cam) [LEndAcquisition i] ;;
      driver (deinitFault cam) [LDeInit i] ;;
      cleanup_cameras (S i) rest
  end.

(** What the threads do is the transition system above: [sched] is the
    interleaving of the steps they have made, with what each capture and
    each [waitKey] gave, and [threads_state] is where that leaves them.
    A [join] returns only if its thread has returned; otherwise the
    caller is still waiting, and the computation is [Blocked]. *)
Definition threads_state (numCameras : nat) (sched : list Action) : State :=
  exec numCameras sched (init numCameras).

Definition producer_returned (pc : ProducerPc) : bool :=
  match pc with PDone => true | _ => false end.

Definition display_returned (pc : DisplayPc) : bool :=
  match pc with DDone => true | _ => false end.

(** Every thread has left its loop. *)
Definition threads_finished (numCameras : nat) (sched : list Action) : bool :=
  display_returned (display (threads_state numCameras sched))
  && forallb producer_returned (producers (threads_state numCameras sched)).

(** [for (auto& thread : cameraThreads) thread.join();] from thread [i]
    on: a join returns when its thread has returned. *)
Fixpoint join_producers (i : nat) (pcs : list ProducerPc) : M unit :=
  match pcs with
  | [] => ret tt
  | pc :: rest =>
      if producer_returned pc then
        call (LJoinProducer i) ;;
        join_producers (S i) rest
      else fun tr => (Blocked, tr)
  end.

(** Starting the threads, [displayThread.join()], then the joins of the
    camera threads. *)
Definition run_threads (numCameras : nat) (sched : list Action) : M unit :=
  fun tr =>
    let st := threads_state numCameras sched in
    let started :=
      tr ++ (LSpawnProducer <$> seq 0 numCameras)
         ++ [LSpawnDisplay numCameras] in
    if display_returned (display st) then
      join_producers 0 (producers st) (started ++ [LJoinDisplay])
    else (Blocked, started).

(** [int RunMultipleCameras(CameraList& camList)] *)
Definition RunMultipleCameras (camList : list Camera) (sched : list Action)
    : M Z :=
  let numCameras := length camList in
  emplace_queues numCameras ;;
  try_catch
    (result ← init_cameras 0 camList 0;
     call (LCout "Press Enter to start synchronized video feeds (press 'q' to exit)...") ;;
     call LGetChar ;;
     run_threads numCameras sched ;;
     cleanup_cameras 0 camList ;;
     ret result)
    (fun what => call (LCout ("Error: " +:+ what)) ;; ret (-1)).

(** The function [main]; its arguments are unused. *)
Definition main (camList : list Camera) (sched : list Action) : M Z :=
  call LGetInstance ;;
  call LGetCameras ;;
  let numCameras := length camList in
  call (LCout ("Number of cameras detected: " +:+ pretty numCameras)) ;;
  if (numCameras =? 0)%nat then
    call LCamListClear ;;
    call LReleaseInstance ;;
    call (LCout "No cameras detected!") ;;
    call (LCout "Press Enter to exit...") ;;
    call LGetChar ;;
    ret (-1)
  else
    result ← RunMultipleCameras camList sched;
    call LCamListClear ;;
    call LReleaseInstance ;;
    call (LCout "") ;;
    call (LCout "Press Enter to exit...") ;;
    call LGetChar ;;
    ret result.

Definition is_spawn (e : LEvent) : bool :=
  match e with LSpawnProducer _ | LSpawnDisplay _ => true | _ => false end.

Definition is_queue_create (e : LEvent) : bool :=
  match e with LQueueCreate _ => true | _ => false end.

Definition is_teardown (e : LEvent) : bool :=
  match e with LEndAcquisition _ | LDeInit _ => true | _ => false end.

(** Starting or joining a thread. *)
Definition is_thread_event (e : LEvent) : bool :=
  match e with
  | LSpawnProducer _ | LSpawnDisplay _ | LJoinDisplay | LJoinProducer _ => true
  | _ => false
  end.

(** A camera on which every setup call succeeds. *)
Definition good_nodes : NodeMap := mkNodeMap true true true true None.
Definition good_camera : Camera :=
  mkCamera None good_nodes true None None None None.

(** A camera whose [TriggerMode] node cannot be read. *)
Definition unreadable_trigger_camera : Camera :=
  mkCamera None (mkNodeMap true false true true None) true None None None None.

(** A camera whose [Init()] raises. *)
Definition dead_camera : Camera :=
  mkCamera (Some "init failed") good_nodes true None None None None.

End Lifecycle.

(** ** Notions used to state the properties *)

(** The computed layout agrees with the exact one. *)
Definition layout_ok (n : Z) : bool :=
  (gridCols n =? ceil_sqrt n) && (gridRows n =? ceil_div n (gridCols n)).

(** *** Invariant of the reachable states *)

(** A completed cycle popped once from each queue, in order, and showed
    the grid of those frames. *)
Definition frameset_ok (numCameras : nat)
    (c : list (nat * FrameData) * Mat) : Prop :=
  c.1.*1 = seq 0 numCameras
  /\ c.2 = displayGrid numCameras
             (draw_diffs numCameras (timestamp <$> c.1.*2) (frame <$> c.1.*2)).

(** An attempt abandoned at queue [i] had popped from queues [0..i-1]. *)
Definition abandoned_ok (numCameras : nat)
    (a : nat * list (nat * FrameData)) : Prop :=
  a.2.*1 = seq 0 a.1 /\ (a.1 < numCameras)%nat.

(** Inside the collecting loop the flag is up, and the locals hold the
    items popped so far in this attempt. *)
Definition collecting_ok (numCameras : nat) (st : State) : Prop :=
  match display st with
  | DFor i =>
      (i <= numCameras)%nat
      /\ isRunning st = true
      /\ (collecting (log st)).*1 = seq 0 i
      /\ take i (latestFrames st) = frame <$> (collecting (log st)).*2
      /\ take i (latestTimestamps st) = timestamp <$> (collecting (log st)).*2
  | _ => collecting (log st) = []
  end.

Record Inv (numCameras : nat) (st : State) : Prop := mkInv {
  inv_frames : length (latestFrames st) = numCameras;
  inv_timestamps : length (latestTimestamps st) = numCameras;
  inv_items :
    concat (frameQueues st) ++ popped_items (log st) ≡ₚ pushed_items (log st);
  inv_collecting : collecting_ok numCameras st;
  inv_completed : Forall (frameset_ok numCameras) (completed (log st));
  inv_abandoned : Forall (abandoned_ok numCameras) (abandoned (log st))
}.

(** Steps the display thread still takes before it has returned, once
    the flag is down: the rest of the iteration under way and the
    [while] test. *)
Definition display_left (numCameras : nat) (pc : DisplayPc) : nat :=
  match pc with
  | DDone => 0
  | DWhile => 1
  | DFor i => 2 + (numCameras - i)
  end.

(** The same for a producer thread. *)
Definition producer_left (pc : option ProducerPc) : nat :=
  match pc with
  | Some PBody => 2
  | Some PWhile => 1
  | Some PDone | None => 0
  end.

(** Captures that deliver no complete image. *)
Definition is_transient (c : Capture) : bool :=
  match c with CaptureOk _ _ _ => false | _ => true end.

(** Captures reported as a timeout, an incomplete image or a driver
    exception: every outcome but a complete image released without
    error. *)
Definition capture_fails (c : Capture) : bool :=
  match c with CaptureOk _ _ None => false | _ => true end.

(** What a transient capture leaves in the log. *)
Definition transient_event (cameraIndex : nat) (c : Capture) : Event :=
  match c with
  | TriggerThrows what | CaptureTimeout what
  | CaptureThrows what | ConvertThrows what
  | CaptureIncomplete (Some what) | CaptureOk _ _ (Some what) =>
      EvCout (camera_error_line cameraIndex what)
  | CaptureIncomplete None | CaptureOk _ _ None => EvRelease cameraIndex
  end.

(** The differences drawn for a FrameSet: source [i] against source 0,
    for [i = 1, 2, ...]. *)
Definition frameset_diffs (fs : list (nat * FrameData)) : list Z :=
  match timestamp <$> frameset_items fs with
  | [] => []
  | t0 :: ts => (fun t => to_int64 (uint64_sub t t0)) <$> ts
  end.

(** *** Concrete runs *)

(** A run of one camera in which the user presses 'q' on the first
    composite: the flag is down afterwards. *)
Definition quit_run : list Action :=
  [ActProducer 0 (CaptureOk 100 1 None); ActProducer 0 (CaptureOk 100 1 None);
   ActDisplay (-1); ActDisplay (-1); ActDisplay 113].

(** What the threads do next. *)
Definition after_quit : list Action :=
  [ActDisplay (-1); ActProducer 0 (CaptureTimeout "timeout");
   ActDisplay (-1); ActProducer 0 (CaptureTimeout "timeout"); ActDisplay (-1)].

(** The state of one camera whose producer is inside its loop body. *)
Definition in_body : State :=
  exec 1 [ActProducer 0 (CaptureIncomplete None)] (init 1).

(** Two cameras; camera 0 delivers one frame, and the display thread
    then finds queue 1 empty. *)
Definition starved_run : list Action :=
  [ActProducer 0 (CaptureOk 100 1 None); ActProducer 0 (CaptureOk 100 1 None);
   ActDisplay (-1); ActDisplay (-1)].

(** One iteration of producer [i] that delivers a complete image: the
    loop test and the body. *)
Definition produce (i : nat) (ts : Z) (id : N) : list Action :=
  [ActProducer i (CaptureOk ts id None); ActProducer i (CaptureOk ts id None)].

(** One completed cycle on two cameras: the loop test, two pops, and the
    rendering. *)
Definition cycle2 : list Action :=
  [ActDisplay (-1); ActDisplay (-1); ActDisplay (-1); ActDisplay (-1)].

(** Source 0 produces timestamps 100, 200, 300 and source 1 produces
    150, 250, 350; three cycles complete. *)
Definition scenario : list Action :=
  produce 0 100 1 ++ produce 1 150 2 ++ cycle2
  ++ produce 0 200 3 ++ produce 1 250 4 ++ cycle2
  ++ produce 0 300 5 ++ produce 1 350 6 ++ cycle2.

(** Two cameras deliver one frame each, the user presses 'q' on the
    composite, and every thread then finds the flag down and returns. *)
Definition quit_run2 : list Action :=
  produce 0 100 1 ++ produce 1 150 2
  ++ [ActDisplay (-1); ActDisplay (-1); ActDisplay (-1); ActDisplay 113;
      ActDisplay (-1);
      ActProducer 0 (CaptureTimeout "timeout");
      ActProducer 1 (CaptureTimeout "timeout")].

(** *** Reading the lifecycle trace *)

Module LifecycleNotions.
Import Lifecycle.

Definition is_lcout (e : LEvent) : bool :=
  match e with LCout _ => true | _ => false end.

(** Events of the camera setup loop. *)
Definition is_setup_event (e : LEvent) : bool :=
  match e with
  | LCout _ | LInit _ | LBeginAcquisition _ => true
  | _ => false
  end.

Definition is_release (e : LEvent) : bool :=
  match e with LCamListClear | LReleaseInstance => true | _ => false end.

(** The camera makes a call of the setup loop of [RunMultipleCameras]
    raise: [Init], setting the acquisition mode, or [BeginAcquisition]. *)
Definition setup_raises (cam : Camera) : bool :=
  bool_decide (is_Some (initFault cam))
  || (acquisitionModeWritable cam
      && bool_decide (is_Some (acquisitionModeFault cam)))
  || bool_decide (is_Some (beginFault cam)).

(** The camera makes a call of the cleanup loop raise. *)
Definition cleanup_raises (cam : Camera) : bool :=
  bool_decide (is_Some (endFault cam))
  || bool_decide (is_Some (deinitFault cam)).

(** What [ConfigureTrigger] returns on this node map. *)
Definition trigger_code (nm : NodeMap) : Z :=
  match (ConfigureTrigger nm []).1 with
  | Ok r => r
  | _ => -1
  end.

(** The value of [result] after the setup loop. *)
Definition setup_result (camList : list Camera) : Z :=
  foldl (fun acc cam => Z.lor acc (trigger_code (nodeMap cam))) 0 camList.

(** Teardown calls of a normal shutdown of [n] cameras from index [i]. *)
Fixpoint teardown_calls (i n : nat) : list LEvent :=
  match n with
  | O => []
  | S n' => LEndAcquisition i :: LDeInit i :: teardown_calls (S i) n'
  end.

Definition configured_line : LEvent :=
  LCout "Trigger configured for software trigger...".

Definition unable_line : LEvent :=
  LCout "Unable to disable trigger mode (node retrieval). Aborting...".

End LifecycleNotions.

(** *** Notions for the further properties *)

(** A frame of the common size and type. *)
Definition frame_ok (m : Mat) : Prop :=
  mat_rows m = 480 /\ mat_cols m = 640 /\ mat_type m = CV_8UC3.

(** The grid cell with row-major index [idx]. *)
Definition linear_cell (numCameras : Z) (frames : list Mat) (idx : Z) : Mat :=
  if idx <? numCameras then frames !!! Z.to_nat idx
  else Mat_zeros 480 640 CV_8UC3.

(** The items pushed to queue [i], oldest first. *)
Fixpoint pushes_of (i : nat) (l : list Event) : list FrameData :=
  match l with
  | [] => []
  | EvPush j item :: older =>
      pushes_of i older ++ (if decide (i = j) then [item] else [])
  | _ :: older => pushes_of i older
  end.

(** The items popped from queue [i], oldest first. *)
Fixpoint pops_of (i : nat) (l : list Event) : list FrameData :=
  match l with
  | [] => []
  | EvPop j item :: older =>
      pops_of i older ++ (if decide (i = j) then [item] else [])
  | _ :: older => pops_of i older
  end.

(** Every pop of the log, oldest first. *)
Fixpoint pops_chron (l : list Event) : list (nat * FrameData) :=
  match l with
  | [] => []
  | EvPop j item :: older => pops_chron older ++ [(j, item)]
  | _ :: older => pops_chron older
  end.

(** A pushed item is what [AcquireImages] builds for its camera. *)
Definition push_ok (e : Event) : Prop :=
  match e with
  | EvPush i item =>
      exists ts id, item = mkFrameData (frameCopy ts id) ts (Z.of_nat i)
  | _ => True
  end.

(** In this step camera [k] does not deliver a complete image. *)
Definition starves (k : nat) (a : Action) : Prop :=
  match a with
  | ActProducer j c => j = k -> is_transient c = true
  | ActDisplay _ => True
  end.

(** Each queue holds what was pushed to it and not yet popped from it,
    in push order. *)
Definition fifo_ok (st : State) : Prop :=
  forall i q, frameQueues st !! i = Some q ->
    pops_of i (log st) ++ q = pushes_of i (log st).

(** While queue [k] has never received an item: it is empty, nothing
    has been shown, the flag is up, and the collecting loop has not got
    past queue [k]. *)
Definition stalled (k : nat) (st : State) : Prop :=
  frameQueues st !! k = Some []
  /\ completed (log st) = []
  /\ isRunning st = true
  /\ match display st with
     | DFor i => (i <= k)%nat
     | DWhile => True
     | DDone => False
     end.

(** The items with queue index [i] of a list of FrameSets, in order. *)
Fixpoint column (i : nat) (fss : list (list (nat * FrameData)))
    : list FrameData :=
  match fss with
  | [] => []
  | fs :: rest =>
      match fs !! i with
      | Some p => p.2 :: column i rest
      | None => column i rest
      end
  end.

(** While no attempt has been abandoned, the pops of queue [i] are the
    [i]-th items of the completed FrameSets, oldest first, followed by
    the [i]-th item of the FrameSet being collected. *)
Definition lockstep_ok (st : State) : Prop :=
  abandoned (log st) = [] ->
  forall i, pops_of i (log st)
            = column i (reverse (completed (log st)).*1 ++ [collecting (log st)]).

(** * Properties *)

(** ** SafeQueue *)

Section QueueLaws.
Import SafeQueue.

Lemma push_length item q : length (push item q) = S (length q).
Proof. unfold push. rewrite length_app. simpl. lia. Qed.

Lemma pop_cases item q :
  match q with
  | [] => pop item q = (false, item, [])
  | front :: rest => pop item q = (true, front, rest)
  end.
Proof. destruct q; reflexivity. Qed.

(** Conservation: what was in the queue followed by what was pushed is
    what was popped followed by what is still queued. *)
Lemma run_fifo ops : forall q,
  (run ops q).1 ++ (run ops q).2 = q ++ pushed ops.
Proof.
  induction ops as [|[item|] ops IH]; intros q; simpl.
  - by rewrite app_nil_r.
  - rewrite IH. unfold push. by rewrite <- app_assoc.
  - destruct q as [|front rest]; simpl.
    + apply (IH []).
    + specialize (IH rest). destruct (run ops rest) as [out qf].
      simpl in *. by rewrite IH.
Qed.

Lemma pushed_fmap_Push items : pushed (Push <$> items) = items.
Proof. induction items as [|x items IH]; csimpl; congruence. Qed.

Lemma run_pushes items : forall q,
  run (Push <$> items) q = ([], q ++ items).
Proof.
  induction items as [|x items IH]; intros q; csimpl.
  - by rewrite app_nil_r.
  - rewrite IH. unfold push. by rewrite <- app_assoc.
Qed.

(** C3: strict FIFO and depth accounting of [SafeQueue].  For any
    sequence of [push]/[pop] calls, the items handed out, followed by
    the items still queued, are exactly the items enqueued, in enqueue
    order; [push] grows the depth by one; a successful [pop] hands out
    the front item and shrinks the depth by one; a queue that only
    receives pushes keeps every item. *)
Theorem C3_fifo_and_depth (ops : list op) (q : t) (item : FrameData)
    (items : list FrameData) :
  (run ops q).1 ++ (run ops q).2 = q ++ pushed ops
  /\ length (push item q) = S (length q)
  /\ match pop item q with
     | (true, x, q') => q = x :: q' /\ length q = S (length q')
     | (false, x, q') => q = [] /\ q' = [] /\ x = item
     end
  /\ run (Push <$> items) q = ([], q ++ items)
  /\ length (run (Push <$> items) q).2 = (length q + length items)%nat.
Proof.
  split; [apply run_fifo|].
  split; [apply push_length|].
  split; [destruct q; simpl; auto|].
  rewrite run_pushes. split; [reflexivity|]. simpl. by rewrite length_app.
Qed.

End QueueLaws.

(** ** SafeQueue under its mutex *)

Section QueueMutex.
Import LockedQueue.

Lemma threads_length_step t c st st' :
  step t c st = Some st' -> length (threads st') = length (threads st).
Proof.
  unfold step. intros H.
  destruct (threads st !! t) as [[|c'|[item|item|]|]|]; try discriminate.
  - injection H as <-. simpl. by rewrite length_insert.
  - destruct (holder st); [discriminate|].
    injection H as <-. simpl. by rewrite length_insert.
  - injection H as <-. simpl. by rewrite length_insert.
  - destruct (SafeQueue.pop item (items st)) as [[ok item'] q'].
    injection H as <-. simpl. by rewrite length_insert.
  - injection H as <-. simpl. by rewrite length_insert.
  - injection H as <-. simpl. by rewrite length_insert.
Qed.

Lemma threads_length_exec sched : forall st,
  length (threads (exec sched st)) = length (threads st).
Proof.
  induction sched as [|[t c] sched IH]; intros st; simpl; [done|].
  rewrite IH. destruct (step t c st) as [st'|] eqn:Hs; simpl; [|done].
  by apply (threads_length_step t c).
Qed.

Lemma lookup_insert_Locked (l : list Pc) t pc u c :
  (forall c', pc <> Locked c') ->
  <[t := pc]> l !! u = Some (Locked c) ->
  u <> t /\ l !! u = Some (Locked c).
Proof.
  intros Hpc H. destruct (decide (u = t)) as [->|Hne].
  - apply list_lookup_insert_Some in H as [(_ & Heq & _)|[? _]]; [|done].
    exfalso. exact (Hpc c Heq).
  - rewrite list_lookup_insert_ne in H by done. by split.
Qed.

Lemma holder_ok_step t c st st' :
  holder_ok st -> step t c st = Some st' -> holder_ok st'.
Proof.
  unfold holder_ok, step. intros Hok H u.
  destruct (threads st !! t) as [pc|] eqn:Ht; [|discriminate].
  pose proof (lookup_lt_Some _ _ _ Ht) as Hlt.
  assert (Hfree : forall pc', (forall c', pc <> Locked c') ->
            (forall c', pc' <> Locked c') ->
            forall h, h = holder st ->
            (h = Some u <-> exists c0, <[t := pc']> (threads st) !! u = Some (Locked c0))).
  { intros pc' Hpc Hpc' h ->. rewrite Hok. split.
    - intros [c0 Hu]. exists c0.
      rewrite list_lookup_insert_ne; [done|]. intros ->.
      rewrite Ht in Hu. injection Hu as ->. by apply (Hpc c0).
    - intros [c0 Hu]. exists c0.
      by apply (lookup_insert_Locked _ _ _ _ _ Hpc') in Hu as [_ Hu]. }
  assert (Hrel : forall pc' c1, pc = Locked c1 ->
            (forall c', pc' <> Locked c') ->
            (None = Some u <-> exists c0, <[t := pc']> (threads st) !! u = Some (Locked c0))).
  { intros pc' c1 -> Hpc'. split; [done|]. intros [c0 Hu].
    apply (lookup_insert_Locked _ _ _ _ _ Hpc') in Hu as [Hne Hu].
    assert (Hhu : holder st = Some u) by (apply Hok; by exists c0).
    assert (Hht : holder st = Some t) by (apply Hok; by exists c1).
    congruence. }
  destruct pc as [|c'|[item|item|]|].
  - injection H as <-. simpl. by apply Hfree.
  - destruct (holder st) as [v|] eqn:Hh; [discriminate|].
    injection H as <-. simpl. split.
    + intros [= <-]. exists c'. by apply list_lookup_insert_eq.
    + intros [c0 Hu]. destruct (decide (u = t)) as [->|Hne]; [done|].
      rewrite list_lookup_insert_ne in Hu by done.
      assert (Hhu : None = Some u) by (apply Hok; by exists c0).
      discriminate.
  - injection H as <-. simpl. by apply (Hrel _ (CallPush item)).
  - destruct (SafeQueue.pop item (items st)) as [[ok item'] q'].
    injection H as <-. simpl. by apply (Hrel _ (CallPop item)).
  - injection H as <-. simpl. by apply (Hrel _ CallEmpty).
  - injection H as <-. simpl. by apply Hfree.
Qed.

Lemma holder_ok_init n q0 : holder_ok (init n q0).
Proof.
  intros u. simpl. split; [done|]. intros [c H].
  apply lookup_replicate in H as [H _]. discriminate.
Qed.

Lemma holder_ok_exec sched : forall st,
  holder_ok st -> holder_ok (exec sched st).
Proof.
  induction sched as [|[t c] sched IH]; intros st Hok; simpl; [done|].
  apply IH. destruct (step t c st) as [st'|] eqn:Hs; simpl; [|done].
  by apply (holder_ok_step t c st).
Qed.

(** A thread under a lock can always move, and its step releases the
    mutex and leaves the other threads where they are. *)
Lemma holder_releases u c0 c st :
  threads st !! u = Some (Locked c0) ->
  exists st1,
    step u c st = Some st1
    /\ holder st1 = None
    /\ forall t, t <> u -> threads st1 !! t = threads st !! t.
Proof.
  intros Hu. unfold step. rewrite Hu.
  destruct c0 as [item|item|].
  - eexists. split; [reflexivity|]. split; [done|].
    intros t Ht. simpl. by apply list_lookup_insert_ne.
  - destruct (SafeQueue.pop item (items st)) as [[ok item'] q'].
    eexists. split; [reflexivity|]. split; [done|].
    intros t Ht. simpl. by apply list_lookup_insert_ne.
  - eexists. split; [reflexivity|]. split; [done|].
    intros t Ht. simpl. by apply list_lookup_insert_ne.
Qed.

(** With the mutex free, two steps of the caller alone complete a
    [pop], whatever the queue holds. *)
Lemma pop_alone t item c st :
  threads st !! t = Some (AtLock (CallPop item)) ->
  holder st = None ->
  exists st1 st2,
    step t c st = Some st1 /\ step t c st1 = Some st2
    /\ threads st2 = <[t := Outside]> (threads st)
    /\ holder st2 = None
    /\ match items st with
       | [] =>
           returns st2 = (t, RetPop false item) :: returns st
           /\ items st2 = []
       | front :: rest =>
           returns st2 = (t, RetPop true front) :: returns st
           /\ items st2 = rest
       end.
Proof.
  intros Ht Hh. pose proof (lookup_lt_Some _ _ _ Ht) as Hlt.
  unfold step at 1. rewrite Ht, Hh.
  destruct (items st) as [|front rest] eqn:Hq.
  - eexists _, _. split; [reflexivity|].
    unfold step. simpl. rewrite list_lookup_insert_eq by done.
    split; [reflexivity|]. simpl. by rewrite list_insert_insert_eq.
  - eexists _, _. split; [reflexivity|].
    unfold step. simpl. rewrite list_lookup_insert_eq by done.
    split; [reflexivity|]. simpl. by rewrite list_insert_insert_eq.
Qed.

(** C6: [pop] waits for nothing but the queue's mutex.  In every state
    that the threads can reach, a thread that cannot move is at the
    constructor of a lock while another thread holds the mutex, and
    that thread can move and releases the mutex at its next step; no
    thread waits for the queue to hold an item.  Once the mutex is
    free, two steps of the caller alone complete [pop], whatever the
    queue holds: on an empty queue it returns [false], the caller's
    item and the queue as they were; otherwise it returns [true], the
    front item is handed to the caller and removed. *)
Theorem C6_pop_never_blocks (numThreads : nat) (q0 : SafeQueue.t)
    (sched : list (nat * Call)) (t : nat) (item : FrameData) (c : Call) :
  let st := exec sched (init numThreads q0) in
  (forall u, (u < numThreads)%nat ->
     step u c st = None ->
     exists c' v,
       threads st !! u = Some (AtLock c')
       /\ holder st = Some v /\ v <> u
       /\ exists st1,
            step v c st = Some st1 /\ holder st1 = None
            /\ threads st1 !! u = Some (AtLock c')
            /\ is_Some (step u c st1))
  /\ (threads st !! t = Some (AtLock (CallPop item)) ->
      (step t c st = None <-> holder st <> None)
      /\ (holder st = None ->
          exists st1 st2,
            step t c st = Some st1 /\ step t c st1 = Some st2
            /\ threads st2 = <[t := Outside]> (threads st)
            /\ holder st2 = None
            /\ match items st with
               | [] =>
                   returns st2 = (t, RetPop false item) :: returns st
                   /\ items st2 = []
               | front :: rest =>
                   returns st2 = (t, RetPop true front) :: returns st
                   /\ items st2 = rest
               end))
  /\ (forall q,
        match q with
        | [] => SafeQueue.pop item q = (false, item, [])
        | front :: rest => SafeQueue.pop item q = (true, front, rest)
        end).
Proof.
  intros st.
  assert (Hok : holder_ok st) by apply holder_ok_exec, holder_ok_init.
  assert (Hlen : length (threads st) = numThreads).
  { unfold st. rewrite threads_length_exec. simpl. apply length_replicate. }
  split; [|split].
  - intros u Hu Hblocked.
    destruct (lookup_lt_is_Some_2 (threads st) u ltac:(lia)) as [pc Hpc].
    unfold step in Hblocked. rewrite Hpc in Hblocked.
    destruct pc as [|c'|[i0|i0|]|]; try discriminate.
    2:{ by destruct (SafeQueue.pop i0 (items st)) as [[? ?] ?]. }
    destruct (holder st) as [v|] eqn:Hv; [|discriminate].
    destruct (proj1 (Hok v) Hv) as [c0 Hlocked].
    assert (Hne : v <> u) by (intros ->; congruence).
    exists c', v. split; [done|]. split; [done|]. split; [done|].
    destruct (holder_releases v c0 c st Hlocked) as (st1 & Hs & Hfree & Hsame).
    exists st1. split; [done|]. split; [done|].
    assert (Hu1 : threads st1 !! u = Some (AtLock c'))
      by (rewrite Hsame by done; exact Hpc).
    split; [done|]. unfold step. by rewrite Hu1, Hfree.
  - intros Ht. split.
    + unfold step. rewrite Ht. destruct (holder st); split; try done.
    + intros Hh. by apply pop_alone.
  - intros q. apply pop_cases.
Qed.

(** A producer is inside [push] with the mutex when the display thread
    calls [pop]: the [pop] waits for that one step and then returns the
    pushed item; on an empty queue whose mutex is free it returns
    [false] with no other thread moving. *)
Lemma C6_pop_never_blocks_witness :
  let item := mkFrameData (frameCopy 100 1) 100 0 in
  let busy :=
    exec [(0%nat, CallPush item); (0%nat, CallPush item);
          (1%nat, CallPop FrameData_default)] (init 2 []) in
  holder busy = Some 0%nat
  /\ step 1 CallEmpty busy = None
  /\ returns (exec [(0%nat, CallEmpty); (1%nat, CallEmpty); (1%nat, CallEmpty)]
                busy)
     = [(1%nat, RetPop true item)]
  /\ exists st1 st2,
       step 1 CallEmpty (exec [(1%nat, CallPop item)] (init 2 [])) = Some st1
       /\ step 1 CallEmpty st1 = Some st2
       /\ returns st2 = [(1%nat, RetPop false item)].
Proof.
  intros item busy.
  split; [reflexivity|]. split; [reflexivity|]. split; [reflexivity|].
  destruct (C6_pop_never_blocks 2 [] [(1%nat, CallPop item)] 1 item CallEmpty)
    as (_ & Hpop & _).
  destruct Hpop as [_ Hfree]; [reflexivity|].
  destruct (Hfree eq_refl) as (st1 & st2 & H1 & H2 & _ & _ & Hret & _).
  exists st1, st2. split; [exact H1|]. split; [exact H2|exact Hret].
Defined.

End QueueMutex.

Section QueueAtomic.
Import LockedQueue.



End QueueAtomic.

(** ** Timestamp differences *)

Lemma to_int64_uint64_sub a b :
  - 2 ^ 63 <= a - b < 2 ^ 63 -> to_int64 (uint64_sub a b) = a - b.
Proof.
  intros H. unfold to_int64, uint64_sub.
  destruct (Z.ltb_spec ((a - b) mod 2 ^ 64) (2 ^ 63)) as [Hlt|Hge].
  - destruct (Z.le_gt_cases 0 (a - b)) as [Hp|Hn].
    + apply Z.mod_small. lia.
    + exfalso. rewrite <- (Z.mod_add (a - b) 1 (2 ^ 64)) in Hlt by lia.
      rewrite Z.mod_small in Hlt; lia.
  - destruct (Z.le_gt_cases 0 (a - b)) as [Hp|Hn].
    + exfalso. rewrite Z.mod_small in Hge; lia.
    + rewrite <- (Z.mod_add (a - b) 1 (2 ^ 64)) by lia.
      rewrite Z.mod_small; lia.
Qed.

Lemma draw_diff_length ts frames i :
  length (draw_diff ts frames i) = length frames.
Proof. unfold draw_diff. apply length_insert. Qed.

(** After the overlays for indices [1..k] are drawn, exactly those
    frames carry the difference with camera 0. *)
Lemma draw_diffs_fold ts frames k :
  (k < length frames)%nat ->
  forall j,
    foldl (draw_diff ts) frames (seq 1 k) !! j =
    if bool_decide (1 <= j <= k)%nat
    then Some (putText (frames !!! j)
                 (diff_line (to_int64 (uint64_sub (ts !!! j) (ts !!! 0%nat))))
                 10 60)
    else frames !! j.
Proof.
  induction k as [|k IH]; intros Hk j.
  - simpl. rewrite bool_decide_eq_false_2 by lia. reflexivity.
  - rewrite seq_S, foldl_app. simpl.
    assert (Hlen : forall n, length (foldl (draw_diff ts) frames (seq 1 n))
                             = length frames).
    { clear. intros n. generalize 1%nat as m. revert frames.
      induction n as [|n IHn]; intros frames m; simpl; [reflexivity|].
      rewrite IHn. apply draw_diff_length. }
    unfold draw_diff at 1.
    destruct (decide (j = S k)) as [->|Hne].
    + rewrite list_lookup_insert_eq by (rewrite Hlen; lia).
      rewrite bool_decide_eq_true_2 by lia.
      f_equal. f_equal.
      apply list_lookup_total_correct. rewrite IH by lia.
      rewrite bool_decide_eq_false_2 by lia.
      apply list_lookup_lookup_total_lt. lia.
    + rewrite list_lookup_insert_ne by congruence.
      rewrite IH by lia.
      destruct (decide (1 <= j <= k)%nat).
      * by rewrite !bool_decide_eq_true_2 by lia.
      * by rewrite !bool_decide_eq_false_2 by lia.
Qed.

Lemma draw_diffs_lookup numCameras ts frames j :
  length frames = numCameras ->
  draw_diffs numCameras ts frames !! j =
  if bool_decide (1 <= j < numCameras)%nat
  then Some (putText (frames !!! j)
               (diff_line (to_int64 (uint64_sub (ts !!! j) (ts !!! 0%nat))))
               10 60)
  else frames !! j.
Proof.
  intros Hlen. unfold draw_diffs.
  destruct (Nat.ltb_spec 1 numCameras) as [H1|H1].
  - rewrite draw_diffs_fold by lia.
    destruct (decide (1 <= j < numCameras)%nat).
    + by rewrite !bool_decide_eq_true_2 by lia.
    + by rewrite !bool_decide_eq_false_2 by lia.
  - by rewrite bool_decide_eq_false_2 by lia.
Qed.

Lemma draw_diffs_length numCameras ts frames :
  length (draw_diffs numCameras ts frames) = length frames.
Proof.
  unfold draw_diffs. destruct (1 <? numCameras)%nat; [|reflexivity].
  generalize (seq 1 (numCameras - 1)) as l. revert frames.
  induction l as [|i l IH] using rev_ind; [reflexivity|].
  rewrite foldl_app. simpl. by rewrite draw_diff_length.
Qed.

(** ** Grid layout *)

Lemma ceil_sqrt_spec n :
  1 <= n ->
  (ceil_sqrt n - 1) * (ceil_sqrt n - 1) < n <= ceil_sqrt n * ceil_sqrt n.
Proof.
  intros Hn. unfold ceil_sqrt.
  pose proof (Z.sqrt_spec n ltac:(lia)) as Hs.
  pose proof (Z.sqrt_nonneg n) as Hs0.
  unfold Z.succ in Hs. set (s := Z.sqrt n) in *.
  destruct (Z.eqb_spec (s * s) n) as [He|Hne].
  - assert (1 <= s) by nia. nia.
  - replace (s + 1 - 1) with s by lia. lia.
Qed.

Lemma ceil_div_spec n c :
  0 < c -> (ceil_div n c - 1) * c < n <= ceil_div n c * c.
Proof.
  intros Hc. unfold ceil_div.
  pose proof (Z.div_mod (n + c - 1) c ltac:(lia)) as Hd.
  pose proof (Z.mod_pos_bound (n + c - 1) c Hc) as Hm.
  nia.
Qed.

(** *** The floating-point computation of the layout *)

Lemma quotient_upper c q n k P :
  0 < c -> 0 < P -> c * q <= n * P -> n <= k * c ->
  q <= k * P /\ (q = k * P -> n * P = c * q).
Proof.
  intros Hc HP Hq Hn.
  assert (H1 : n * P <= k * c * P) by (apply Z.mul_le_mono_nonneg_r; lia).
  assert (H2 : c * q <= c * (k * P)) by lia.
  apply Z.mul_le_mono_pos_l in H2; [|done].
  split; [done|]. intros ->. lia.
Qed.

Lemma quotient_lower c q n k P :
  0 < c -> c < P -> n * P < c * q + c -> (k - 1) * c < n ->
  (k - 1) * P + 1 <= q /\ (q = (k - 1) * P + 1 -> n * P <> c * q).
Proof.
  intros Hc HP Hq Hn.
  assert (H1 : ((k - 1) * c + 1) * P <= n * P)
    by (apply Z.mul_le_mono_nonneg_r; lia).
  assert (H2 : c * ((k - 1) * P + 1) < c * (q + 1)) by lia.
  apply Z.mul_lt_mono_pos_l in H2; [|done].
  split; [lia|]. intros ->. lia.
Qed.

Lemma sqrt_scaled_exact s0 T :
  0 <= s0 -> 0 <= T -> Z.sqrt (s0 * s0 * (T * T)) = s0 * T.
Proof.
  intros Hs HT. replace (s0 * s0 * (T * T)) with ((s0 * T) * (s0 * T)) by lia.
  apply Z.sqrt_square. nia.
Qed.

Lemma sqrt_scaled_bounds n s0 T :
  0 <= s0 -> 2 * s0 < T -> s0 * s0 < n < (s0 + 1) * (s0 + 1) ->
  s0 * T + 1 <= Z.sqrt (n * (T * T)) < (s0 + 1) * T.
Proof.
  intros Hs HT [Hlo Hhi]. split.
  - apply Z.sqrt_le_square; [nia|nia|].
    assert (H1 : (s0 * s0 + 1) * (T * T) <= n * (T * T))
      by (apply Z.mul_le_mono_nonneg_r; nia).
    assert (H2 : 2 * s0 * T + 1 <= T * T) by nia.
    nia.
  - apply Z.sqrt_lt_square; [nia|nia|].
    assert (H1 : n * (T * T) < (s0 + 1) * (s0 + 1) * (T * T))
      by (apply Z.mul_lt_mono_pos_r; nia).
    lia.
Qed.

Section FloatFacts.
Variables prec emax : Z.
Hypothesis Hprec : 1 < prec.
Hypothesis Hemax : prec + 2 <= emax.

Lemma digits2_pos_bounds p :
  2 ^ (Zpos (digits2_pos p) - 1) <= Zpos p < 2 ^ Zpos (digits2_pos p).
Proof.
  induction p as [p IH|p IH|]; cbn [digits2_pos].
  - rewrite Pos2Z.inj_succ, (Pos2Z.inj_xI p).
    replace (Z.succ (Zpos (digits2_pos p)) - 1)
      with (Z.succ (Zpos (digits2_pos p) - 1)) by lia.
    rewrite !Z.pow_succ_r by lia.
    generalize dependent (2 ^ (Zpos (digits2_pos p) - 1)).
    generalize dependent (2 ^ Zpos (digits2_pos p)). intros; lia.
  - rewrite Pos2Z.inj_succ, (Pos2Z.inj_xO p).
    replace (Z.succ (Zpos (digits2_pos p)) - 1)
      with (Z.succ (Zpos (digits2_pos p) - 1)) by lia.
    rewrite !Z.pow_succ_r by lia.
    generalize dependent (2 ^ (Zpos (digits2_pos p) - 1)).
    generalize dependent (2 ^ Zpos (digits2_pos p)). intros; lia.
  - simpl. lia.
Qed.

Lemma digits2_pos_unique p d :
  2 ^ (d - 1) <= Zpos p < 2 ^ d -> Zpos (digits2_pos p) = d.
Proof.
  intros [Hlo Hhi]. pose proof (digits2_pos_bounds p) as [Hlo' Hhi'].
  assert (Hd : 0 < d).
  { destruct (Z.lt_ge_cases 0 d) as [|Hle]; [done|].
    assert (2 ^ d <= 2 ^ 0) by (apply Z.pow_le_mono_r; lia).
    simpl in *. lia. }
  assert (d - 1 < Zpos (digits2_pos p)).
  { apply (Z.pow_lt_mono_r_iff 2); lia. }
  assert (Zpos (digits2_pos p) - 1 < d).
  { apply (Z.pow_lt_mono_r_iff 2); lia. }
  lia.
Qed.

Lemma iter_xO_spec (k p : positive) :
  Zpos (Pos.iter xO p k) = Zpos p * 2 ^ Zpos k.
Proof.
  induction k as [|k IH] using Pos.peano_ind.
  - simpl. lia.
  - rewrite Pos.iter_succ, Pos2Z.inj_xO, IH, Pos2Z.inj_succ.
    rewrite Z.pow_succ_r by lia. lia.
Qed.

Lemma half_xI p : Zpos p~1 / 2 = Zpos p.
Proof.
  rewrite (Pos2Z.inj_xI p). symmetry. apply (Z.div_unique _ 2 _ 1); lia.
Qed.

Lemma half_xO p : Zpos p~0 / 2 = Zpos p.
Proof.
  rewrite (Pos2Z.inj_xO p). symmetry. apply (Z.div_unique _ 2 _ 0); lia.
Qed.

Lemma fexp_normal z : 3 - emax <= z -> fexp prec emax z = z - prec.
Proof. intros H. unfold fexp, emin. lia. Qed.

Lemma loc_of_record_of m l :
  loc_of_shr_record (shr_record_of_loc m l) = l
  /\ shr_m (shr_record_of_loc m l) = m.
Proof. by destruct l as [|[]]. Qed.

(** The last step of rounding: a mantissa of [prec] digits is kept,
    and [2 ^ prec] is renormalised. *)
Lemma round_fits (m : positive) e :
  2 ^ (prec - 1) <= Zpos m <= 2 ^ prec ->
  3 - emax - prec <= e -> e + 1 <= emax - prec ->
  exists m' e',
    (let '(mrs, e'') := shr_fexp prec emax (Zpos m) e loc_Exact in
     match shr_m mrs with
     | Z0 => S754_zero false
     | Zpos m0 =>
         if e'' <=? emax - prec then S754_finite false m0 e''
         else S754_infinity false
     | _ => S754_nan
     end) = S754_finite false m' e'
    /\ e <= e' <= e + 1 /\ Zpos m' * 2 ^ (e' - e) = Zpos m
    /\ 2 ^ (prec - 1) <= Zpos m' < 2 ^ prec.
Proof.
  intros [Hlo Hhi] He1 He2.
  assert (Hpow : 2 ^ prec = 2 * 2 ^ (prec - 1)).
  { rewrite <- Z.pow_succ_r by lia. f_equal; lia. }
  destruct (Z.eq_dec (Zpos m) (2 ^ prec)) as [Heq|Hne].
  - assert (Hd : Zpos (digits2_pos m) = prec + 1).
    { apply digits2_pos_unique.
      replace (prec + 1 - 1) with prec by lia.
      replace (prec + 1) with (Z.succ prec) by lia.
      rewrite Z.pow_succ_r by lia. lia. }
    unfold shr_fexp, Zdigits2. rewrite Hd.
    rewrite fexp_normal by lia.
    replace (prec + 1 + e - prec - e) with 1 by lia.
    cbn [shr shr_record_of_loc SpecFloat.iter_pos].
    destruct m as [p|p|].
    + exfalso. rewrite Pos2Z.inj_xI in Heq. lia.
    + cbn [shr_1 shr_m].
      assert (Hp : Zpos p = 2 ^ (prec - 1)) by (rewrite Pos2Z.inj_xO in Heq; lia).
      exists p, (e + 1).
      rewrite (proj2 (Z.leb_le _ _)) by lia.
      split; [done|]. split; [lia|].
      replace (e + 1 - e) with 1 by lia.
      split; [rewrite Pos2Z.inj_xO; lia|]. lia.
    + exfalso. assert (0 < 2 ^ (prec - 1)) by (apply Z.pow_pos_nonneg; lia). lia.
  - assert (Hd : Zpos (digits2_pos m) = prec).
    { apply digits2_pos_unique. lia. }
    unfold shr_fexp, Zdigits2. rewrite Hd.
    rewrite fexp_normal by lia.
    replace (prec + e - prec - e) with 0 by lia.
    cbn [shr shr_record_of_loc shr_m].
    exists m, e.
    rewrite (proj2 (Z.leb_le _ _)) by lia.
    split; [done|]. split; [lia|].
    replace (e - e) with 0 by lia. split; lia.
Qed.

Lemma round_nearest_even_cases (q : positive) l :
  exists m1 : positive,
    round_nearest_even (Zpos q) l = Zpos m1
    /\ Zpos q <= Zpos m1 <= Zpos q + 1
    /\ (l = loc_Exact \/ l = loc_Inexact Lt -> m1 = q)
    /\ (l = loc_Inexact Gt -> Zpos m1 = Zpos q + 1).
Proof.
  destruct l as [|[]]; cbn [round_nearest_even];
    [exists q|destruct (Z.even (Zpos q)); [exists q|exists (q + 1)%positive]
    |exists q|exists (q + 1)%positive];
    (split; [reflexivity|]; split; [lia|]; split;
     [intros [H|H]; try discriminate H; reflexivity
     |intros H; try discriminate H; lia]).
Qed.

(** Rounding to nearest even of a mantissa with [prec] or [prec + 1]
    digits.  [W] is the result in units of [2 ^ e]. *)
Lemma binary_round_aux_spec (q : positive) e l :
  2 ^ (prec - 1) <= Zpos q < 2 ^ (prec + 1) ->
  3 - emax - prec <= e -> e + 2 <= emax - prec ->
  exists m' e',
    binary_round_aux prec emax false (Zpos q) e l = S754_finite false m' e'
    /\ e <= e' <= e + 2
    /\ 2 ^ (prec - 1) <= Zpos m' < 2 ^ prec
    /\ (Zpos q < 2 ^ prec ->
        Zpos q <= Zpos m' * 2 ^ (e' - e) <= Zpos q + 1
        /\ (l = loc_Exact -> Zpos m' * 2 ^ (e' - e) = Zpos q))
    /\ (2 ^ prec <= Zpos q ->
        2 * (Zpos q / 2) <= Zpos m' * 2 ^ (e' - e) <= 2 * (Zpos q / 2) + 2
        /\ (l = loc_Exact -> Z.even (Zpos q) = true ->
            Zpos m' * 2 ^ (e' - e) = Zpos q)
        /\ (l <> loc_Exact -> Z.even (Zpos q) = false ->
            Zpos m' * 2 ^ (e' - e) = Zpos q + 1)).
Proof.
  intros [Hlo Hhi] He1 He2.
  assert (Hpow : 2 ^ prec = 2 * 2 ^ (prec - 1)).
  { rewrite <- Z.pow_succ_r by lia. f_equal; lia. }
  assert (Hpow1 : 2 ^ (prec + 1) = 2 * 2 ^ prec).
  { rewrite <- Z.pow_succ_r by lia. f_equal. }
  unfold binary_round_aux.
  destruct (Z.lt_ge_cases (Zpos q) (2 ^ prec)) as [Hsmall|Hbig].
  - (* [prec] digits: no shift *)
    assert (Hd : Zpos (digits2_pos q) = prec) by (apply digits2_pos_unique; lia).
    unfold shr_fexp at 1. unfold Zdigits2. rewrite Hd.
    rewrite fexp_normal by lia.
    replace (prec + e - prec - e) with 0 by lia.
    cbn [shr].
    destruct (loc_of_record_of (Zpos q) l) as [-> ->].
    destruct (round_nearest_even_cases q l) as (m1 & -> & Hm1 & Hex & _).
    destruct (round_fits m1 e) as (m' & e' & Hr & He' & HW & Hm'); [lia..|].
    rewrite Hr. exists m', e'.
    split; [done|]. split; [lia|]. split; [done|].
    split; [|lia]. intros _. rewrite HW. split; [lia|].
    intros ->. by rewrite Hex by (by left).
  - (* [prec + 1] digits: one bit is shifted out *)
    assert (Hd : Zpos (digits2_pos q) = prec + 1).
    { apply digits2_pos_unique. replace (prec + 1 - 1) with prec by lia. lia. }
    unfold shr_fexp at 1. unfold Zdigits2. rewrite Hd.
    rewrite fexp_normal by lia.
    replace (prec + 1 + e - prec - e) with 1 by lia.
    cbn [shr SpecFloat.iter_pos].
    assert (Hcase : exists (p : positive) (l' : location),
      shr_1 (shr_record_of_loc (Zpos q) l)
      = shr_record_of_loc (Zpos p) l'
      /\ Zpos q / 2 = Zpos p
      /\ (l = loc_Exact -> Z.even (Zpos q) = true -> l' = loc_Exact)
      /\ (l <> loc_Exact -> Z.even (Zpos q) = false -> l' = loc_Inexact Gt)).
    { destruct q as [p|p|].
      - destruct l as [|[]]; cbn [shr_record_of_loc shr_1 orb].
        + exists p, (loc_Inexact Eq). split; [done|].
          split; [apply half_xI|]. by split.
        + exists p, (loc_Inexact Gt). split; [done|].
          split; [apply half_xI|]. by split.
        + exists p, (loc_Inexact Gt). split; [done|].
          split; [apply half_xI|]. by split.
        + exists p, (loc_Inexact Gt). split; [done|].
          split; [apply half_xI|]. by split.
      - destruct l as [|[]]; cbn [shr_record_of_loc shr_1 orb].
        + exists p, loc_Exact. split; [done|].
          split; [apply half_xO|]. by split.
        + exists p, (loc_Inexact Lt). split; [done|].
          split; [apply half_xO|]. by split.
        + exists p, (loc_Inexact Lt). split; [done|].
          split; [apply half_xO|]. by split.
        + exists p, (loc_Inexact Lt). split; [done|].
          split; [apply half_xO|]. by split.
      - exfalso. assert (0 < 2 ^ (prec - 1)) by (apply Z.pow_pos_nonneg; lia).
        lia. }
    destruct Hcase as (p & l' & -> & Hp & Hev & Hodd).
    destruct (loc_of_record_of (Zpos p) l') as [-> ->].
    destruct (round_nearest_even_cases p l') as (m1 & -> & Hm1 & Hex & Hgt).
    assert (Hq2 : 2 * Zpos p <= Zpos q <= 2 * Zpos p + 1).
    { rewrite <- Hp.
      pose proof (Z.mul_div_le (Zpos q) 2 ltac:(lia)).
      pose proof (Z.mul_succ_div_gt (Zpos q) 2 ltac:(lia)). lia. }
    assert (Hpb : 2 ^ (prec - 1) <= Zpos p < 2 ^ prec) by lia.
    destruct (round_fits m1 (e + 1)) as (m' & e' & Hr & He' & HW & Hm'); [lia..|].
    rewrite Hr. exists m', e'.
    split; [done|]. split; [lia|]. split; [done|].
    split; [lia|]. intros _.
    assert (HW' : Zpos m' * 2 ^ (e' - e) = 2 * Zpos m1).
    { replace (e' - e) with (Z.succ (e' - (e + 1))) by lia.
      rewrite Z.pow_succ_r by lia. lia. }
    rewrite HW', Hp.
    split; [lia|]. split.
    + intros Hl Heven. rewrite (Hex (or_introl (Hev Hl Heven))).
      apply Z.even_spec in Heven as [k Hk]. lia.
    + intros Hl Hodd'. rewrite (Hgt (Hodd Hl Hodd')).
      rewrite <- Z.negb_odd in Hodd'. apply negb_false_iff in Hodd'.
      apply Z.odd_spec in Hodd' as [k Hk]. lia.
Qed.

Lemma pow2_pos z : 0 <= z -> 0 < 2 ^ z.
Proof. intros. apply Z.pow_pos_nonneg; lia. Qed.

(** An integer below [2 ^ prec] is converted exactly, to a normal
    number. *)
Lemma of_int_finite n :
  1 <= n < 2 ^ prec ->
  exists m e,
    IEEE.of_int prec emax n = S754_finite false m e
    /\ 1 - prec <= e <= 0
    /\ Zpos m = n * 2 ^ (- e)
    /\ 2 ^ (prec - 1) <= Zpos m < 2 ^ prec
    /\ 2 ^ (e + prec - 1) <= n < 2 ^ (e + prec).
Proof.
  intros [Hn1 Hn2]. destruct n as [|p|p]; try lia.
  unfold IEEE.of_int, binary_normalize, binary_round, shl_align.
  pose proof (digits2_pos_bounds p) as [Hlo Hhi].
  set (d := Zpos (digits2_pos p)) in *.
  assert (Hd1 : 1 <= d) by (unfold d; lia).
  assert (Hd2 : d <= prec).
  { assert (d - 1 < prec); [|lia].
    apply (Z.pow_lt_mono_r_iff 2); lia. }
  rewrite fexp_normal by lia.
  assert (Hsplit : 2 ^ prec = 2 ^ d * 2 ^ (prec - d)).
  { rewrite <- Z.pow_add_r by lia. f_equal; lia. }
  assert (Hsplit1 : 2 ^ (prec - 1) = 2 ^ (d - 1) * 2 ^ (prec - d)).
  { rewrite <- Z.pow_add_r by lia. f_equal; lia. }
  pose proof (pow2_pos (prec - d) ltac:(lia)) as Hk.
  assert (Hround : forall (mz : positive) ez,
    ez = d - prec -> Zpos mz = Zpos p * 2 ^ (prec - d) ->
    exists m e,
      binary_round_aux prec emax false (Zpos mz) ez loc_Exact
      = S754_finite false m e
      /\ 1 - prec <= e <= 0 /\ Zpos m = Zpos p * 2 ^ (- e)
      /\ 2 ^ (prec - 1) <= Zpos m < 2 ^ prec
      /\ 2 ^ (e + prec - 1) <= Zpos p < 2 ^ (e + prec)).
  { intros mz ez -> Hmz.
    assert (Hb : 2 ^ (prec - 1) <= Zpos mz < 2 ^ prec).
    { rewrite Hmz, Hsplit, Hsplit1. split.
      - apply Z.mul_le_mono_nonneg_r; lia.
      - apply Z.mul_lt_mono_pos_r; lia. }
    assert (Hpow1 : 2 ^ (prec + 1) = 2 * 2 ^ prec).
    { replace (prec + 1) with (Z.succ prec) by lia.
      rewrite Z.pow_succ_r by lia. lia. }
    destruct (binary_round_aux_spec mz (d - prec) loc_Exact)
      as (m' & e' & Hr & He' & Hm' & Hsmall & _); [lia..|].
    destruct (Hsmall ltac:(lia)) as [_ HW]. specialize (HW eq_refl).
    assert (He : e' = d - prec).
    { destruct (Z.eq_dec e' (d - prec)) as [|Hne]; [done|exfalso].
      assert (2 ^ 1 <= 2 ^ (e' - (d - prec)))
        by (apply Z.pow_le_mono_r; lia).
      assert (2 * Zpos m' <= Zpos m' * 2 ^ (e' - (d - prec))) by nia.
      assert (2 ^ prec = 2 * 2 ^ (prec - 1)).
      { rewrite <- Z.pow_succ_r by lia. f_equal; lia. }
      lia. }
    subst e'. replace (d - prec - (d - prec)) with 0 in HW by lia.
    exists m', (d - prec). split; [done|]. split; [lia|].
    replace (- (d - prec)) with (prec - d) by lia.
    split; [lia|]. split; [done|].
    replace (d - prec + prec - 1) with (d - 1) by lia.
    replace (d - prec + prec) with d by lia. done. }
  replace (d + 0 - prec - 0) with (d - prec) by lia.
  destruct (d - prec) as [|k|k] eqn:Hdk; try lia.
  - apply Hround; [lia|]. replace (prec - d) with 0 by lia. lia.
  - apply Hround; [lia|]. rewrite iter_xO_spec.
    f_equal. f_equal; lia.
Qed.

Lemma to_int_of_int k :
  0 <= k < 2 ^ prec -> k < 2 ^ 31 ->
  IEEE.to_int (IEEE.of_int prec emax k) = k.
Proof.
  intros Hk Hk31. destruct (Z.eq_dec k 0) as [->|Hne].
  - reflexivity.
  - destruct (of_int_finite k ltac:(lia)) as (m & e & -> & He & Hm & _).
    unfold IEEE.to_int, IEEE.truncZ. cbn [cond_Zopp].
    assert (Hv : (if 0 <=? e then Some (Zpos m * 2 ^ e)
                  else Some (Zpos m / 2 ^ (- e))) = Some k).
    { destruct (Z.leb_spec 0 e).
      - replace e with 0 in * by lia. f_equal. simpl in Hm. lia.
      - f_equal. rewrite Hm. apply Z.div_mul.
        pose proof (pow2_pos (- e) ltac:(lia)). lia. }
    rewrite Hv.
    destruct (Z.leb_spec (- 2 ^ 31) k); [|lia].
    destruct (Z.ltb_spec k (2 ^ 31)); [done|lia].
Qed.

(** [ceil] of a positive finite number whose value, in units of
    [2 ^ e], lies in the interval [((k - 1) * 2 ^ - e, k * 2 ^ - e\]]. *)
Lemma ceilZ_bounds (m' : positive) e e' k :
  e <= 0 -> e <= e' ->
  (k - 1) * 2 ^ (- e) < Zpos m' * 2 ^ (e' - e) <= k * 2 ^ (- e) ->
  IEEE.ceilZ (S754_finite false m' e') = Some k.
Proof.
  intros He He' [Hlo Hhi]. unfold IEEE.ceilZ. cbn [cond_Zopp].
  destruct (Z.leb_spec 0 e') as [Hpos|Hneg].
  - f_equal.
    assert (Hs : 2 ^ (e' - e) = 2 ^ e' * 2 ^ (- e)).
    { rewrite <- Z.pow_add_r by lia. f_equal; lia. }
    rewrite Hs in *.
    pose proof (pow2_pos (- e) ltac:(lia)) as HP.
    set (P := 2 ^ (- e)) in *. set (V := Zpos m' * 2 ^ e').
    assert (HV : (k - 1) * P < V * P <= k * P) by (unfold V; lia).
    destruct HV as [H1 H2].
    apply Z.mul_lt_mono_pos_r in H1; [|done].
    apply Z.mul_le_mono_pos_r in H2; [|done]. lia.
  - f_equal.
    assert (Hs : 2 ^ (- e) = 2 ^ (- e') * 2 ^ (e' - e)).
    { rewrite <- Z.pow_add_r by lia. f_equal; lia. }
    rewrite Hs in *.
    pose proof (pow2_pos (- e') ltac:(lia)) as Hd.
    pose proof (pow2_pos (e' - e) ltac:(lia)) as Ht.
    set (d := 2 ^ (- e')) in *. set (t := 2 ^ (e' - e)) in *.
    assert (H1 : (k - 1) * d < Zpos m').
    { apply (Z.mul_lt_mono_pos_r t); [done|]. lia. }
    assert (H2 : Zpos m' <= k * d).
    { apply (Z.mul_le_mono_pos_r _ _ t); [done|]. lia. }
    symmetry. apply (Z.div_unique _ d k (Zpos m' + d - 1 - k * d)); lia.
Qed.

Lemma new_location_exact m r :
  (new_location m r = loc_Exact <-> r = 0).
Proof.
  unfold new_location, new_location_even, new_location_odd.
  destruct (Z.even m); destruct (Z.eqb_spec r 0); split; try done.
Qed.

(** The quotient of two normal numbers, before rounding. *)
Lemma SFdiv_finite (m1 m2 : positive) e1 e2 :
  2 ^ (prec - 1) <= Zpos m1 < 2 ^ prec ->
  2 ^ (prec - 1) <= Zpos m2 < 2 ^ prec ->
  1 - prec <= e1 <= 0 -> 1 - prec <= e2 <= 0 ->
  SFdiv prec emax (S754_finite false m1 e1) (S754_finite false m2 e2)
  = binary_round_aux prec emax false
      ((Zpos m1 * 2 ^ prec) / Zpos m2) (e1 - e2 - prec)
      (new_location (Zpos m2) ((Zpos m1 * 2 ^ prec) mod Zpos m2)).
Proof.
  intros Hm1 Hm2 He1 He2.
  unfold SFdiv, SFdiv_core_binary, Zdigits2.
  rewrite (digits2_pos_unique m1 prec), (digits2_pos_unique m2 prec) by lia.
  rewrite fexp_normal by lia.
  rewrite Z.min_l by lia.
  replace (prec + e1 - (prec + e2) - prec) with (e1 - e2 - prec) by lia.
  replace (e1 - e2 - (e1 - e2 - prec)) with prec by lia.
  destruct prec as [|pp|pp] eqn:Hp; try lia.
  rewrite Z.shiftl_mul_pow2 by lia.
  unfold Z.div, Z.modulo.
  by destruct (Z.div_eucl (Zpos m1 * 2 ^ Zpos pp) (Zpos m2)) as [q r].
Qed.

(** [ceil((float)n / c)] computed in the format, for integers that the
    format holds exactly. *)
Lemma ceil_div_float n c :
  1 <= n < 2 ^ prec -> 1 <= c < 2 ^ prec -> n < 2 ^ 31 ->
  IEEE.to_int
    (IEEE.ceil prec emax
       (SFdiv prec emax (IEEE.of_int prec emax n) (IEEE.of_int prec emax c)))
  = ceil_div n c.
Proof.
  intros Hn Hc Hn31.
  destruct (of_int_finite n Hn) as (m1 & e1 & -> & He1 & Hm1 & Hb1 & _).
  destruct (of_int_finite c Hc) as (m2 & e2 & -> & He2 & Hm2 & Hb2 & _).
  rewrite SFdiv_finite by done.
  set (e := e1 - e2 - prec).
  set (A := 2 ^ (- e1)) in *. set (B := 2 ^ (- e2)) in *.
  set (P := 2 ^ (- e)).
  pose proof (pow2_pos (- e1) ltac:(lia)) as HA. fold A in HA.
  pose proof (pow2_pos (- e2) ltac:(lia)) as HB. fold B in HB.
  assert (HAP : A * 2 ^ prec = P * B).
  { unfold A, P, B, e. rewrite <- !Z.pow_add_r by lia. f_equal; lia. }
  assert (HP2 : P = 2 * 2 ^ (- e - 1)).
  { unfold P. rewrite <- Z.pow_succ_r by (unfold e; lia). f_equal; lia. }
  pose proof (pow2_pos (- e - 1) ltac:(unfold e; lia)) as HP'.
  set (P' := 2 ^ (- e - 1)) in *.
  assert (HcP : c < P).
  { apply (Z.mul_lt_mono_pos_r B); [done|]. rewrite <- HAP, <- Hm2.
    assert (2 ^ prec <= A * 2 ^ prec) by nia. lia. }
  assert (Hnum : Zpos m1 * 2 ^ prec = (n * P) * B).
  { rewrite Hm1. rewrite <- Z.mul_assoc, HAP. lia. }
  assert (Hq : (Zpos m1 * 2 ^ prec) / Zpos m2 = (n * P) / c).
  { rewrite Hnum, Hm2. apply Z.div_mul_cancel_r; lia. }
  assert (Hr : (Zpos m1 * 2 ^ prec) mod Zpos m2 = ((n * P) mod c) * B).
  { rewrite Hnum, Hm2. apply Z.mul_mod_distr_r; lia. }
  rewrite Hq, Hr.
  set (N := n * P) in *.
  set (q := N / c).
  assert (HqN : c * q <= N < c * q + c).
  { unfold q. pose proof (Z.mul_div_le N c ltac:(lia)).
    pose proof (Z.mul_succ_div_gt N c ltac:(lia)). lia. }
  assert (Hmod : N mod c = N - c * q).
  { unfold q. rewrite Z.mod_eq by lia. lia. }
  (* the quotient has [prec] or [prec + 1] digits *)
  assert (Hpow : 2 ^ prec = 2 * 2 ^ (prec - 1)).
  { rewrite <- Z.pow_succ_r by lia. f_equal; lia. }
  assert (Hpow1 : 2 ^ (prec + 1) = 2 * 2 ^ prec).
  { replace (prec + 1) with (Z.succ prec) by lia.
    rewrite Z.pow_succ_r by lia. lia. }
  assert (Hqb : 2 ^ (prec - 1) <= q < 2 ^ (prec + 1)).
  { unfold q. rewrite <- Hq. split.
    - apply Z.div_le_lower_bound; [lia|]. nia.
    - apply Z.div_lt_upper_bound; [lia|]. nia. }
  pose proof (pow2_pos (prec - 1) ltac:(lia)) as Hpp.
  clearbody q. destruct q as [|qp|qp]; try lia.
  destruct (binary_round_aux_spec qp e
              (new_location (Zpos m2) ((N - c * Zpos qp) * B)))
    as (m' & e' & Hround & He' & _ & Hsmall & Hbig);
    [lia|unfold e; lia|unfold e; lia|].
  rewrite Hmod, Hround.
  (* the exact quotient *)
  set (k := ceil_div n c).
  assert (Hk : (k - 1) * c < n <= k * c).
  { unfold k, ceil_div.
    pose proof (Z.mul_div_le (n + c - 1) c ltac:(lia)).
    pose proof (Z.mul_succ_div_gt (n + c - 1) c ltac:(lia)). lia. }
  assert (Hk1 : 1 <= k <= n).
  { split; [nia|]. unfold k, ceil_div.
    apply Z.lt_succ_r, Z.div_lt_upper_bound; nia. }
  assert (Hexact : forall l, l = new_location (Zpos m2) ((N - c * Zpos qp) * B) ->
            (l = loc_Exact <-> N = c * Zpos qp)).
  { intros l ->. rewrite new_location_exact. split; [nia|]. intros ->. lia. }
  set (l := new_location (Zpos m2) ((N - c * Zpos qp) * B)) in *.
  specialize (Hexact l eq_refl).
  set (W := Zpos m' * 2 ^ (e' - e)) in *.
  destruct (quotient_upper c (Zpos qp) n k P) as [HU HUe]; [lia..|].
  destruct (quotient_lower c (Zpos qp) n k P) as [HL HLe]; [lia..|].
  fold N in HUe, HLe.
  assert (HW : (k - 1) * P < W <= k * P).
  { destruct (Z.lt_ge_cases (Zpos qp) (2 ^ prec)) as [Hs|Hb].
    - destruct (Hsmall Hs) as [HWb HWe].
      destruct (Z.eq_dec (Zpos qp) (k * P)) as [Heq|Hne].
      + rewrite HWe by (apply Hexact; auto). lia.
      + lia.
    - destruct (Hbig Hb) as (HWb & HWe & HWo).
      pose proof (Z.mul_div_le (Zpos qp) 2 ltac:(lia)) as Hh1.
      pose proof (Z.mul_succ_div_gt (Zpos qp) 2 ltac:(lia)) as Hh2.
      set (h := Zpos qp / 2) in *.
      destruct (Z.even (Zpos qp)) eqn:Hev.
      + pose proof Hev as Hev'. apply Z.even_spec in Hev' as [j Hj].
        assert (h = j) by lia. subst j.
        destruct (Z.eq_dec (Zpos qp) (k * P)) as [Heq|Hne].
        * rewrite HWe by (try apply Hexact; auto). lia.
        * lia.
      + pose proof Hev as Hev'.
        rewrite <- Z.negb_odd in Hev'. apply negb_false_iff in Hev'.
        apply Z.odd_spec in Hev' as [j Hj].
        assert (h = j) by lia. subst j.
        destruct (Z.eq_dec (Zpos qp) ((k - 1) * P + 1)) as [Heq|Hne].
        * rewrite HWo; [lia| |done].
          intros Hl. apply Hexact in Hl. by apply HLe.
        * lia. }
  unfold IEEE.ceil.
  rewrite (ceilZ_bounds m' e e' k); [|unfold e; lia|lia|exact HW].
  apply to_int_of_int; lia.
Qed.

(** The square root of a normal number, before rounding: the integer
    square root of the scaled mantissa, exact only for a square. *)
Lemma SFsqrt_finite (m : positive) e :
  2 ^ (prec - 1) <= Zpos m < 2 ^ prec -> 1 - prec <= e <= 0 ->
  let h := (prec + e + 1) / 2 in
  let M := Zpos m * 2 ^ (e + 2 * (prec - h)) in
  exists l,
    SFsqrt prec emax (S754_finite false m e)
    = binary_round_aux prec emax false (Z.sqrt M) (h - prec) l
    /\ (l = loc_Exact <-> M = Z.sqrt M * Z.sqrt M).
Proof.
  intros Hm He h M.
  unfold SFsqrt, SFsqrt_core_binary, Zdigits2.
  rewrite (digits2_pos_unique m prec) by lia.
  rewrite !Z.div2_div. fold h.
  assert (Hh : 2 * h <= prec + e + 1 < 2 * h + 2).
  { unfold h. pose proof (Z.mul_div_le (prec + e + 1) 2 ltac:(lia)).
    pose proof (Z.mul_succ_div_gt (prec + e + 1) 2 ltac:(lia)). lia. }
  assert (He2 : 2 * (e / 2) <= e < 2 * (e / 2) + 2).
  { pose proof (Z.mul_div_le e 2 ltac:(lia)).
    pose proof (Z.mul_succ_div_gt e 2 ltac:(lia)). lia. }
  rewrite fexp_normal by lia.
  rewrite Z.min_l by lia.
  replace (e - 2 * (h - prec)) with (e + 2 * (prec - h)) by lia.
  destruct (e + 2 * (prec - h)) as [|sp|sp] eqn:Hs; try lia.
  rewrite Z.shiftl_mul_pow2 by lia. fold M.
  assert (HM : 0 <= M).
  { unfold M. pose proof (pow2_pos (Zpos sp) ltac:(lia)). nia. }
  pose proof (Z.sqrtrem_spec M HM) as Hspec.
  pose proof (Z.sqrtrem_sqrt M) as Hfst.
  destruct (Z.sqrtrem M) as [q r]. simpl in Hfst. subst q.
  destruct Hspec as [HMq Hr].
  eexists. split; [reflexivity|].
  destruct (Z.eqb_spec r 0); split; try done; intros; lia.
Qed.

(** [ceil(sqrt(n))] computed in the format. *)
Lemma ceil_sqrt_float n :
  1 <= n < 2 ^ (prec - 2) -> n < 2 ^ 31 ->
  IEEE.to_int
    (IEEE.ceil prec emax (SFsqrt prec emax (IEEE.of_int prec emax n)))
  = ceil_sqrt n.
Proof.
  intros Hn Hn31.
  assert (Hpow2 : 2 ^ prec = 4 * 2 ^ (prec - 2)).
  { replace prec with (Z.succ (Z.succ (prec - 2))) at 1 by lia.
    rewrite !Z.pow_succ_r by lia. lia. }
  assert (Hprec3 : 3 <= prec).
  { destruct (Z.eq_dec prec 2) as [H2|]; [|lia].
    rewrite H2 in Hn. simpl in Hn. lia. }
  destruct (of_int_finite n ltac:(lia)) as (m & e & -> & He & Hm & Hb & Hd).
  destruct (SFsqrt_finite m e Hb He) as (l & -> & Hl).
  set (h := (prec + e + 1) / 2) in *.
  assert (Hh : 2 * h <= prec + e + 1 < 2 * h + 2).
  { unfold h. pose proof (Z.mul_div_le (prec + e + 1) 2 ltac:(lia)).
    pose proof (Z.mul_succ_div_gt (prec + e + 1) 2 ltac:(lia)). lia. }
  (* [n] has [e + prec] digits, at most [prec - 2] *)
  assert (Hdn : e + prec <= prec - 2).
  { assert (e + prec - 1 < prec - 2); [|lia].
    apply (Z.pow_lt_mono_r_iff 2); lia. }
  set (K := prec - h) in *.
  set (T := 2 ^ K).
  assert (HT : 0 < T) by (apply pow2_pos; unfold K; lia).
  assert (HM : Zpos m * 2 ^ (e + 2 * K) = n * (T * T)).
  { rewrite Hm. unfold T. rewrite <- Z.mul_assoc. f_equal.
    rewrite <- !Z.pow_add_r by (unfold K; lia). f_equal; lia. }
  rewrite HM in *.
  set (M := n * (T * T)) in *.
  set (s0 := Z.sqrt n).
  assert (Hs0 : s0 * s0 <= n < (s0 + 1) * (s0 + 1)).
  { unfold s0. pose proof (Z.sqrt_spec n ltac:(lia)) as Hsq.
    cbv zeta in Hsq. unfold Z.succ in Hsq. lia. }
  assert (Hs0pos : 1 <= s0).
  { unfold s0. apply Z.sqrt_le_square; lia. }
  (* [s0 < 2 ^ h] and [2 ^ h * 2 <= T] *)
  assert (Hs0h : s0 < 2 ^ h).
  { unfold s0. apply Z.sqrt_lt_square; [lia|apply Z.lt_le_incl, pow2_pos; lia|].
    rewrite <- Z.pow_add_r by lia.
    assert (2 ^ (e + prec) <= 2 ^ (h + h)) by (apply Z.pow_le_mono_r; lia).
    lia. }
  assert (HTh : 2 * 2 ^ h <= T).
  { unfold T. rewrite <- Z.pow_succ_r by lia.
    apply Z.pow_le_mono_r; unfold K; lia. }
  (* the integer square root has [prec] digits *)
  assert (Hq : 2 ^ (prec - 1) <= Z.sqrt M < 2 ^ prec).
  { split.
    - apply Z.sqrt_le_square;
        [unfold M; nia|apply Z.lt_le_incl, pow2_pos; lia|].
      rewrite <- Z.pow_add_r by lia.
      assert (H1 : 2 ^ (e + prec - 1) * (T * T) <= M)
        by (unfold M; apply Z.mul_le_mono_nonneg_r; nia).
      assert (H2 : 2 ^ (prec - 1 + (prec - 1)) <= 2 ^ (e + prec - 1) * (T * T)).
      { unfold T. rewrite <- !Z.pow_add_r by (unfold K; lia).
        apply Z.pow_le_mono_r; unfold K; lia. }
      lia.
    - apply Z.sqrt_lt_square;
        [unfold M; nia|apply Z.lt_le_incl, pow2_pos; lia|].
      rewrite <- Z.pow_add_r by lia.
      assert (H1 : M < 2 ^ (e + prec) * (T * T))
        by (unfold M; apply Z.mul_lt_mono_pos_r; nia).
      assert (H2 : 2 ^ (e + prec) * (T * T) <= 2 ^ (prec + prec)).
      { unfold T. rewrite <- !Z.pow_add_r by (unfold K; lia).
        apply Z.pow_le_mono_r; unfold K; lia. }
      lia. }
  assert (Hpow1 : 2 ^ (prec + 1) = 2 * 2 ^ prec).
  { replace (prec + 1) with (Z.succ prec) by lia.
    rewrite Z.pow_succ_r by lia. lia. }
  pose proof (pow2_pos (prec - 1) ltac:(lia)) as Hpp.
  destruct (Z.sqrt M) as [|qp|qp] eqn:Hqp; try lia.
  destruct (binary_round_aux_spec qp (h - prec) l)
    as (m' & e' & -> & He' & _ & Hsmall & _); [lia..|].
  destruct (Hsmall ltac:(lia)) as [HWb HWe].
  set (W := Zpos m' * 2 ^ (e' - (h - prec))) in *.
  replace (- (h - prec)) with K in * by (unfold K; lia).
  assert (HW : (ceil_sqrt n - 1) * T < W <= ceil_sqrt n * T).
  { unfold ceil_sqrt. fold s0.
    destruct (Z.eqb_spec (s0 * s0) n) as [Heq|Hne].
    - assert (Hex : Zpos qp = s0 * T).
      { rewrite <- Hqp. unfold M. rewrite <- Heq.
        apply sqrt_scaled_exact; lia. }
      rewrite HWe.
      + rewrite Hex. nia.
      + apply Hl. rewrite Hex. unfold M. rewrite <- Heq. lia.
    - pose proof (sqrt_scaled_bounds n s0 T ltac:(lia) ltac:(lia) ltac:(lia))
        as Hsb.
      fold M in Hsb. rewrite Hqp in Hsb.
      replace (s0 + 1 - 1) with s0 by lia. lia. }
  assert (Hk : 1 <= ceil_sqrt n <= n).
  { unfold ceil_sqrt. fold s0.
    destruct (Z.eqb_spec (s0 * s0) n); nia. }
  unfold IEEE.ceil.
  rewrite (ceilZ_bounds m' (h - prec) e' (ceil_sqrt n));
    [|unfold K in *; lia|lia|].
  - apply to_int_of_int; lia.
  - replace (- (h - prec)) with K by (unfold K; lia). exact HW.
Qed.

End FloatFacts.

(** The column count is [ceil(sqrt(N))] for every positive [int]. *)
Lemma gridCols_exact n :
  1 <= n < 2 ^ 31 -> gridCols n = ceil_sqrt n.
Proof.
  intros Hn. unfold gridCols.
  apply (ceil_sqrt_float IEEE.prec64 IEEE.emax64); unfold IEEE.prec64, IEEE.emax64;
    simpl; lia.
Qed.

Lemma ceil_sqrt_bounds n :
  1 <= n -> 1 <= ceil_sqrt n <= n.
Proof.
  intros Hn. unfold ceil_sqrt.
  pose proof (Z.sqrt_spec n ltac:(lia)) as Hs.
  cbv zeta in Hs. unfold Z.succ in Hs.
  assert (1 <= Z.sqrt n) by (apply Z.sqrt_le_square; lia).
  destruct (Z.eqb_spec (Z.sqrt n * Z.sqrt n) n); nia.
Qed.

Lemma gridRows_exact n :
  1 <= n < 2 ^ 24 -> gridRows n = ceil_div n (gridCols n).
Proof.
  intros Hn. unfold gridRows.
  rewrite gridCols_exact by lia.
  pose proof (ceil_sqrt_bounds n ltac:(lia)).
  apply (ceil_div_float IEEE.prec32 IEEE.emax32); unfold IEEE.prec32, IEEE.emax32;
    simpl; lia.
Qed.



Lemma layout_ok_upto_4096 : forallb layout_ok (seqZ 1 4096) = true.
Proof. vm_compute. reflexivity. Qed.

(** For up to 4096 cameras the floating-point computation gives the
    layout [columns = ceil(sqrt(N))], [rows = ceil(N / columns)]. *)
Lemma grid_layout_small n :
  1 <= n <= 4096 ->
  gridCols n = ceil_sqrt n /\ gridRows n = ceil_div n (gridCols n).
Proof.
  intros Hn.
  pose proof (proj1 (forallb_forall layout_ok (seqZ 1 4096))
                layout_ok_upto_4096 n) as H.
  assert (Hin : In n (seqZ 1 4096)).
  { apply list_elem_of_In, elem_of_seqZ. lia. }
  specialize (H Hin). unfold layout_ok in H.
  apply andb_true_iff in H as [H1 H2].
  split; by apply Z.eqb_eq.
Qed.







(** ** The running system *)

Section System.
Variable numCameras : nat.

(** *** Accounting of items in the log *)

Lemma popped_partition l :
  popped_items l ≡ₚ
  frameset_items (collecting l) ++ rendered_items l ++ discarded_items l.
Proof.
  unfold rendered_items, discarded_items, frameset_items.
  induction l as [|e l IH]; [reflexivity|].
  destruct e; simpl; try exact IH.
  - rewrite fmap_app, IH. simpl. solve_Permutation.
  - csimpl. rewrite IH. solve_Permutation.
  - csimpl. rewrite IH. solve_Permutation.
Qed.

(** Replacing one queue changes the multiset of queued items only by
    that queue's contents. *)
Lemma concat_lookup_perm (qs : list SafeQueue.t) i q :
  qs !! i = Some q ->
  exists others, concat qs ≡ₚ q ++ others
                 /\ forall q', concat (<[i := q']> qs) ≡ₚ q' ++ others.
Proof.
  intros Hq. exists (concat (take i qs) ++ concat (drop (S i) qs)).
  pose proof (lookup_lt_Some _ _ _ Hq) as Hlt.
  split.
  - rewrite <- (take_drop_middle qs i q Hq) at 1.
    rewrite concat_app. simpl. solve_Permutation.
  - intros q'. rewrite insert_take_drop by assumption.
    rewrite concat_app. simpl. solve_Permutation.
Qed.

Lemma Inv_init : Inv numCameras (init numCameras).
Proof.
  constructor; simpl; try by rewrite length_replicate.
  - rewrite app_nil_r.
    induction numCameras as [|n IH]; [reflexivity|exact IH].
  - reflexivity.
  - constructor.
  - constructor.
Qed.

Lemma Inv_set_producers v st : Inv numCameras st -> Inv numCameras (set_producers v st).
Proof. intros []. by constructor. Qed.

Lemma Inv_release i r st : Inv numCameras st -> Inv numCameras (release i r st).
Proof. intros []. destruct r; by constructor. Qed.

Lemma Inv_AcquireImages_body i c st :
  Inv numCameras st -> Inv numCameras (AcquireImages_body i c st).
Proof.
  intros HI. destruct c; simpl;
    try (destruct HI; by constructor);
    try by apply Inv_release.
  destruct (frameQueues st !! i) as [q|] eqn:Hq; [|assumption].
  apply Inv_release. destruct HI as [H1 H2 H3 H4 H5 H6].
  constructor; simpl; try assumption.
  destruct (concat_lookup_perm _ _ _ Hq) as (others & Hall & Hins).
  rewrite Hins. rewrite Hall in H3. rewrite <- H3.
  unfold SafeQueue.push. solve_Permutation.
Qed.

Lemma Inv_AcquireImages_step i c st :
  Inv numCameras st -> Inv numCameras (AcquireImages_step i c st).
Proof.
  intros HI. unfold AcquireImages_step.
  destruct (producers st !! i) as [[]|]; try assumption.
  - by apply Inv_set_producers.
  - by apply Inv_set_producers, Inv_AcquireImages_body.
Qed.

Lemma Inv_DisplayFrames_step key st :
  Inv numCameras st -> Inv numCameras (DisplayFrames_step numCameras key st).
Proof.
  intros HI. unfold DisplayFrames_step.
  destruct (display st) as [|i|] eqn:Hpc; [| |assumption].
  - (* the while test *)
    destruct HI as [H1 H2 H3 H4 H5 H6]. unfold collecting_ok in H4.
    rewrite Hpc in H4.
    destruct (isRunning st) eqn:Hrun; constructor; simpl; try assumption.
    unfold collecting_ok. simpl. rewrite H4. simpl.
    repeat split; (lia || done).
  - destruct (Nat.ltb_spec i numCameras) as [Hi|Hi].
    + (* a pop of the collecting loop *)
      destruct (frameQueues st !! i) as [q|] eqn:Hq; [|assumption].
      destruct HI as [H1 H2 H3 H4 H5 H6]. unfold collecting_ok in H4.
      rewrite Hpc in H4. destruct H4 as (Hle & Hrun & Hidx & Hfr & Hts).
      destruct q as [|front rest]; simpl.
      * constructor; simpl; try assumption.
        -- unfold collecting_ok. by simpl.
        -- constructor; [|assumption]. by split.
      * constructor; simpl; try assumption.
        -- by rewrite length_insert.
        -- by rewrite length_insert.
        -- destruct (concat_lookup_perm _ _ _ Hq) as (others & Hall & Hins).
           rewrite Hins. rewrite Hall in H3. rewrite <- H3.
           solve_Permutation.
        -- unfold collecting_ok. simpl. rewrite !fmap_app. simpl.
           repeat split.
           ++ lia.
           ++ assumption.
           ++ rewrite Hidx. symmetry. exact (seq_S i 0).
           ++ rewrite (take_S_r _ _ (frame front))
                by (apply list_lookup_insert_eq; lia).
              rewrite take_insert_ge by lia. by rewrite Hfr.
           ++ rewrite (take_S_r _ _ (timestamp front))
                by (apply list_lookup_insert_eq; lia).
              rewrite take_insert_ge by lia. by rewrite Hts.
    + (* the frame set is complete: draw, show, read the key *)
      destruct HI as [H1 H2 H3 H4 H5 H6]. unfold collecting_ok in H4.
      rewrite Hpc in H4. destruct H4 as (Hle & Hrun & Hidx & Hfr & Hts).
      assert (i = numCameras) as -> by lia.
      rewrite take_ge in Hfr by lia. rewrite take_ge in Hts by lia.
      assert (Hok : frameset_ok numCameras
                (collecting (log st),
                 displayGrid numCameras
                   (draw_diffs numCameras (latestTimestamps st) (latestFrames st)))).
      { split; simpl; [assumption|]. by rewrite Hfr, Hts. }
      destruct (is_quit key); constructor; simpl; try assumption;
        try (by rewrite draw_diffs_length);
        try (by unfold collecting_ok);
        by constructor.
Qed.

Lemma Inv_step a st : Inv numCameras st -> Inv numCameras (step numCameras a st).
Proof.
  destruct a; simpl;
    [apply Inv_AcquireImages_step | apply Inv_DisplayFrames_step].
Qed.

Lemma Inv_exec sched : forall st, Inv numCameras st -> Inv numCameras (exec numCameras sched st).
Proof.
  induction sched as [|a sched IH]; intros st HI; simpl; [assumption|].
  by apply IH, Inv_step.
Qed.

Lemma Inv_reachable sched : Inv numCameras (exec numCameras sched (init numCameras)).
Proof. apply Inv_exec, Inv_init. Qed.

End System.

(** ** The stop flag *)

Section StopFlag.
Variable numCameras : nat.

Lemma release_fields i r st :
  frameQueues (release i r st) = frameQueues st
  /\ isRunning (release i r st) = isRunning st
  /\ producers (release i r st) = producers st
  /\ display (release i r st) = display st
  /\ latestFrames (release i r st) = latestFrames st
  /\ latestTimestamps (release i r st) = latestTimestamps st.
Proof. by destruct r. Qed.

Lemma AcquireImages_body_fields i c st :
  isRunning (AcquireImages_body i c st) = isRunning st
  /\ producers (AcquireImages_body i c st) = producers st
  /\ display (AcquireImages_body i c st) = display st
  /\ latestFrames (AcquireImages_body i c st) = latestFrames st
  /\ latestTimestamps (AcquireImages_body i c st) = latestTimestamps st
  /\ length (frameQueues (AcquireImages_body i c st)) = length (frameQueues st).
Proof.
  destruct c as [| | |r| |ts id r]; simpl; try done.
  - by destruct r.
  - destruct (frameQueues st !! i); [|done].
    destruct r; simpl; by rewrite length_insert.
Qed.

Lemma AcquireImages_step_fields i c st :
  isRunning (AcquireImages_step i c st) = isRunning st
  /\ display (AcquireImages_step i c st) = display st
  /\ length (frameQueues (AcquireImages_step i c st)) = length (frameQueues st)
  /\ length (producers (AcquireImages_step i c st)) = length (producers st).
Proof.
  unfold AcquireImages_step.
  destruct (producers st !! i) as [[]|]; simpl; try done.
  - by rewrite length_insert.
  - destruct (AcquireImages_body_fields i c st) as (-> & -> & -> & _ & _ & ->).
    by rewrite length_insert.
Qed.

Lemma DisplayFrames_step_fields key st :
  producers (DisplayFrames_step numCameras key st) = producers st
  /\ length (frameQueues (DisplayFrames_step numCameras key st))
     = length (frameQueues st)
  /\ (isRunning st = false ->
      isRunning (DisplayFrames_step numCameras key st) = false).
Proof.
  unfold DisplayFrames_step.
  destruct (display st) as [|i|]; [done| |done].
  destruct (i <? numCameras)%nat.
  - destruct (frameQueues st !! i) as [[|front rest]|]; simpl; try done.
    by rewrite length_insert.
  - by destruct (is_quit key).
Qed.

(** The flag never goes back to [true]. *)
Lemma isRunning_false_step a st :
  isRunning st = false -> isRunning (step numCameras a st) = false.
Proof.
  destruct a as [i c|key]; simpl.
  - by destruct (AcquireImages_step_fields i c st) as (-> & _).
  - apply DisplayFrames_step_fields.
Qed.

Lemma isRunning_false_exec sched : forall st,
  isRunning st = false -> isRunning (exec numCameras sched st) = false.
Proof.
  induction sched as [|a sched IH]; intros st H; simpl; [done|].
  by apply IH, isRunning_false_step.
Qed.

Lemma queues_length_step a st :
  length (frameQueues (step numCameras a st)) = length (frameQueues st).
Proof.
  destruct a as [i c|key]; simpl.
  - apply AcquireImages_step_fields.
  - apply DisplayFrames_step_fields.
Qed.

Lemma producers_length_step a st :
  length (producers (step numCameras a st)) = length (producers st).
Proof.
  destruct a as [i c|key]; simpl.
  - apply AcquireImages_step_fields.
  - by destruct (DisplayFrames_step_fields key st) as (-> & _).
Qed.

Lemma display_left_step key st :
  isRunning st = false ->
  (numCameras <= length (frameQueues st))%nat ->
  (display_left numCameras (display (DisplayFrames_step numCameras key st))
   <= display_left numCameras (display st) - 1)%nat.
Proof.
  intros Hstop Hlen. unfold DisplayFrames_step.
  destruct (display st) as [|i|] eqn:Hpc; simpl.
  - rewrite Hstop. simpl. lia.
  - destruct (Nat.ltb_spec i numCameras) as [Hi|Hi].
    + destruct (frameQueues st !! i) as [[|front rest]|] eqn:Hq; simpl.
      * lia.
      * lia.
      * apply lookup_ge_None in Hq. lia.
    + destruct (is_quit key); simpl; lia.
  - rewrite Hpc. simpl. lia.
Qed.

Lemma producer_left_step i c st :
  isRunning st = false ->
  (producer_left (producers (AcquireImages_step i c st) !! i)
   <= producer_left (producers st !! i) - 1)%nat.
Proof.
  intros Hstop. unfold AcquireImages_step.
  destruct (producers st !! i) as [[]|] eqn:Hp; simpl.
  - rewrite list_lookup_insert_eq by (by eapply lookup_lt_Some).
    rewrite Hstop. simpl. lia.
  - destruct (AcquireImages_body_fields i c st) as (_ & -> & _).
    rewrite list_lookup_insert_eq by (by eapply lookup_lt_Some).
    simpl. lia.
  - rewrite Hp. simpl. lia.
  - rewrite Hp. simpl. lia.
Qed.

Lemma producer_other_step i j c st :
  i <> j ->
  producers (AcquireImages_step j c st) !! i = producers st !! i.
Proof.
  intros Hne. unfold AcquireImages_step.
  destruct (producers st !! j) as [[]|] eqn:Hp; simpl; try done.
  - by rewrite list_lookup_insert_ne.
  - destruct (AcquireImages_body_fields j c st) as (_ & -> & _).
    by rewrite list_lookup_insert_ne.
Qed.

Lemma display_left_exec sched : forall st,
  isRunning st = false ->
  (numCameras <= length (frameQueues st))%nat ->
  (display_left numCameras (display (exec numCameras sched st))
   <= display_left numCameras (display st) - length (filter is_display sched))%nat.
Proof.
  induction sched as [|a sched IH]; intros st Hstop Hlen; simpl; [lia|].
  specialize (IH (step numCameras a st)
                (isRunning_false_step a st Hstop)
                ltac:(by rewrite queues_length_step)).
  destruct a as [i c|key].
  - rewrite filter_cons_False by (simpl; auto).
    simpl in *.
    by destruct (AcquireImages_step_fields i c st) as (_ & <- & _).
  - rewrite filter_cons_True by (simpl; auto).
    pose proof (display_left_step key st Hstop Hlen). simpl in *. lia.
Qed.

Lemma producer_left_exec i sched : forall st,
  isRunning st = false ->
  (producer_left (producers (exec numCameras sched st) !! i)
   <= producer_left (producers st !! i)
      - length (filter (is_producer i) sched))%nat.
Proof.
  induction sched as [|a sched IH]; intros st Hstop; simpl; [lia|].
  specialize (IH (step numCameras a st) (isRunning_false_step a st Hstop)).
  destruct a as [j c|key].
  - destruct (decide (i = j)) as [<-|Hne].
    + rewrite filter_cons_True
        by (simpl; by apply bool_decide_pack).
      pose proof (producer_left_step i c st Hstop). simpl in *. lia.
    + rewrite filter_cons_False
        by (simpl; intros H%bool_decide_unpack; congruence).
      simpl in *. by rewrite producer_other_step in IH.
  - rewrite filter_cons_False by (simpl; auto).
    simpl in *.
    by destruct (DisplayFrames_step_fields key st) as (<- & _).
Qed.

Lemma display_left_0 pc : display_left numCameras pc = 0%nat -> pc = DDone.
Proof. by destruct pc. Qed.

Lemma producer_left_0 (l : list ProducerPc) i :
  (i < length l)%nat -> producer_left (l !! i) = 0%nat -> l !! i = Some PDone.
Proof.
  intros Hi. destruct (l !! i) as [[]|] eqn:Hl; simpl; try done.
  apply lookup_ge_None in Hl. lia.
Qed.

Lemma producers_length_exec sched : forall st,
  length (producers (exec numCameras sched st)) = length (producers st).
Proof.
  induction sched as [|a sched IH]; intros st; simpl; [done|].
  by rewrite IH, producers_length_step.
Qed.

(** C7: the stop flag.  It exists, set to running, in the state in which
    the threads start, with every loop still before its first test.
    Once it is down it stays down along every interleaving.  A thread
    that tests it when it is down returns without entering the loop
    body; so the display thread has returned after at most the rest of
    its iteration and one test ([numCameras + 2] of its steps), and a
    producer after at most its current body and one test (two of its
    steps). *)
Theorem C7_stop_flag (st : State) (sched : list Action)
    (Hstop : isRunning st = false)
    (Hqueues : (numCameras <= length (frameQueues st))%nat) :
  (isRunning (init numCameras) = true
   /\ display (init numCameras) = DWhile
   /\ producers (init numCameras) = replicate numCameras PWhile)
  /\ isRunning (exec numCameras sched st) = false
  /\ (forall key, display st = DWhile ->
        display (DisplayFrames_step numCameras key st) = DDone)
  /\ (forall i c, producers st !! i = Some PWhile ->
        producers (AcquireImages_step i c st) !! i = Some PDone)
  /\ ((numCameras + 2 <= length (filter is_display sched))%nat ->
        display (exec numCameras sched st) = DDone)
  /\ (forall i, (i < length (producers st))%nat ->
        (2 <= length (filter (is_producer i) sched))%nat ->
        producers (exec numCameras sched st) !! i = Some PDone).
Proof.
  split; [done|].
  split; [by apply isRunning_false_exec|].
  split.
  { intros key Hpc. unfold DisplayFrames_step. by rewrite Hpc, Hstop. }
  split.
  { intros i c Hp. unfold AcquireImages_step. rewrite Hp, Hstop. simpl.
    apply list_lookup_insert_eq. by eapply lookup_lt_Some. }
  split.
  - intros Hn. apply display_left_0.
    pose proof (display_left_exec sched st Hstop Hqueues) as H.
    assert (display_left numCameras (display st) <= numCameras + 2)%nat
      by (destruct (display st); simpl; lia).
    lia.
  - intros i Hi Hn. apply producer_left_0.
    + by rewrite producers_length_exec.
    + pose proof (producer_left_exec i sched st Hstop) as H.
      assert (producer_left (producers st !! i) <= 2)%nat
        by (destruct (producers st !! i) as [[]|]; simpl; lia).
      lia.
Qed.

End StopFlag.

Lemma C7_stop_flag_witness :
  isRunning (exec 1 quit_run (init 1)) = false
  /\ isRunning (exec 1 after_quit (exec 1 quit_run (init 1))) = false
  /\ display (exec 1 after_quit (exec 1 quit_run (init 1))) = DDone
  /\ producers (exec 1 after_quit (exec 1 quit_run (init 1))) !! 0%nat
     = Some PDone.
Proof.
  destruct (C7_stop_flag 1 (exec 1 quit_run (init 1)) after_quit)
    as (_ & Hflag & _ & _ & Hdisplay & Hproducer).
  - reflexivity.
  - vm_compute. lia.
  - split; [reflexivity|]. split; [exact Hflag|]. split.
    + apply Hdisplay. vm_compute. lia.
    + apply Hproducer; vm_compute; lia.
Defined.

(** ** Transient capture errors *)

(** C8 as stated fails for an incomplete capture: the iteration releases
    the image and goes back to the loop test without writing a line to
    the log output. *)
Lemma C8_incomplete_not_logged :
  producers in_body !! 0%nat = Some PBody
  /\ filter is_cout (log in_body) = []
  /\ filter is_cout
       (log (AcquireImages_step 0 (CaptureIncomplete None) in_body)) = []
  /\ log (AcquireImages_step 0 (CaptureIncomplete None) in_body)
     = [EvRelease 0].
Proof. by vm_compute. Qed.

Lemma AcquireImages_step_in_body i c st :
  producers st !! i = Some PBody ->
  AcquireImages_step i c st
  = set_producers
      (<[i := PWhile]> (producers (AcquireImages_body i c st)))
      (AcquireImages_body i c st).
Proof. intros H. unfold AcquireImages_step. by rewrite H. Qed.

Lemma transient_body i c st :
  is_transient c = true ->
  AcquireImages_body i c st = emit (transient_event i c) st.
Proof. by destruct c as [?|?|?|[?|]|?|? ? ?]. Qed.

(** C8, amended.  An iteration that meets a timeout, an incomplete
    image or a driver exception goes back to the loop test, from where
    the next iteration starts while the flag is up; it touches neither
    the flag, the other producers and queues, nor the display thread.
    A timeout and every driver exception write one
    "Camera i Error: ..." line.  An incomplete image is released
    without a line, unless the release itself raises, which writes the
    line.  Nothing is enqueued, except when the exception comes from
    the release of a complete image: its frame was pushed before. *)
Theorem C8_transient_capture (i : nat) (c c' : Capture) (st : State)
    (Hbody : producers st !! i = Some PBody)
    (Hqueue : (i < length (frameQueues st))%nat)
    (Hfails : capture_fails c = true) :
  let st' := AcquireImages_step i c st in
  match c with
  | CaptureIncomplete None =>
      log st' = EvRelease i :: log st
      /\ filter is_cout (log st') = filter is_cout (log st)
      /\ frameQueues st' = frameQueues st
  | CaptureOk ts id r =>
      let item := mkFrameData (frameCopy ts id) ts (Z.of_nat i) in
      exists what q,
        r = Some what
        /\ frameQueues st !! i = Some q
        /\ log st'
           = EvCout (camera_error_line i what) :: EvPush i item :: log st
        /\ filter is_cout (log st')
           = EvCout (camera_error_line i what) :: filter is_cout (log st)
        /\ frameQueues st' = <[i := q ++ [item]]> (frameQueues st)
  | TriggerThrows what | CaptureTimeout what | CaptureThrows what
  | ConvertThrows what | CaptureIncomplete (Some what) =>
      log st' = EvCout (camera_error_line i what) :: log st
      /\ filter is_cout (log st')
         = EvCout (camera_error_line i what) :: filter is_cout (log st)
      /\ frameQueues st' = frameQueues st
  end
  /\ (forall j, j <> i -> frameQueues st' !! j = frameQueues st !! j)
  /\ producers st' = <[i := PWhile]> (producers st)
  /\ (forall j, j <> i -> producers st' !! j = producers st !! j)
  /\ isRunning st' = isRunning st
  /\ display st' = display st
  /\ latestFrames st' = latestFrames st
  /\ latestTimestamps st' = latestTimestamps st
  /\ (isRunning st = true ->
      producers (AcquireImages_step i c' st') !! i = Some PBody).
Proof.
  pose proof (lookup_lt_Some _ _ _ Hbody) as Hlt.
  destruct (lookup_lt_is_Some_2 _ _ Hqueue) as [q Hq].
  intros st'.
  assert (Hst' : st' = set_producers
                         (<[i := PWhile]> (producers (AcquireImages_body i c st)))
                         (AcquireImages_body i c st)).
  { unfold st'. by rewrite (AcquireImages_step_in_body _ _ _ Hbody). }
  assert (Hnext : forall st1,
    producers st1 = producers st -> isRunning st1 = isRunning st ->
    isRunning st = true ->
    producers (AcquireImages_step i c'
                 (set_producers (<[i := PWhile]> (producers st1)) st1)) !! i
    = Some PBody).
  { intros st1 Hp Hr Hrun. unfold AcquireImages_step. simpl.
    rewrite Hp, Hr, list_lookup_insert_eq by assumption.
    rewrite Hrun. apply list_lookup_insert_eq. by rewrite length_insert. }
  clearbody st'. subst st'.
  destruct c as [what|what|what|[what|]|what|ts id [what|]];
    try discriminate Hfails; cbn [AcquireImages_body release].
  7:{ rewrite Hq. cbn.
      split; [exists what, q; by repeat split|].
      split; [intros j Hj; by apply list_lookup_insert_ne|].
      split; [done|].
      split; [intros j Hj; by apply list_lookup_insert_ne|].
      do 4 (split; [done|]).
      intros Hrun.
      match goal with
      | |- producers (AcquireImages_step i c' (set_producers _ ?s)) !! i = _ =>
          apply (Hnext s); [reflexivity|reflexivity|exact Hrun]
      end. }
  all: cbn; split; [by repeat split|];
    split; [done|]; split; [done|];
    split; [intros j Hj; by apply list_lookup_insert_ne|];
    do 4 (split; [done|]);
    intros Hrun;
    match goal with
    | H : forall st1, _ |- producers (AcquireImages_step _ _ (set_producers _ ?s)) !! _ = _ =>
        apply (H s); [reflexivity|reflexivity|exact Hrun]
    end.
Qed.

Lemma C8_transient_capture_witness :
  producers in_body !! 0%nat = Some PBody
  /\ log (AcquireImages_step 0 (CaptureTimeout "timeout") in_body)
     = EvCout (camera_error_line 0 "timeout") :: log in_body
  /\ frameQueues (AcquireImages_step 0 (CaptureTimeout "timeout") in_body)
     = frameQueues in_body.
Proof.
  destruct (C8_transient_capture 0 (CaptureTimeout "timeout")
              (CaptureTimeout "timeout") in_body)
    as ((Hlog & _ & Hq) & _).
  - reflexivity.
  - vm_compute. lia.
  - reflexivity.
  - split; [reflexivity|]. split; [exact Hlog|exact Hq].
Defined.

(** ** Collection cycles *)

Section Cycles.
Variable numCameras : nat.

Lemma exec_app s1 s2 : forall st,
  exec numCameras (s1 ++ s2) st = exec numCameras s2 (exec numCameras s1 st).
Proof. induction s1 as [|a s1 IH]; intros st; simpl; [done|apply IH]. Qed.

(** The log only grows. *)
Lemma log_step a st : exists l, log (step numCameras a st) = l ++ log st.
Proof.
  destruct a as [i c|key]; simpl.
  - unfold AcquireImages_step.
    destruct (producers st !! i) as [[]|]; simpl; try by exists [].
    destruct c as [?|?|?|[?|]|?|? ? r]; simpl;
      try (by eexists [_]); try by exists [].
    destruct (frameQueues st !! i); [|by exists []].
    destruct r; simpl; by eexists [_; _].
  - unfold DisplayFrames_step.
    destruct (display st) as [|i|]; simpl; try by exists [].
    destruct (i <? numCameras)%nat.
    + destruct (frameQueues st !! i) as [[|front rest]|]; simpl;
        [by eexists [_; _] | by eexists [_] | by exists []].
    + destruct (is_quit key); simpl; by eexists [_].
Qed.

Lemma log_exec sched : forall st,
  exists l, log (exec numCameras sched st) = l ++ log st.
Proof.
  induction sched as [|a sched IH]; intros st; simpl; [by exists []|].
  destruct (IH (step numCameras a st)) as [l1 H1].
  destruct (log_step a st) as [l2 H2].
  exists (l1 ++ l2). by rewrite H1, H2, app_assoc.
Qed.

Lemma abandoned_app l l0 :
  exists a, abandoned (l ++ l0) = a ++ abandoned l0.
Proof.
  induction l as [|e l [a IH]]; [by exists []|].
  destruct e; simpl; try by exists a.
  eexists (_ :: a). by rewrite IH.
Qed.

Lemma discarded_app l l0 :
  exists d, discarded_items (l ++ l0) = d ++ discarded_items l0.
Proof.
  unfold discarded_items. destruct (abandoned_app l l0) as [a ->].
  eexists. by rewrite fmap_app, concat_app.
Qed.

Lemma pushed_app l l0 :
  pushed_items (l ++ l0) = pushed_items l ++ pushed_items l0.
Proof.
  induction l as [|e l IH]; [done|]. destruct e; simpl; by rewrite ?IH.
Qed.

(** With pairwise distinct pushed items, every item is in exactly one
    place: still queued, in the FrameSet being collected, in a rendered
    FrameSet, or discarded. *)
Lemma items_NoDup st :
  Inv numCameras st ->
  NoDup (pushed_items (log st)) ->
  NoDup (concat (frameQueues st)
         ++ frameset_items (collecting (log st))
         ++ rendered_items (log st) ++ discarded_items (log st)).
Proof.
  intros HI Hnd. rewrite <- popped_partition.
  by rewrite (inv_items _ _ HI).
Qed.

(** A pop of the collecting loop that finds its queue empty. *)
Lemma DisplayFrames_step_empty key st i :
  display st = DFor i -> (i < numCameras)%nat ->
  frameQueues st !! i = Some [] ->
  DisplayFrames_step numCameras key st
  = set_display DWhile (emit (EvSleep 1) (emit (EvPopEmpty i) st)).
Proof.
  intros Hpc Hi Hq. unfold DisplayFrames_step. rewrite Hpc. cbn beta iota.
  destruct (Nat.ltb_spec i numCameras); [|lia]. by rewrite Hq.
Qed.

(** A pop of the collecting loop that finds an item. *)
Lemma DisplayFrames_step_pop key st i front rest :
  display st = DFor i -> (i < numCameras)%nat ->
  frameQueues st !! i = Some (front :: rest) ->
  DisplayFrames_step numCameras key st
  = set_display (DFor (S i))
      (emit (EvPop i front)
         (set_latestTimestamps (<[i := timestamp front]> (latestTimestamps st))
            (set_latestFrames (<[i := frame front]> (latestFrames st))
               (set_frameQueues (<[i := rest]> (frameQueues st)) st)))).
Proof.
  intros Hpc Hi Hq. unfold DisplayFrames_step. rewrite Hpc. cbn beta iota.
  destruct (Nat.ltb_spec i numCameras); [|lia]. by rewrite Hq.
Qed.

(** The display thread never waits at a pop: with the queue empty it
    goes back to the loop test, otherwise on to the next queue. *)
Lemma DisplayFrames_step_progress key st i q :
  display st = DFor i -> (i < numCameras)%nat ->
  frameQueues st !! i = Some q ->
  display (DisplayFrames_step numCameras key st)
  = if SafeQueue.empty q then DWhile else DFor (S i).
Proof.
  intros Hpc Hi Hq. destruct q as [|front rest].
  - by rewrite (DisplayFrames_step_empty key st i Hpc Hi Hq).
  - by rewrite (DisplayFrames_step_pop key st i front rest Hpc Hi Hq).
Qed.

(** C1: an attempt whose pop on queue [i] finds the queue empty is
    abandoned at once: the step logs the failed pop and the 1 ms sleep,
    pops nothing more, shows no composite, and goes back to the loop
    test, from where the next attempt starts at queue 0.  The items
    popped earlier in the attempt came from queues [0..i-1]; they are
    recorded as discarded and, in every later state of every
    interleaving (pushed items being pairwise distinct), they are in no
    queue, in no rendered FrameSet, and not in the FrameSet being
    collected. *)
Theorem C1_abandoned_attempt (sched : list Action) (i : nat) (key key' : Z) :
  let st := exec numCameras sched (init numCameras) in
  display st = DFor i -> (i < numCameras)%nat ->
  frameQueues st !! i = Some [] ->
  let st' := DisplayFrames_step numCameras key st in
  log st' = EvSleep 1 :: EvPopEmpty i :: log st
  /\ frameQueues st' = frameQueues st
  /\ completed (log st') = completed (log st)
  /\ abandoned (log st') = (i, collecting (log st)) :: abandoned (log st)
  /\ (collecting (log st)).*1 = seq 0 i
  /\ display st' = DWhile
  /\ display (DisplayFrames_step numCameras key' st') = DFor 0
  /\ forall later : list Action,
       let st'' := exec numCameras later st' in
       NoDup (pushed_items (log st'')) ->
       forall x, x ∈ frameset_items (collecting (log st)) ->
         (x ∉ concat (frameQueues st''))
         /\ (x ∉ rendered_items (log st''))
         /\ (x ∉ frameset_items (collecting (log st''))).
Proof.
  intros st Hpc Hi Hq st'.
  pose proof (Inv_reachable numCameras sched) as HI. fold st in HI.
  pose proof (inv_collecting _ _ HI) as Hc. unfold collecting_ok in Hc.
  rewrite Hpc in Hc. destruct Hc as (_ & Hrun & Hidx & _ & _).
  assert (Hst' : st' = set_display DWhile
                         (emit (EvSleep 1) (emit (EvPopEmpty i) st)))
    by (by apply DisplayFrames_step_empty).
  do 6 (split; [by rewrite ?Hst'|]).
  split.
  - rewrite Hst'. unfold DisplayFrames_step. simpl. by rewrite Hrun.
  - (* no later state holds a discarded item *)
    intros later st'' Hnd x Hx.
    assert (HI'' : Inv numCameras st'').
    { unfold st'', st'. replace (DisplayFrames_step numCameras key st)
        with (step numCameras (ActDisplay key) st) by done.
      by apply Inv_exec, Inv_step. }
    pose proof (items_NoDup st'' HI'' Hnd) as Hall.
    assert (Hd : x ∈ discarded_items (log st'')).
    { destruct (log_exec later st') as [l Hl]. fold st'' in Hl.
      rewrite Hl. destruct (discarded_app l (log st')) as [d ->].
      apply elem_of_app. right. rewrite Hst'. unfold discarded_items.
      simpl. apply elem_of_app. by left. }
    apply NoDup_app in Hall as (_ & Hq1 & Hall).
    apply NoDup_app in Hall as (_ & Hq2 & Hall).
    apply NoDup_app in Hall as (_ & Hq3 & _).
    repeat split.
    + intros Hin. apply (Hq1 x Hin).
      apply elem_of_app. right. apply elem_of_app. by right.
    + intros Hin. by apply (Hq3 x Hin).
    + intros Hin. apply (Hq2 x Hin). apply elem_of_app. by right.
Qed.

(** C2: in every reachable state, each completed cycle rendered the
    composite of exactly one item from each of the queues
    [0..numCameras-1], popped in that attempt, in queue order; a
    successful pop removes the front item from its queue; and, pushed
    items being pairwise distinct, no item is popped twice, none stays
    queued after its pop, and none is in two rendered FrameSets. *)
Theorem C2_complete_cycle (sched : list Action) :
  (1 <= numCameras)%nat ->
  let st := exec numCameras sched (init numCameras) in
  NoDup (pushed_items (log st)) ->
  Forall (fun c =>
            c.1.*1 = seq 0 numCameras
            /\ length (frameset_items c.1) = numCameras
            /\ c.2 = displayGrid numCameras
                       (draw_diffs numCameras
                          (timestamp <$> frameset_items c.1)
                          (frame <$> frameset_items c.1)))
         (completed (log st))
  /\ popped_items (log st) ≡ₚ
       frameset_items (collecting (log st))
       ++ rendered_items (log st) ++ discarded_items (log st)
  /\ NoDup (concat (frameQueues st) ++ popped_items (log st))
  /\ NoDup (rendered_items (log st))
  /\ (forall key i front rest,
        display st = DFor i -> (i < numCameras)%nat ->
        frameQueues st !! i = Some (front :: rest) ->
        frameQueues (DisplayFrames_step numCameras key st)
        = <[i := rest]> (frameQueues st)
        /\ log (DisplayFrames_step numCameras key st)
           = EvPop i front :: log st).
Proof.
  intros Hn st Hnd.
  pose proof (Inv_reachable numCameras sched) as HI. fold st in HI.
  split.
  { eapply Forall_impl; [exact (inv_completed _ _ HI)|].
    intros [fs img] [Hidx Himg]. simpl in *. repeat split; try done.
    unfold frameset_items. rewrite length_fmap.
    rewrite <- (length_fmap fst fs), Hidx. apply length_seq. }
  split; [apply popped_partition|].
  split; [by rewrite (inv_items _ _ HI)|].
  split.
  { pose proof (items_NoDup st HI Hnd) as Hall.
    apply NoDup_app in Hall as (_ & _ & Hall).
    apply NoDup_app in Hall as (_ & _ & Hall).
    by apply NoDup_app in Hall as (Hall & _). }
  intros key i front rest Hpc Hi Hq.
  by rewrite (DisplayFrames_step_pop key st i front rest Hpc Hi Hq).
Qed.

End Cycles.

Lemma C1_abandoned_attempt_witness :
  display (exec 2 starved_run (init 2)) = DFor 1
  /\ frameQueues (exec 2 starved_run (init 2)) !! 1%nat = Some []
  /\ abandoned (log (DisplayFrames_step 2 (-1) (exec 2 starved_run (init 2))))
     = [(1%nat, [(0%nat, mkFrameData (frameCopy 100 1) 100 0)])]
  /\ display (DisplayFrames_step 2 (-1) (exec 2 starved_run (init 2))) = DWhile.
Proof.
  destruct (C1_abandoned_attempt 2 starved_run 1 (-1) (-1))
    as (_ & _ & _ & Hab & _ & Hpc & _).
  - reflexivity.
  - lia.
  - reflexivity.
  - split; [reflexivity|]. split; [reflexivity|].
    split; [exact Hab|exact Hpc].
Defined.

Lemma scenario_pushes_distinct :
  NoDup (pushed_items (log (exec 2 scenario (init 2)))).
Proof.
  apply (NoDup_fmap_1 timestamp).
  apply (bool_decide_unpack _). vm_compute. exact I.
Defined.

Lemma C2_complete_cycle_witness :
  NoDup (pushed_items (log (exec 2 scenario (init 2))))
  /\ NoDup (rendered_items (log (exec 2 scenario (init 2))))
  /\ length (completed (log (exec 2 scenario (init 2)))) = 3%nat.
Proof.
  destruct (C2_complete_cycle 2 scenario) as (_ & _ & _ & Hnd & _).
  - lia.
  - exact scenario_pushes_distinct.
  - split; [exact scenario_pushes_distinct|]. split; [exact Hnd|reflexivity].
Defined.

(** ** The timestamp diagnostic *)

Lemma string_app_length (s t : string) :
  String.length (s +:+ t) = (String.length s + String.length t)%nat.
Proof. induction s as [|a s IH]; simpl; [done|by rewrite IH]. Qed.

Lemma string_app_inv_tail (s1 s2 t : string) :
  s1 +:+ t = s2 +:+ t -> s1 = s2.
Proof.
  revert s2. induction s1 as [|a s1 IH]; intros [|b s2] H; simpl in H.
  - done.
  - apply (f_equal String.length) in H. simpl in H.
    rewrite !string_app_length in H. simpl in H. lia.
  - apply (f_equal String.length) in H. simpl in H.
    rewrite !string_app_length in H. simpl in H. lia.
  - injection H as -> H. f_equal. by apply IH.
Qed.

(** The line drawn determines the difference it reports. *)
Lemma diff_line_inj d1 d2 : diff_line d1 = diff_line d2 -> d1 = d2.
Proof.
  unfold diff_line. intros H.
  apply (inj (String.app "Diff with Cam0: ")) in H.
  apply string_app_inv_tail in H.
  by apply (inj pretty) in H.
Qed.

Lemma lookup_total_fmap_Some {A B} `{!Inhabited B} (f : A -> B)
    (l : list A) i x :
  l !! i = Some x -> (f <$> l) !!! i = f x.
Proof.
  intros H. apply list_lookup_total_correct.
  by rewrite list_lookup_fmap, H.
Qed.

(** What a completed cycle shows, in terms of the items it popped. *)
Lemma completed_cycle_diffs numCameras (c : list (nat * FrameData) * Mat) :
  frameset_ok numCameras c ->
  exists shown : list Mat,
    c.2 = displayGrid numCameras shown
    /\ length (frameset_items c.1) = numCameras
    /\ length shown = numCameras
    /\ (forall x0, frameset_items c.1 !! 0%nat = Some x0 ->
        shown !! 0%nat = Some (frame x0))
    /\ (forall i x0 xi,
        (1 <= i < numCameras)%nat ->
        frameset_items c.1 !! 0%nat = Some x0 ->
        frameset_items c.1 !! i = Some xi ->
        let d := to_int64 (uint64_sub (timestamp xi) (timestamp x0)) in
        shown !! i = Some (putText (frame xi) (diff_line d) 10 60)
        /\ overlays (mat_data (shown !!! i))
           = (diff_line d, 10, 60) :: overlays (mat_data (frame xi))).
Proof.
  intros [Hidx Himg]. unfold frameset_items.
  assert (Hlen : length (c.1.*2) = numCameras).
  { rewrite length_fmap, <- (length_fmap fst), Hidx. apply length_seq. }
  exists (draw_diffs numCameras (timestamp <$> c.1.*2) (frame <$> c.1.*2)).
  split; [exact Himg|]. split; [exact Hlen|].
  split; [by rewrite draw_diffs_length, length_fmap|].
  split.
  - intros x0 H0.
    rewrite draw_diffs_lookup by (by rewrite length_fmap).
    rewrite bool_decide_eq_false_2 by lia.
    by rewrite list_lookup_fmap, H0.
  - intros i x0 xi Hi H0 Hxi.
    set (d := to_int64 (uint64_sub (timestamp xi) (timestamp x0))).
    assert (Hshown :
      draw_diffs numCameras (timestamp <$> c.1.*2) (frame <$> c.1.*2) !! i
      = Some (putText (frame xi) (diff_line d) 10 60)).
    { rewrite draw_diffs_lookup by (by rewrite length_fmap).
      rewrite bool_decide_eq_true_2 by lia.
      rewrite (lookup_total_fmap_Some frame _ _ _ Hxi).
      rewrite (lookup_total_fmap_Some timestamp _ _ _ Hxi).
      by rewrite (lookup_total_fmap_Some timestamp _ _ _ H0). }
    split; [exact Hshown|].
    by rewrite (list_lookup_total_correct _ _ _ Hshown).
Qed.

(** C9: in every completed cycle of every run, the frame shown for
    source [i > 0] is the popped frame of source [i] with one more text
    overlay, at (10, 60): the line "Diff with Cam0: d ns", where [d] is
    the unsigned 64-bit difference of the timestamps of the items
    popped from queues [i] and 0 in that cycle, read back as a signed
    64-bit number.  [d] is the exact difference whenever that fits, the
    line determines [d], and the frame of source 0 is shown as popped.
    In the scenario 100/200/300 against 150/250/350 the three cycles
    each show the difference 50. *)
Theorem C9_timestamp_diff (numCameras : nat) (sched : list Action)
    (ts : list Z) (frames : list Mat) (i : nat) :
  (2 <= numCameras)%nat -> length frames = numCameras ->
  (1 <= i < numCameras)%nat ->
  draw_diffs numCameras ts frames !! i
  = Some (putText (frames !!! i)
            (diff_line (to_int64 (uint64_sub (ts !!! i) (ts !!! 0%nat))))
            10 60)
  /\ overlays (mat_data (draw_diffs numCameras ts frames !!! i))
     = (diff_line (to_int64 (uint64_sub (ts !!! i) (ts !!! 0%nat))), 10, 60)
         :: overlays (mat_data (frames !!! i))
  /\ (forall d1 d2, diff_line d1 = diff_line d2 -> d1 = d2)
  /\ draw_diffs numCameras ts frames !! 0%nat = frames !! 0%nat
  /\ (- 2 ^ 63 <= ts !!! i - ts !!! 0%nat < 2 ^ 63 ->
      to_int64 (uint64_sub (ts !!! i) (ts !!! 0%nat))
      = ts !!! i - ts !!! 0%nat)
  /\ Forall (fun c =>
               c.2 = displayGrid numCameras
                       (draw_diffs numCameras
                          (timestamp <$> frameset_items c.1)
                          (frame <$> frameset_items c.1)))
            (completed (log (exec numCameras sched (init numCameras))))
  /\ Forall (fun c =>
       exists shown : list Mat,
         c.2 = displayGrid numCameras shown
         /\ length (frameset_items c.1) = numCameras
         /\ length shown = numCameras
         /\ (forall x0, frameset_items c.1 !! 0%nat = Some x0 ->
             shown !! 0%nat = Some (frame x0))
         /\ (forall j x0 xj,
             (1 <= j < numCameras)%nat ->
             frameset_items c.1 !! 0%nat = Some x0 ->
             frameset_items c.1 !! j = Some xj ->
             let d := to_int64 (uint64_sub (timestamp xj) (timestamp x0)) in
             shown !! j = Some (putText (frame xj) (diff_line d) 10 60)
             /\ overlays (mat_data (shown !!! j))
                = (diff_line d, 10, 60) :: overlays (mat_data (frame xj))))
       (completed (log (exec numCameras sched (init numCameras))))
  /\ frameset_diffs <$> (completed (log (exec 2 scenario (init 2)))).*1
     = [[50]; [50]; [50]]
  /\ (completed (log (exec 2 scenario (init 2)))).*2
     = [displayGrid 2 [frameCopy 300 5;
                       putText (frameCopy 350 6) "Diff with Cam0: 50 ns" 10 60];
        displayGrid 2 [frameCopy 200 3;
                       putText (frameCopy 250 4) "Diff with Cam0: 50 ns" 10 60];
        displayGrid 2 [frameCopy 100 1;
                       putText (frameCopy 150 2) "Diff with Cam0: 50 ns" 10 60]]
  /\ overlays (mat_data (putText (frameCopy 350 6) (diff_line 50) 10 60))
     = [("Diff with Cam0: 50 ns", 10, 60); ("Timestamp: 350 ns", 10, 30)]
  /\ diff_line (to_int64 (uint64_sub 100 150)) = "Diff with Cam0: -50 ns".
Proof.
  intros Hn Hlen Hi.
  assert (Hshown :
    draw_diffs numCameras ts frames !! i
    = Some (putText (frames !!! i)
              (diff_line (to_int64 (uint64_sub (ts !!! i) (ts !!! 0%nat))))
              10 60)).
  { rewrite draw_diffs_lookup by assumption.
    by rewrite bool_decide_eq_true_2 by lia. }
  split; [exact Hshown|].
  split; [by rewrite (list_lookup_total_correct _ _ _ Hshown)|].
  split; [exact diff_line_inj|].
  split.
  { rewrite draw_diffs_lookup by assumption.
    by rewrite bool_decide_eq_false_2 by lia. }
  split; [apply to_int64_uint64_sub|].
  split.
  { eapply Forall_impl; [exact (inv_completed _ _ (Inv_reachable numCameras sched))|].
    by intros c [_ Himg]. }
  split.
  { eapply Forall_impl; [exact (inv_completed _ _ (Inv_reachable numCameras sched))|].
    intros c Hc. exact (completed_cycle_diffs numCameras c Hc). }
  repeat split; by vm_compute.
Qed.

Lemma C9_timestamp_diff_witness :
  draw_diffs 2 [100; 150] [frameCopy 100 1; frameCopy 150 2] !! 1%nat
  = Some (putText (frameCopy 150 2) "Diff with Cam0: 50 ns" 10 60)
  /\ overlays (mat_data
       (draw_diffs 2 [100; 150] [frameCopy 100 1; frameCopy 150 2] !!! 1%nat))
     = [("Diff with Cam0: 50 ns", 10, 60); ("Timestamp: 150 ns", 10, 30)].
Proof.
  destruct (C9_timestamp_diff 2 [] [100; 150]
              [frameCopy 100 1; frameCopy 150 2] 1) as (H & Ho & _).
  - lia.
  - reflexivity.
  - lia.
  - split; [exact H|exact Ho].
Defined.

(** ** Lifecycle *)

Section LifecycleFacts.
Import Lifecycle LifecycleNotions.

(** An exception raised while the cameras are set up ends
    [RunMultipleCameras] with -1 right after the error line. *)
Lemma RunMultipleCameras_raise camList sched tr what tr' :
  init_cameras 0 camList 0 (tr ++ (LQueueCreate <$> seq 0 (length camList)))
  = (Raise what, tr') ->
  RunMultipleCameras camList sched tr
  = (Ok (-1), tr' ++ [LCout ("Error: " +:+ what)]).
Proof.
  intros H. unfold RunMultipleCameras, mbind, M_bind, bind, try_catch.
  unfold emplace_queues. by rewrite H.
Qed.

Lemma bind_eq {A B} (m : M A) (k : A -> M B) tr :
  (m ≫= k) tr
  = match m tr with
    | (Ok a, tr') => k a tr'
    | (Raise what, tr') => (Raise what, tr')
    | (Blocked, tr') => (Blocked, tr')
    end.
Proof. reflexivity. Qed.

(** [ConfigureTrigger] catches every driver exception: it returns 0 or
    -1 and only prints.  It returns 0 exactly when the last line it
    printed is the success line, which needs a readable [TriggerMode]
    node; otherwise the last line is the abort message or an
    "Error: ..." line. *)
Lemma ConfigureTrigger_spec nm :
  exists r out,
    (forall tr, ConfigureTrigger nm tr = (Ok r, tr ++ out))
    /\ Forall (fun e => is_lcout e = true) out
    /\ (r = 0 <-> last out = Some configured_line)
    /\ (r = 0 /\ triggerModeReadable nm = true
        \/ r = -1 /\ (last out = Some unable_line
                      \/ exists what, last out = Some (LCout ("Error: " +:+ what)))).
Proof.
  destruct nm as [tw mr sw srw [[s what]|]];
    destruct tw, mr, sw, srw; try destruct s;
    (eexists _, _; split;
     [ intros tr;
       unfold ConfigureTrigger, mbind, M_bind, bind, try_catch, call,
         driver, when, ret, stage_fault; simpl;
       rewrite <- ?app_assoc; simpl; reflexivity
     | split; [repeat constructor|];
       split; [split; [intros; try reflexivity; discriminate
                      | intros; try reflexivity; discriminate]|];
       first [ left; split; reflexivity
             | right; split; [reflexivity|]; left; reflexivity
             | right; split; [reflexivity|]; right; eexists; reflexivity ] ]).
Qed.

Lemma ConfigureTrigger_code nm :
  exists out,
    (forall tr, ConfigureTrigger nm tr = (Ok (trigger_code nm), tr ++ out))
    /\ Forall (fun e => is_lcout e = true) out
    /\ (trigger_code nm = 0 \/ trigger_code nm = -1)
    /\ (triggerModeReadable nm = false -> trigger_code nm = -1).
Proof.
  destruct (ConfigureTrigger_spec nm) as (r & out & Hrun & Hout & _ & Hr).
  assert (Hcode : trigger_code nm = r).
  { unfold trigger_code. by rewrite (Hrun []). }
  exists out. rewrite Hcode. repeat split; try done.
  - destruct Hr as [[-> _]|[-> _]]; auto.
  - intros Hmr. destruct Hr as [[_ Hr]|[-> _]]; [congruence|done].
Qed.

Lemma Forall_setup_of_lcout out :
  Forall (fun e => is_lcout e = true) out ->
  Forall (fun e => is_setup_event e = true) out.
Proof. intros H. eapply Forall_impl; [exact H|]. by intros []. Qed.

(** The setup loop: it stops at the first camera whose [Init], mode
    setting or [BeginAcquisition] raises; if none does, it ends with
    [result] the bitwise or of the [ConfigureTrigger] results. *)
Lemma init_cameras_spec camList : forall i result tr,
  exists res out,
    init_cameras i camList result tr = (res, tr ++ out)
    /\ Forall (fun e => is_setup_event e = true) out
    /\ match res with
       | Ok r =>
           existsb setup_raises camList = false
           /\ r = foldl (fun acc cam => Z.lor acc (trigger_code (nodeMap cam)))
                    result camList
       | Raise _ => existsb setup_raises camList = true
       | Blocked => False
       end.
Proof.
  induction camList as [|cam rest IH]; intros i result tr.
  - exists (Ok result), []. simpl. rewrite app_nil_r. by repeat split.
  - cbn [init_cameras existsb foldl].
    unfold mbind, M_bind, bind, driver, when, ret.
    destruct (ConfigureTrigger_code (nodeMap cam)) as (out1 & Hrun & Hout1 & _).
    assert (Hs1 : Forall (fun e => is_setup_event e = true) ([LInit i] ++ out1)).
    { apply Forall_app. split; [by repeat constructor|].
      by apply Forall_setup_of_lcout. }
    destruct (initFault cam) as [what|] eqn:Hinit.
    { exists (Raise what), []. rewrite app_nil_r. repeat split; try done.
      unfold setup_raises. by rewrite Hinit. }
    rewrite Hrun.
    assert (Hnext : forall tr1,
      exists res out,
        init_cameras (S i) rest (Z.lor result (trigger_code (nodeMap cam)))
          (tr1 ++ [LBeginAcquisition i]) = (res, tr1 ++ out)
        /\ Forall (fun e => is_setup_event e = true) out
        /\ match res with
           | Ok r =>
               existsb setup_raises rest = false
               /\ r = foldl (fun acc cam => Z.lor acc (trigger_code (nodeMap cam)))
                        (Z.lor result (trigger_code (nodeMap cam))) rest
           | Raise _ => existsb setup_raises rest = true
           | Blocked => False
           end).
    { intros tr1.
      destruct (IH (S i) (Z.lor result (trigger_code (nodeMap cam)))
                  (tr1 ++ [LBeginAcquisition i])) as (res & out2 & Hr & Ho & Hm).
      exists res, ([LBeginAcquisition i] ++ out2).
      split; [by rewrite Hr, <- app_assoc|].
      split; [|done]. apply Forall_app. split; [by repeat constructor|done]. }
    destruct (acquisitionModeWritable cam) eqn:Hw;
      [destruct (acquisitionModeFault cam) as [what|] eqn:Hacq|].
    + exists (Raise what), ([LInit i] ++ out1). rewrite <- app_assoc.
      repeat split; try done.
      unfold setup_raises. by rewrite Hinit, Hw, Hacq.
    + rewrite app_nil_r.
      destruct (beginFault cam) as [what|] eqn:Hbegin.
      * exists (Raise what), ([LInit i] ++ out1). rewrite <- app_assoc.
        repeat split; try done.
        unfold setup_raises. by rewrite Hinit, Hw, Hacq, Hbegin.
      * assert (Hsr : setup_raises cam = false)
          by (unfold setup_raises; by rewrite Hinit, Hw, Hacq, Hbegin).
        rewrite Hsr. cbn [orb].
        destruct (Hnext ((tr ++ [LInit i]) ++ out1)) as (res & out2 & Hr & Ho & Hm).
        exists res, (([LInit i] ++ out1) ++ out2).
        split; [by rewrite Hr, <- !app_assoc|].
        split; [|done]. by apply Forall_app.
    + destruct (beginFault cam) as [what|] eqn:Hbegin.
      * exists (Raise what), ([LInit i] ++ out1). rewrite <- app_assoc.
        repeat split; try done.
        unfold setup_raises. by rewrite Hinit, Hw, Hbegin.
      * assert (Hsr : setup_raises cam = false)
          by (unfold setup_raises; by rewrite Hinit, Hw, Hbegin).
        rewrite Hsr. cbn [orb].
        destruct (Hnext ((tr ++ [LInit i]) ++ out1)) as (res & out2 & Hr & Ho & Hm).
        exists res, (([LInit i] ++ out1) ++ out2).
        split; [by rewrite Hr, <- !app_assoc|].
        split; [|done]. by apply Forall_app.
Qed.

Lemma cleanup_cameras_spec camList : forall i tr,
  exists res out,
    cleanup_cameras i camList tr = (res, tr ++ out)
    /\ Forall (fun e => is_teardown e = true) out
    /\ match res with
       | Ok _ =>
           existsb cleanup_raises camList = false
           /\ out = teardown_calls i (length camList)
       | Raise _ => existsb cleanup_raises camList = true
       | Blocked => False
       end.
Proof.
  induction camList as [|cam rest IH]; intros i tr.
  - exists (Ok tt), []. simpl. rewrite app_nil_r. by repeat split.
  - cbn [cleanup_cameras existsb length teardown_calls].
    unfold mbind, M_bind, bind, driver.
    destruct (endFault cam) as [what|] eqn:Hend.
    { exists (Raise what), []. rewrite app_nil_r. repeat split; try done.
      unfold cleanup_raises. by rewrite Hend. }
    destruct (deinitFault cam) as [what|] eqn:Hde.
    { exists (Raise what), [LEndAcquisition i]. repeat split; try done.
      - by repeat constructor.
      - unfold cleanup_raises. by rewrite Hend, Hde. }
    assert (Hcr : cleanup_raises cam = false)
      by (unfold cleanup_raises; by rewrite Hend, Hde).
    rewrite Hcr. cbn [orb].
    destruct (IH (S i) ((tr ++ [LEndAcquisition i]) ++ [LDeInit i]))
      as (res & out & Hr & Ho & Hm).
    exists res, ([LEndAcquisition i; LDeInit i] ++ out).
    split; [rewrite Hr, <- !app_assoc; reflexivity|].
    split; [by repeat constructor|].
    destruct res; [|done|done]. destruct Hm as [? ->]. by split.
Qed.

Lemma filter_none {A} (f : A -> bool) (l : list A) :
  Forall (fun e => f e = false) l -> filter f l = [].
Proof.
  induction 1 as [|e l He _ IH]; [done|].
  rewrite filter_cons_False; [done|]. rewrite He. by intros [].
Qed.

Lemma filter_all {A} (f : A -> bool) (l : list A) :
  Forall (fun e => f e = true) l -> filter f l = l.
Proof.
  induction 1 as [|e l He _ IH]; [done|].
  rewrite filter_cons_True; [by rewrite IH|]. by rewrite He.
Qed.

Lemma Forall_fmap_seq {A} (g : nat -> A) (P : A -> Prop) i n :
  (forall j, P (g j)) -> Forall P (g <$> seq i n).
Proof. intros H. apply Forall_fmap, Forall_forall. intros j _. apply H. Qed.

Lemma teardown_calls_Forall i n :
  Forall (fun e => is_teardown e = true) (teardown_calls i n).
Proof. revert i. induction n as [|n IH]; intros i; simpl; by repeat constructor. Qed.

Lemma lor_code a b :
  (a = 0 \/ a = -1) -> (b = 0 \/ b = -1) ->
  (Z.lor a b = 0 \/ Z.lor a b = -1)
  /\ (Z.lor a b = 0 <-> a = 0 /\ b = 0).
Proof. intros [-> | ->] [-> | ->]; simpl; intuition lia. Qed.

Lemma trigger_code_values nm : trigger_code nm = 0 \/ trigger_code nm = -1.
Proof. by destruct (ConfigureTrigger_code nm) as (_ & _ & _ & H & _). Qed.

(** The value of [result] after the setup loop is 0 or -1, and 0 only
    if every [ConfigureTrigger] returned 0. *)
Lemma setup_fold_values camList : forall acc,
  (acc = 0 \/ acc = -1) ->
  let r := foldl (fun acc cam => Z.lor acc (trigger_code (nodeMap cam)))
             acc camList in
  (r = 0 \/ r = -1)
  /\ (r = 0 <->
      acc = 0 /\ Forall (fun cam => trigger_code (nodeMap cam) = 0) camList).
Proof.
  induction camList as [|cam rest IH]; intros acc Hacc; simpl.
  - split; [done|]. split; [by intros ->|by intros [-> _]].
  - destruct (lor_code acc _ Hacc (trigger_code_values (nodeMap cam)))
      as [Hv Hz].
    destruct (IH _ Hv) as [Hr Hiff]. split; [done|].
    rewrite Hiff, Hz, Forall_cons. tauto.
Qed.

Lemma setup_result_zero camList :
  setup_result camList = 0
  <-> Forall (fun cam => trigger_code (nodeMap cam) = 0) camList.
Proof.
  unfold setup_result.
  destruct (setup_fold_values camList 0 ltac:(by left)) as [_ ->]. tauto.
Qed.

(** The joins of the camera threads: all of them return, in index
    order, when every camera thread has returned; otherwise the loop
    waits at the first thread that has not. *)
Lemma join_producers_spec pcs : forall i tr,
  exists res out,
    join_producers i pcs tr = (res, tr ++ out)
    /\ Forall (fun e => is_thread_event e = true) out
    /\ filter is_spawn out = []
    /\ (forallb producer_returned pcs = true ->
        res = Ok tt /\ out = LJoinProducer <$> seq i (length pcs))
    /\ (forallb producer_returned pcs = false -> res = Blocked).
Proof.
  induction pcs as [|pc rest IH]; intros i tr.
  - exists (Ok tt), []. simpl. rewrite app_nil_r. by repeat split.
  - cbn [join_producers forallb length seq fmap list_fmap].
    destruct (producer_returned pc) eqn:Hpc; cbn [andb].
    + unfold mbind, M_bind, bind, call.
      destruct (IH (S i) (tr ++ [LJoinProducer i]))
        as (res & out & Hr & Ho & Hs & Hdone & Hwait).
      exists res, ([LJoinProducer i] ++ out).
      split; [by rewrite Hr, <- app_assoc|].
      split; [apply Forall_app; split; [by repeat constructor|done]|].
      split; [by rewrite filter_app, Hs|].
      split; [|done].
      intros Hall. destruct (Hdone Hall) as [-> ->]. by split.
    + exists Blocked, []. rewrite app_nil_r. by repeat split.
Qed.

(** Starting and joining the threads: the threads are always started;
    the joins return only in a run in which every thread has left its
    loop. *)
Lemma run_threads_spec n sched tr :
  exists res out,
    run_threads n sched tr = (res, tr ++ out)
    /\ Forall (fun e => is_thread_event e = true) out
    /\ filter is_spawn out = (LSpawnProducer <$> seq 0 n) ++ [LSpawnDisplay n]
    /\ (threads_finished n sched = true ->
        res = Ok tt
        /\ out = (LSpawnProducer <$> seq 0 n)
                   ++ [LSpawnDisplay n; LJoinDisplay]
                   ++ (LJoinProducer <$> seq 0 n))
    /\ (threads_finished n sched = false -> res = Blocked).
Proof.
  unfold run_threads, threads_finished.
  set (st := threads_state n sched).
  assert (Hlen : length (producers st) = n).
  { unfold st, threads_state. rewrite producers_length_exec. simpl.
    by rewrite length_replicate. }
  assert (Hstart : Forall (fun e => is_thread_event e = true)
                     ((LSpawnProducer <$> seq 0 n) ++ [LSpawnDisplay n])).
  { apply Forall_app. split; [by apply Forall_fmap_seq|by repeat constructor]. }
  assert (Hsp : filter is_spawn ((LSpawnProducer <$> seq 0 n) ++ [LSpawnDisplay n])
                = (LSpawnProducer <$> seq 0 n) ++ [LSpawnDisplay n]).
  { apply filter_all. apply Forall_app.
    split; [by apply Forall_fmap_seq|by repeat constructor]. }
  destruct (display_returned (display st)) eqn:Hd; cbn [andb].
  - match goal with
    | |- context [join_producers 0 (producers st) ?t] =>
        destruct (join_producers_spec (producers st) 0 t)
          as (res & out & Hr & Ho & Hs & Hdone & Hwait)
    end.
    exists res,
      (((LSpawnProducer <$> seq 0 n) ++ [LSpawnDisplay n]) ++ [LJoinDisplay] ++ out).
    split; [rewrite Hr, <- ?app_assoc; reflexivity|].
    split.
    { apply Forall_app. split; [done|].
      apply Forall_app. split; [by repeat constructor|done]. }
    split.
    { rewrite filter_app, Hsp, filter_app, Hs. simpl. by rewrite app_nil_r. }
    split; [|done].
    intros Hall. destruct (Hdone Hall) as [-> ->]. split; [done|].
    rewrite Hlen, <- !app_assoc. reflexivity.
  - exists Blocked, ((LSpawnProducer <$> seq 0 n) ++ [LSpawnDisplay n]).
    split; [by rewrite <- ?app_assoc|]. by repeat split.
Qed.

(** The whole of [RunMultipleCameras]. *)
Lemma RunMultipleCameras_spec camList sched tr :
  exists res out,
    RunMultipleCameras camList sched tr
    = (res, (tr ++ (LQueueCreate <$> seq 0 (length camList))) ++ out)
    /\ (forall what, res <> Raise what)
    /\ filter is_queue_create out = []
    /\ filter is_release out = []
    /\ (existsb setup_raises camList = true ->
        res = Ok (-1) /\ filter is_spawn out = [] /\ filter is_teardown out = []
        /\ exists what, last out = Some (LCout ("Error: " +:+ what)))
    /\ (existsb setup_raises camList = false ->
        filter is_spawn out
        = (LSpawnProducer <$> seq 0 (length camList))
            ++ [LSpawnDisplay (length camList)]
        /\ (threads_finished (length camList) sched = false ->
            res = Blocked /\ filter is_teardown out = [])
        /\ (threads_finished (length camList) sched = true ->
            (existsb cleanup_raises camList = false ->
             res = Ok (setup_result camList)
             /\ filter is_teardown out = teardown_calls 0 (length camList))
            /\ (existsb cleanup_raises camList = true -> res = Ok (-1)))).
Proof.
  unfold RunMultipleCameras, try_catch, emplace_queues, call, ret.
  unfold mbind, M_bind, bind.
  set (n := length camList). set (tr0 := tr ++ (LQueueCreate <$> seq 0 n)).
  destruct (init_cameras_spec camList 0 0 tr0) as (res & out1 & Hinit & Ho1 & Hm).
  rewrite Hinit.
  assert (Hq1 : filter is_queue_create out1 = []).
  { apply filter_none. eapply Forall_impl; [exact Ho1|]. by intros []. }
  assert (Hr1 : filter is_release out1 = []).
  { apply filter_none. eapply Forall_impl; [exact Ho1|]. by intros []. }
  assert (Hs1 : filter is_spawn out1 = []).
  { apply filter_none. eapply Forall_impl; [exact Ho1|]. by intros []. }
  assert (Ht1 : filter is_teardown out1 = []).
  { apply filter_none. eapply Forall_impl; [exact Ho1|]. by intros []. }
  destruct res as [r|what|]; [| |done].
  - (* the setup loop completed *)
    destruct Hm as [Hnoraise ->].
    set (mid := [LCout "Press Enter to start synchronized video feeds (press 'q' to exit)...";
                 LGetChar]).
    match goal with
    | |- context [run_threads n sched ?t] =>
        destruct (run_threads_spec n sched t)
          as (res3 & threads & Hth & Ho3 & Hsp & Hfin & Hwait); rewrite Hth
    end.
    assert (Hq3 : filter is_queue_create threads = []).
    { apply filter_none. eapply Forall_impl; [exact Ho3|]. by intros []. }
    assert (Hr3 : filter is_release threads = []).
    { apply filter_none. eapply Forall_impl; [exact Ho3|]. by intros []. }
    assert (Ht3 : filter is_teardown threads = []).
    { apply filter_none. eapply Forall_impl; [exact Ho3|]. by intros []. }
    destruct (threads_finished n sched) eqn:Hdone.
    2:{ (* a thread has not returned *)
      rewrite (Hwait eq_refl).
      exists Blocked, (out1 ++ mid ++ threads).
      split; [unfold mid; rewrite <- ?app_assoc; reflexivity|].
      split; [done|].
      rewrite !filter_app, Hq1, Hq3, Hr1, Hr3, Hs1, Hsp, Ht1, Ht3.
      split; [done|]. split; [done|].
      split; [congruence|]. intros _.
      split; [done|]. split; [done|]. done. }
    destruct (Hfin eq_refl) as [-> _].
    match goal with
    | |- context [cleanup_cameras 0 camList ?t] =>
        destruct (cleanup_cameras_spec camList 0 t)
          as (res2 & out2 & Hclean & Ho2 & Hm2); rewrite Hclean
    end.
    assert (Hq2 : filter is_queue_create out2 = []).
    { apply filter_none. eapply Forall_impl; [exact Ho2|]. by intros []. }
    assert (Hr2 : filter is_release out2 = []).
    { apply filter_none. eapply Forall_impl; [exact Ho2|]. by intros []. }
    assert (Hs2 : filter is_spawn out2 = []).
    { apply filter_none. eapply Forall_impl; [exact Ho2|]. by intros []. }
    destruct res2 as [[]|what|]; [| |done].
    + destruct Hm2 as [Hnoraise2 Hout2].
      eexists _, (out1 ++ mid ++ threads ++ out2).
      split; [unfold mid; rewrite <- ?app_assoc; reflexivity|].
      split; [done|].
      rewrite !filter_app, Hq1, Hq2, Hq3, Hr1, Hr2, Hr3, Hs1, Hs2, Hsp, Ht1, Ht3.
      split; [done|]. split; [done|].
      split; [congruence|]. intros _.
      split; [by rewrite app_nil_r|].
      split; [done|]. intros _.
      split; [|congruence]. intros _. split; [done|].
      simpl. rewrite (filter_all _ out2) by done. exact Hout2.
    + exists (Ok (-1)),
        (out1 ++ mid ++ threads ++ out2 ++ [LCout ("Error: " +:+ what)]).
      split; [unfold mid; rewrite <- ?app_assoc; reflexivity|].
      split; [done|].
      rewrite !filter_app, Hq1, Hq2, Hq3, Hr1, Hr2, Hr3, Hs1, Hs2, Hsp.
      split; [done|]. split; [done|].
      split; [congruence|]. intros _.
      split; [by rewrite app_nil_r|].
      split; [done|]. intros _.
      split; [congruence|done].
  - (* a setup call raised *)
    exists (Ok (-1)), (out1 ++ [LCout ("Error: " +:+ what)]).
    split; [by rewrite <- !app_assoc|].
    split; [done|].
    rewrite !filter_app, Hq1, Hr1, Hs1, Ht1.
    split; [done|]. split; [done|].
    split; [|congruence]. intros _.
    repeat split; try done.
    exists what. by rewrite last_snoc.
Qed.

(** The whole of [main]. *)
Lemma main_spec camList sched :
  exists res out,
    main camList sched [] = (res, out)
    /\ (forall what, res <> Raise what)
    /\ (res = Blocked <->
        camList <> []
        /\ existsb setup_raises camList = false
        /\ threads_finished (length camList) sched = false)
    /\ (res = Blocked ->
        filter is_release out = [] /\ filter is_teardown out = []
        /\ filter is_spawn out
           = (LSpawnProducer <$> seq 0 (length camList))
               ++ [LSpawnDisplay (length camList)])
    /\ (camList <> [] -> existsb setup_raises camList = false ->
        filter is_spawn out
        = (LSpawnProducer <$> seq 0 (length camList))
            ++ [LSpawnDisplay (length camList)])
    /\ (forall r, res = Ok r ->
        (r = 0 \/ r = -1)
        /\ filter is_release out = [LCamListClear; LReleaseInstance]
        /\ last out = Some LGetChar
        /\ (r = 0 <->
            camList <> []
            /\ existsb setup_raises camList = false
            /\ existsb cleanup_raises camList = false
            /\ Forall (fun cam => trigger_code (nodeMap cam) = 0) camList)).
Proof.
  destruct camList as [|cam rest].
  - exists (Ok (-1)), (main [] sched []).2. split; [by vm_compute|].
    split; [done|].
    split; [split; [done|by intros [? _]]|].
    split; [done|]. split; [done|].
    intros r [= <-].
    split; [by right|]. split; [by vm_compute|]. split; [by vm_compute|].
    split; [done|]. by intros [? _].
  - unfold main, call, ret, mbind, M_bind, bind.
    cbn [length Nat.eqb].
    match goal with
    | |- context [RunMultipleCameras ?l sched ?t] =>
        destruct (RunMultipleCameras_spec l sched t)
          as (res & out & Hrun & Hnr & Hq & Hrel & Hraise & Hok); rewrite Hrun
    end.
    set (cams := cam :: rest) in *.
    destruct (existsb setup_raises cams) eqn:Hsr.
    + destruct (Hraise eq_refl) as (-> & Hsp & Htd & _).
      eexists _, _. split; [reflexivity|]. split; [done|].
      split; [split; [done|by intros (_ & ? & _)]|].
      split; [done|]. split; [done|].
      intros r [= <-]. split; [by right|].
      split.
      { rewrite !filter_app, Hrel.
        rewrite (filter_none is_release (LQueueCreate <$> _))
          by (by apply Forall_fmap_seq).
        reflexivity. }
      split; [by rewrite last_snoc|].
      split; [done|]. by intros (_ & ? & _).
    + destruct (Hok eq_refl) as (Hsp & Hwait & Hfin).
      assert (Hspawn :
        filter is_spawn
          ((((([] ++ [LGetInstance]) ++ [LGetCameras])
               ++ [LCout ("Number of cameras detected: "
                          +:+ pretty (length cams))])
              ++ (LQueueCreate <$> seq 0 (length cams))) ++ out)
        = (LSpawnProducer <$> seq 0 (length cams))
            ++ [LSpawnDisplay (length cams)]).
      { rewrite !filter_app, Hsp.
        rewrite (filter_none is_spawn (LQueueCreate <$> _))
          by (by apply Forall_fmap_seq).
        reflexivity. }
      destruct (threads_finished (length cams) sched) eqn:Hdone.
      * destruct (Hfin eq_refl) as [Hclean Hcraise].
        assert (Hres : exists r, res = Ok r /\ (r = 0 \/ r = -1)
                  /\ (r = 0 <-> existsb cleanup_raises cams = false
                        /\ Forall (fun cam => trigger_code (nodeMap cam) = 0) cams)).
        { destruct (existsb cleanup_raises cams) eqn:Hcr.
          - exists (-1). split; [by apply Hcraise|]. split; [by right|].
            split; [done|]. by intros [? _].
          - destruct (Hclean eq_refl) as [-> _]. exists (setup_result cams).
            split; [done|].
            split; [apply (setup_fold_values cams 0); by left|].
            rewrite setup_result_zero. tauto. }
        destruct Hres as (r & -> & Hr & Hz).
        eexists _, _. split; [reflexivity|]. split; [done|].
        split.
        { split; [done|]. intros (_ & _ & Hf).
          change (threads_finished (length cams) sched = false) in Hf.
          congruence. }
        split; [done|].
        split.
        { intros _ _.
          assert (Htail : forall l,
            filter is_spawn
              (((((l ++ [LCamListClear]) ++ [LReleaseInstance]) ++ [LCout ""])
                  ++ [LCout "Press Enter to exit..."]) ++ [LGetChar])
            = filter is_spawn l).
          { intros l. rewrite 5!filter_app. cbn. by rewrite !app_nil_r. }
          rewrite Htail. exact Hspawn. }
        intros r' [= <-]. split; [exact Hr|].
        split.
        { rewrite !filter_app, Hrel.
          rewrite (filter_none is_release (LQueueCreate <$> _))
            by (by apply Forall_fmap_seq).
          reflexivity. }
        split; [by rewrite last_snoc|].
        rewrite Hz. split; [by intros [? ?]|by intros (_ & _ & ? & ?)].
      * destruct (Hwait eq_refl) as [-> Htd].
        eexists _, _. split; [reflexivity|]. split; [done|].
        split; [split; [intros _; repeat split; [done|exact Hdone]|done]|].
        split.
        { intros _. split.
          - rewrite !filter_app, Hrel.
            rewrite (filter_none is_release (LQueueCreate <$> _))
              by (by apply Forall_fmap_seq).
            reflexivity.
          - split; [|exact Hspawn].
            rewrite !filter_app, Htd.
            rewrite (filter_none is_teardown (LQueueCreate <$> _))
              by (by apply Forall_fmap_seq).
            reflexivity. }
        split; [intros _ _; exact Hspawn|].
        by intros r.
Qed.

(** The camera whose [TriggerMode] node cannot be read is still made
    to acquire, whatever the threads do afterwards. *)
Lemma unreadable_trigger_begins sched :
  LBeginAcquisition 0 ∈ (main [unreadable_trigger_camera] sched []).2.
Proof.
  pose proof (run_threads_spec 1 sched) as Hth.
  unfold main, RunMultipleCameras. cbn [length Nat.eqb].
  revert Hth. generalize (run_threads 1 sched). intros m Hth.
  vm_compute.
  match goal with
  | |- context [m ?t] => destruct (Hth t) as (res & out & -> & _)
  end.
  destruct res as [[]|?|]; cbn;
    repeat (apply list_elem_of_here || apply list_elem_of_further).
Qed.

(** C10: with no camera detected, [main] releases the camera list and
    the system instance and returns -1; it creates no queue and starts
    no thread. *)
Theorem C10_zero_cameras (sched : list Action) :
  main [] sched []
  = (Ok (-1),
     [LGetInstance; LGetCameras; LCout "Number of cameras detected: 0";
      LCamListClear; LReleaseInstance; LCout "No cameras detected!";
      LCout "Press Enter to exit..."; LGetChar])
  /\ filter is_spawn (main [] sched []).2 = []
  /\ filter is_queue_create (main [] sched []).2 = [].
Proof. by vm_compute. Qed.

(** C5, where the code leaves the stated behaviour.  A camera whose
    [TriggerMode] node cannot be read makes [ConfigureTrigger] print
    "Aborting..." and return -1, yet [RunMultipleCameras] goes on to
    begin acquisition and to start the producer and display threads,
    whatever the threads then do; the failure shows only in the exit
    code, -1 once the user has quit.  And when [Init()] of the second
    camera raises, no thread is started, but the first camera, already
    acquiring, is never ended nor de-initialised; a run of two good
    cameras that the user quits ends and de-initialises both. *)
Theorem C5_setup_failure_runs (sched : list Action) :
  ConfigureTrigger (nodeMap unreadable_trigger_camera) []
  = (Ok (-1),
     [LCout ""; LCout "* CONFIGURING TRIGGER AND TIMESTAMP *";
      LCout "Timestamp enabled...";
      LCout "Unable to disable trigger mode (node retrieval). Aborting..."])
  /\ (main [unreadable_trigger_camera] (quit_run ++ after_quit) []).1 = Ok (-1)
  /\ (main [unreadable_trigger_camera] sched []).1 <> Ok 0
  /\ filter is_spawn (main [unreadable_trigger_camera] sched []).2
     = [LSpawnProducer 0; LSpawnDisplay 1]
  /\ LBeginAcquisition 0 ∈ (main [unreadable_trigger_camera] sched []).2
  /\ (main [good_camera; dead_camera] sched []).1 = Ok (-1)
  /\ filter is_spawn (main [good_camera; dead_camera] sched []).2 = []
  /\ LBeginAcquisition 0 ∈ (main [good_camera; dead_camera] sched []).2
  /\ filter is_teardown (main [good_camera; dead_camera] sched []).2 = []
  /\ filter is_teardown (main [good_camera; good_camera] quit_run2 []).2
     = [LEndAcquisition 0; LDeInit 0; LEndAcquisition 1; LDeInit 1].
Proof.
  pose proof (unreadable_trigger_begins sched) as Hbegin.
  destruct (main_spec [unreadable_trigger_camera] sched)
    as (res & out & Hrun & _ & _ & _ & Hsp & Hok).
  rewrite Hrun in Hbegin |- *. cbn [fst snd] in Hbegin |- *.
  split; [by vm_compute|]. split; [by vm_compute|].
  split.
  { intros ->. destruct (Hok 0 eq_refl) as (_ & _ & _ & [Hz _]).
    destruct (Hz eq_refl) as (_ & _ & _ & Hall).
    apply Forall_cons in Hall as [Hcode _]. by vm_compute in Hcode. }
  split; [by apply Hsp|].
  split.
  { exact Hbegin. }
  split; [by vm_compute|]. split; [by vm_compute|].
  split; [|split; by vm_compute].
  vm_compute.
  repeat (apply list_elem_of_here || apply list_elem_of_further).
Qed.

End LifecycleFacts.

(** * Further properties of the code *)

(** ** ConfigureTrigger, RunMultipleCameras, main *)

Section LifecycleMore.
Import Lifecycle LifecycleNotions.

(** [ConfigureTrigger] absorbs every driver exception: it returns 0 or
    -1, only prints, and leaves the earlier trace alone.  It returns 0
    exactly when the last line printed is "Trigger configured for
    software trigger...", which needs a readable [TriggerMode] node;
    otherwise it returns -1 after the "Aborting..." line or an
    "Error: ..." line. *)
Theorem ConfigureTrigger_never_raises (nm : NodeMap) :
  exists r out,
    (forall tr, ConfigureTrigger nm tr = (Ok r, tr ++ out))
    /\ Forall (fun e => is_lcout e = true) out
    /\ (r = 0 <-> last out = Some configured_line)
    /\ (r = 0 /\ triggerModeReadable nm = true
        \/ r = -1 /\ (last out = Some unable_line
                      \/ exists what, last out = Some (LCout ("Error: " +:+ what)))).
Proof. apply ConfigureTrigger_spec. Qed.

(** When [Init], the acquisition-mode setting or [BeginAcquisition] of
    any camera raises, [RunMultipleCameras] returns -1 right after the
    "Error: ..." line, having created the queues but started no thread
    and made no [EndAcquisition] or [DeInit] call: cameras set up
    before the failing one stay initialised and acquiring. *)
Theorem RunMultipleCameras_setup_exception (camList : list Camera)
    (sched : list Action) (tr : list LEvent) :
  existsb setup_raises camList = true ->
  exists out what,
    RunMultipleCameras camList sched tr
    = (Ok (-1),
       (tr ++ (LQueueCreate <$> seq 0 (length camList)))
         ++ out ++ [LCout ("Error: " +:+ what)])
    /\ filter is_spawn out = []
    /\ filter is_teardown out = []
    /\ filter is_release out = [].
Proof.
  intros Hraise.
  destruct (RunMultipleCameras_spec camList sched tr)
    as (r & out & Hrun & _ & _ & Hrel & Hr & _).
  destruct (Hr Hraise) as (-> & Hsp & Htd & what & Hlast).
  apply last_Some in Hlast as [out' ->].
  exists out', what. split; [exact Hrun|].
  rewrite !filter_app in Hsp, Htd, Hrel.
  simpl in *. rewrite app_nil_r in *. by repeat split.
Qed.

Lemma RunMultipleCameras_setup_exception_witness :
  exists out what,
    RunMultipleCameras [good_camera; dead_camera] quit_run2 []
    = (Ok (-1), ([] ++ [LQueueCreate 0; LQueueCreate 1])
                  ++ out ++ [LCout ("Error: " +:+ what)])
    /\ filter is_spawn out = [].
Proof.
  destruct (RunMultipleCameras_setup_exception
              [good_camera; dead_camera] quit_run2 [])
    as (out & what & Hrun & Hsp & _).
  - reflexivity.
  - exists out, what. split; [exact Hrun|exact Hsp].
Defined.

(** When no setup call raises, [RunMultipleCameras] starts one producer
    thread per camera and then the display thread, whatever
    [ConfigureTrigger] returned; a [ConfigureTrigger] failure only shows
    in the return value, which is -1 whenever the function returns.
    The function returns exactly when every thread has left its loop,
    and never lets an exception escape. *)
Theorem RunMultipleCameras_threads_start (camList : list Camera)
    (sched : list Action) (tr : list LEvent) :
  existsb setup_raises camList = false ->
  exists res out,
    RunMultipleCameras camList sched tr
    = (res, (tr ++ (LQueueCreate <$> seq 0 (length camList))) ++ out)
    /\ filter is_spawn out
       = (LSpawnProducer <$> seq 0 (length camList))
           ++ [LSpawnDisplay (length camList)]
    /\ (forall what, res <> Raise what)
    /\ (res = Blocked <-> threads_finished (length camList) sched = false)
    /\ (Exists (fun cam => trigger_code (nodeMap cam) = -1) camList ->
        forall r, res = Ok r -> r = -1).
Proof.
  intros Hnoraise.
  destruct (RunMultipleCameras_spec camList sched tr)
    as (res & out & Hrun & Hnr & _ & _ & _ & Hok).
  destruct (Hok Hnoraise) as (Hsp & Hwait & Hfin).
  exists res, out. split; [exact Hrun|]. split; [exact Hsp|].
  split; [exact Hnr|].
  destruct (threads_finished (length camList) sched) eqn:Hdone.
  - destruct (Hfin eq_refl) as [Hclean Hcraise].
    destruct (existsb cleanup_raises camList) eqn:Hcr.
    + rewrite (Hcraise eq_refl). split; [done|]. by intros _ r [= <-].
    + destruct (Hclean eq_refl) as [-> _]. split; [done|].
      intros Hex r [= <-].
      destruct (setup_fold_values camList 0 ltac:(by left)) as [[Hr|Hr] _];
        [|exact Hr].
      apply setup_result_zero in Hr.
      apply Exists_exists in Hex as (cam & Hin & Hcode).
      rewrite Forall_forall in Hr. specialize (Hr cam Hin). lia.
  - destruct (Hwait eq_refl) as [-> _]. split; [done|]. by intros _ r.
Qed.

Lemma RunMultipleCameras_threads_start_witness :
  exists res out,
    RunMultipleCameras [unreadable_trigger_camera] (quit_run ++ after_quit) []
    = (res, ([] ++ [LQueueCreate 0]) ++ out)
    /\ filter is_spawn out = [LSpawnProducer 0; LSpawnDisplay 1].
Proof.
  destruct (RunMultipleCameras_threads_start
              [unreadable_trigger_camera] (quit_run ++ after_quit) [])
    as (res & out & Hrun & Hsp & _).
  - reflexivity.
  - exists res, out. split; [exact Hrun|exact Hsp].
Defined.

(** A run in which no setup and no cleanup call raises and in which
    every thread leaves its loop returns the bitwise or of the
    [ConfigureTrigger] results and tears the cameras down in index
    order, [EndAcquisition] then [DeInit] for each.  While a thread has
    not left its loop the function does not return and makes no
    teardown call. *)
Theorem RunMultipleCameras_normal_teardown (camList : list Camera)
    (sched : list Action) (tr : list LEvent) :
  existsb setup_raises camList = false ->
  existsb cleanup_raises camList = false ->
  exists res out,
    RunMultipleCameras camList sched tr
    = (res, (tr ++ (LQueueCreate <$> seq 0 (length camList))) ++ out)
    /\ (threads_finished (length camList) sched = true ->
        res = Ok (setup_result camList)
        /\ filter is_teardown out = teardown_calls 0 (length camList))
    /\ (threads_finished (length camList) sched = false ->
        res = Blocked /\ filter is_teardown out = [])
    /\ (setup_result camList = 0
        <-> Forall (fun cam => trigger_code (nodeMap cam) = 0) camList).
Proof.
  intros Hnoraise Hnoraise2.
  destruct (RunMultipleCameras_spec camList sched tr)
    as (res & out & Hrun & _ & _ & _ & _ & Hok).
  destruct (Hok Hnoraise) as (_ & Hwait & Hfin).
  exists res, out. split; [exact Hrun|].
  split; [intros Hdone; destruct (Hfin Hdone) as [Hclean _]; by apply Hclean|].
  split; [exact Hwait|].
  apply setup_result_zero.
Qed.

Lemma RunMultipleCameras_normal_teardown_witness :
  (exists out,
     RunMultipleCameras [good_camera; good_camera] quit_run2 []
     = (Ok (setup_result [good_camera; good_camera]),
        ([] ++ [LQueueCreate 0; LQueueCreate 1]) ++ out)
     /\ filter is_teardown out
        = [LEndAcquisition 0; LDeInit 0; LEndAcquisition 1; LDeInit 1])
  /\ (exists out,
        RunMultipleCameras [good_camera; good_camera] starved_run []
        = (Blocked, ([] ++ [LQueueCreate 0; LQueueCreate 1]) ++ out)
        /\ filter is_teardown out = []).
Proof.
  split.
  - destruct (RunMultipleCameras_normal_teardown
                [good_camera; good_camera] quit_run2 [])
      as (res & out & Hrun & Hfin & _).
    + reflexivity.
    + reflexivity.
    + destruct Hfin as [-> Htd]; [by vm_compute|].
      exists out. split; [exact Hrun|exact Htd].
  - destruct (RunMultipleCameras_normal_teardown
                [good_camera; good_camera] starved_run [])
      as (res & out & Hrun & _ & Hwait & _).
    + reflexivity.
    + reflexivity.
    + destruct Hwait as [-> Htd]; [by vm_compute|].
      exists out. split; [exact Hrun|exact Htd].
Defined.

(** [main] never lets an exception of the setup or cleanup calls
    escape.  After the threads have made the steps of [sched], it has
    not returned exactly when cameras were detected, no setup call
    raised, and some thread has not left its loop: it is then waiting
    in a join, the threads were started, and neither a teardown call nor
    the release of the camera list and system instance has been made.
    Whenever it returns it has cleared the camera list and then
    released the system instance, once each, its last act is the final
    [getchar], and its exit code is 0 or -1: 0 exactly when at least one
    camera was detected, no setup or cleanup call raised, and every
    [ConfigureTrigger] returned 0. *)
Theorem main_exit_code (camList : list Camera) (sched : list Action) :
  exists res out,
    main camList sched [] = (res, out)
    /\ (forall what, res <> Raise what)
    /\ (res = Blocked <->
        camList <> []
        /\ existsb setup_raises camList = false
        /\ threads_finished (length camList) sched = false)
    /\ (res = Blocked ->
        filter is_release out = [] /\ filter is_teardown out = []
        /\ filter is_spawn out
           = (LSpawnProducer <$> seq 0 (length camList))
               ++ [LSpawnDisplay (length camList)])
    /\ (forall r, res = Ok r ->
        (r = 0 \/ r = -1)
        /\ filter is_release out = [LCamListClear; LReleaseInstance]
        /\ last out = Some LGetChar
        /\ (r = 0 <->
            camList <> []
            /\ existsb setup_raises camList = false
            /\ existsb cleanup_raises camList = false
            /\ Forall (fun cam => trigger_code (nodeMap cam) = 0) camList)).
Proof.
  destruct (main_spec camList sched)
    as (res & out & Hrun & Hnr & Hb & Hbt & _ & Hok).
  by exists res, out.
Qed.

End LifecycleMore.


(** ** SafeQueue: batches *)

Section QueueMore.
Import SafeQueue.

Lemma run_app ops1 ops2 : forall q,
  run (ops1 ++ ops2) q
  = ((run ops1 q).1 ++ (run ops2 (run ops1 q).2).1,
     (run ops2 (run ops1 q).2).2).
Proof.
  induction ops1 as [|[item|] ops1 IH]; intros q; simpl.
  - by destruct (run ops2 q).
  - apply IH.
  - destruct q as [|front rest]; simpl; [apply IH|].
    rewrite IH. by destruct (run ops1 rest).
Qed.

Lemma run_pops n : forall q,
  run (replicate n Pop) q = (take n q, drop n q).
Proof.
  induction n as [|n IH]; intros q; simpl; [by rewrite drop_0|].
  destruct q as [|front rest]; simpl.
  - rewrite IH. by rewrite take_nil, drop_nil.
  - by rewrite IH.
Qed.

(** Pushing a batch and then calling [pop] [n] times hands out the
    first [n] of the queued-then-pushed items in order and leaves the
    rest; pops beyond the depth fail and change nothing.  In
    particular a batch pushed to an empty queue and popped as many
    times comes back unchanged, leaving the queue empty. *)
Theorem push_batch_then_pop (items : list FrameData) (q : t) (n : nat) :
  run ((Push <$> items) ++ replicate n Pop) q
  = (take n (q ++ items), drop n (q ++ items))
  /\ run ((Push <$> items) ++ replicate (length items) Pop) []
     = (items, [])
  /\ ((length q + length items <= n)%nat ->
      run ((Push <$> items) ++ replicate n Pop) q = (q ++ items, [])).
Proof.
  assert (H : forall m q0, run ((Push <$> items) ++ replicate m Pop) q0
                           = (take m (q0 ++ items), drop m (q0 ++ items))).
  { intros m q0. rewrite run_app, run_pushes. simpl. by rewrite run_pops. }
  split; [apply H|]. split.
  - rewrite H. simpl. by rewrite take_ge, drop_ge by lia.
  - intros Hn. rewrite H.
    by rewrite take_ge, drop_ge by (rewrite length_app; lia).
Qed.

End QueueMore.

(** ** The timestamp difference in general *)

(** Whatever the two timestamps, the number drawn lies in the signed
    64-bit range and is congruent to the true difference modulo 2^64:
    a source that is behind source 0 gets a negative number, and only
    a gap of 2^63 ns or more wraps. *)
Theorem timestamp_diff_range (a b : Z) :
  - 2 ^ 63 <= to_int64 (uint64_sub a b) < 2 ^ 63
  /\ (to_int64 (uint64_sub a b) - (a - b)) mod 2 ^ 64 = 0
  /\ to_int64 (uint64_sub a a) = 0.
Proof.
  unfold to_int64, uint64_sub.
  pose proof (Z.mod_pos_bound (a - b) (2 ^ 64) ltac:(lia)) as Hm.
  pose proof (Z.div_mod (a - b) (2 ^ 64) ltac:(lia)) as Hd.
  split; [|split].
  - destruct (Z.ltb_spec ((a - b) mod 2 ^ 64) (2 ^ 63)); lia.
  - destruct (Z.ltb_spec ((a - b) mod 2 ^ 64) (2 ^ 63)).
    + replace ((a - b) mod 2 ^ 64 - (a - b))
        with (- ((a - b) / 2 ^ 64) * 2 ^ 64) by lia.
      apply Z.mod_mul. lia.
    + replace ((a - b) mod 2 ^ 64 - 2 ^ 64 - (a - b))
        with ((- ((a - b) / 2 ^ 64) - 1) * 2 ^ 64) by lia.
      apply Z.mod_mul. lia.
  - by rewrite Z.sub_diag.
Qed.

(** ** The grid in general *)

Lemma grid_cell_linear numCameras cols frames i j :
  grid_cell numCameras cols frames i j
  = linear_cell numCameras frames (i * cols + j).
Proof. reflexivity. Qed.

Lemma grid_row_linear numCameras cols frames i :
  grid_row numCameras cols frames i
  = linear_cell numCameras frames <$> seqZ (i * cols) cols.
Proof.
  unfold grid_row. rewrite <- (Z.add_0_r (i * cols)).
  rewrite <- fmap_add_seqZ, <- list_fmap_compose.
  by apply list_fmap_ext.
Qed.

Lemma grid_cells_concat numCameras cols frames (r : nat) :
  0 <= cols ->
  concat (grid_cells numCameras (Z.of_nat r) cols frames)
  = linear_cell numCameras frames <$> seqZ 0 (Z.of_nat r * cols).
Proof.
  intros Hc. unfold grid_cells. induction r as [|r IH].
  - by rewrite seqZ_nil by lia.
  - rewrite seqZ_S, fmap_app, concat_app, IH. simpl.
    rewrite app_nil_r, grid_row_linear, Z.add_0_l, <- fmap_app.
    f_equal. replace (Z.of_nat (S r) * cols)
      with (Z.of_nat r * cols + cols) by lia.
    rewrite seqZ_app by nia. by rewrite Z.add_0_l.
Qed.

Lemma linear_cells_frames numCameras frames (m : Z) :
  numCameras = Z.of_nat (length frames) -> 0 <= m ->
  linear_cell numCameras frames <$> seqZ 0 m
  = take (Z.to_nat m)
      (frames ++ replicate (Z.to_nat (m - numCameras)) (Mat_zeros 480 640 CV_8UC3)).
Proof.
  intros Hn Hm. apply list_eq. intros i.
  rewrite list_lookup_fmap.
  destruct (decide (Z.of_nat i < m)) as [Hi|Hi].
  - rewrite lookup_seqZ_lt by done. simpl.
    rewrite lookup_take_lt by lia. unfold linear_cell.
    rewrite Z.add_0_l, Nat2Z.id.
    destruct (Z.ltb_spec (Z.of_nat i) numCameras) as [Hlt|Hge].
    + rewrite lookup_app_l by lia.
      symmetry. apply list_lookup_lookup_total_lt. lia.
    + rewrite lookup_app_r by lia. symmetry.
      apply lookup_replicate_2. lia.
  - rewrite lookup_seqZ_ge by lia. simpl.
    symmetry. apply lookup_take_ge. lia.
Qed.

Lemma grid_cells_dims numCameras rows cols frames :
  length (grid_cells numCameras rows cols frames) = Z.to_nat rows
  /\ Forall (fun row => length row = Z.to_nat cols)
            (grid_cells numCameras rows cols frames).
Proof.
  split; [unfold grid_cells; by rewrite length_fmap, length_seqZ|].
  unfold grid_cells. apply Forall_fmap, Forall_forall. intros i _.
  unfold grid_row. simpl. by rewrite length_fmap, length_seqZ.
Qed.

(** The grid built for any row and column counts has that many rows
    and columns.  Read row by row it is the camera frames in index
    order followed by blank 480 x 640 cells when there are at least as
    many cells as cameras; with fewer cells than cameras the frames
    beyond the last cell are left out. *)
Theorem grid_cells_row_major (frames : list Mat) (rows cols : Z) :
  0 <= rows -> 0 <= cols ->
  let n := Z.of_nat (length frames) in
  length (grid_cells n rows cols frames) = Z.to_nat rows
  /\ Forall (fun row => length row = Z.to_nat cols)
            (grid_cells n rows cols frames)
  /\ (n <= rows * cols ->
      concat (grid_cells n rows cols frames)
      = frames ++ replicate (Z.to_nat (rows * cols - n))
                    (Mat_zeros 480 640 CV_8UC3))
  /\ (rows * cols <= n ->
      concat (grid_cells n rows cols frames)
      = take (Z.to_nat (rows * cols)) frames).
Proof.
  intros Hr Hc n.
  assert (Hflat : concat (grid_cells n rows cols frames)
                  = take (Z.to_nat (rows * cols))
                      (frames ++ replicate (Z.to_nat (rows * cols - n))
                                   (Mat_zeros 480 640 CV_8UC3))).
  { rewrite <- (Z2Nat.id rows) at 1 by done.
    rewrite grid_cells_concat by done.
    rewrite Z2Nat.id by done. apply linear_cells_frames; [done|nia]. }
  split; [unfold grid_cells; by rewrite length_fmap, length_seqZ|].
  split.
  { unfold grid_cells. apply Forall_fmap, Forall_forall. intros i _.
    unfold grid_row. simpl. by rewrite length_fmap, length_seqZ. }
  split; intros Hn; rewrite Hflat.
  - apply take_ge. rewrite length_app, length_replicate. lia.
  - replace (Z.to_nat (rows * cols - n)) with 0%nat by lia.
    simpl. by rewrite app_nil_r.
Qed.

Lemma grid_cells_row_major_witness :
  concat (grid_cells 3 2 2 [Mat_default; Mat_default; Mat_default])
  = [Mat_default; Mat_default; Mat_default] ++ [Mat_zeros 480 640 CV_8UC3].
Proof.
  destruct (grid_cells_row_major [Mat_default; Mat_default; Mat_default] 2 2)
    as (_ & _ & H & _); [lia|lia|].
  apply H. simpl. lia.
Defined.

Lemma grid_layout_bounds (n : Z) :
  1 <= n <= 4096 ->
  n <= gridRows n * gridCols n < n + gridCols n
  /\ (gridCols n - 1) * (gridCols n - 1) < n <= gridCols n * gridCols n
  /\ gridCols n - 1 <= gridRows n <= gridCols n.
Proof.
  intros Hn. destruct (grid_layout_small n Hn) as [Hc Hr].
  pose proof (ceil_sqrt_spec n ltac:(lia)) as Hs. rewrite <- Hc in Hs.
  assert (Hpos : 0 < gridCols n) by nia.
  pose proof (ceil_div_spec n (gridCols n) Hpos) as Hd. rewrite <- Hr in Hd.
  split; [nia|]. split; [nia|]. split; nia.
Qed.

(** For 1 to 4096 cameras the computed layout has a cell for every
    camera, no row that is entirely blank, and is square or one row
    short of square. *)
Theorem grid_layout_covers (n : Z) :
  1 <= n <= 4096 ->
  n <= gridRows n * gridCols n < n + gridCols n
  /\ (gridCols n - 1) * (gridCols n - 1) < n <= gridCols n * gridCols n
  /\ gridCols n - 1 <= gridRows n <= gridCols n.
Proof. apply grid_layout_bounds. Qed.

Lemma grid_layout_covers_witness :
  5 <= gridRows 5 * gridCols 5 < 5 + gridCols 5.
Proof.
  destruct (grid_layout_covers 5) as (H & _); [lia|exact H].
Defined.

(** The column count is exact for every camera count that an [int]
    holds: computed as [ceil(sqrt((double) N))], it is the least [c]
    with [N <= c * c], because the rounding of the square root never
    reaches or crosses an integer that the exact root does not.  The
    row count, computed in [float], is [ceil(N / columns)] whenever
    [(float) N] is exact, that is, below [2 ^ 24]. *)
Theorem grid_columns_exact (n : Z) :
  1 <= n < 2 ^ 31 ->
  gridCols n = ceil_sqrt n
  /\ (gridCols n - 1) * (gridCols n - 1) < n <= gridCols n * gridCols n
  /\ (n < 2 ^ 24 ->
      gridRows n = ceil_div n (gridCols n)
      /\ (gridRows n - 1) * gridCols n < n <= gridRows n * gridCols n).
Proof.
  intros Hn. pose proof (gridCols_exact n Hn) as Hc.
  pose proof (ceil_sqrt_spec n ltac:(lia)) as Hs. rewrite <- Hc in Hs.
  split; [exact Hc|]. split; [exact Hs|].
  intros Hsmall. pose proof (gridRows_exact n ltac:(lia)) as Hr.
  assert (Hpos : 0 < gridCols n) by nia.
  pose proof (ceil_div_spec n (gridCols n) Hpos) as Hd. rewrite <- Hr in Hd.
  by split.
Qed.

Lemma grid_columns_exact_witness :
  gridCols 2147395601 = ceil_sqrt 2147395601
  /\ 46340 * 46340 < 2147395601 <= gridCols 2147395601 * gridCols 2147395601.
Proof.
  destruct (grid_columns_exact 2147395601) as (Hc & Hs & _).
  - lia.
  - split; [exact Hc|]. split; [lia|apply Hs].
Defined.

(** ** The size of the composite *)

Lemma sumZ_const (f : Mat -> Z) (c : Z) (l : list Mat) :
  Forall (fun m => f m = c) l -> sumZ (f <$> l) = c * Z.of_nat (length l).
Proof.
  induction 1 as [|m l Hm _ IH]; [simpl; lia|].
  cbn [fmap list_fmap sumZ foldr length]. fold (sumZ (f <$> l)).
  rewrite Hm, IH. lia.
Qed.

Lemma hconcat_size cells :
  cells <> [] -> Forall frame_ok cells ->
  mat_rows (hconcat cells) = 480
  /\ mat_cols (hconcat cells) = 640 * Z.of_nat (length cells)
  /\ mat_type (hconcat cells) = CV_8UC3.
Proof.
  intros Hne Hok. destruct cells as [|m cells]; [done|].
  pose proof (Forall_inv Hok) as (Hr & Hc & Ht).
  unfold hconcat. cbn [mat_rows mat_cols mat_type].
  repeat split; try done.
  apply sumZ_const. eapply Forall_impl; [exact Hok|]. by intros ? (_ & ? & _).
Qed.

Lemma vconcat_size (rows : list Mat) (w : Z) :
  rows <> [] ->
  Forall (fun m => mat_rows m = 480 /\ mat_cols m = w /\ mat_type m = CV_8UC3)
         rows ->
  mat_rows (vconcat rows) = 480 * Z.of_nat (length rows)
  /\ mat_cols (vconcat rows) = w
  /\ mat_type (vconcat rows) = CV_8UC3.
Proof.
  intros Hne Hok. destruct rows as [|m rows]; [done|].
  pose proof (Forall_inv Hok) as (Hr & Hc & Ht).
  unfold vconcat. cbn [mat_rows mat_cols mat_type].
  repeat split; try done.
  apply sumZ_const. eapply Forall_impl; [exact Hok|]. by intros ? (? & _).
Qed.

Lemma linear_cell_ok numCameras frames idx :
  numCameras <= Z.of_nat (length frames) -> 0 <= idx ->
  Forall frame_ok frames ->
  frame_ok (linear_cell numCameras frames idx).
Proof.
  intros Hn Hidx Hok. unfold linear_cell.
  destruct (Z.ltb_spec idx numCameras) as [Hlt|Hge]; [|by repeat split].
  assert (Hi : (Z.to_nat idx < length frames)%nat) by lia.
  destruct (lookup_lt_is_Some_2 frames _ Hi) as [m Hm].
  rewrite (list_lookup_total_correct _ _ _ Hm).
  by eapply Forall_lookup_1 in Hok.
Qed.

Lemma grid_cells_ok numCameras rows cols frames :
  numCameras <= Z.of_nat (length frames) -> 0 <= cols ->
  Forall frame_ok frames ->
  Forall (Forall frame_ok) (grid_cells numCameras rows cols frames).
Proof.
  intros Hn Hc Hok. unfold grid_cells.
  apply Forall_fmap, Forall_forall. intros i Hi%elem_of_seqZ. simpl.
  unfold grid_row. apply Forall_fmap, Forall_forall. intros j Hj%elem_of_seqZ.
  simpl. rewrite grid_cell_linear. apply linear_cell_ok; [done|nia|done].
Qed.

Lemma displayGrid_size_pos (numCameras : nat) (frames : list Mat) :
  let n := Z.of_nat numCameras in
  0 < gridRows n -> 0 < gridCols n ->
  length frames = numCameras -> Forall frame_ok frames ->
  mat_rows (displayGrid numCameras frames) = 480 * gridRows n
  /\ mat_cols (displayGrid numCameras frames) = 640 * gridCols n
  /\ mat_type (displayGrid numCameras frames) = CV_8UC3.
Proof.
  intros n Hr Hc Hlen Hok. unfold displayGrid. fold n.
  pose proof (grid_cells_ok n (gridRows n) (gridCols n) frames
                ltac:(lia) ltac:(lia) Hok) as Hcells.
  destruct (grid_cells_dims n (gridRows n) (gridCols n) frames)
    as (Hrows & Hcols).
  set (g := grid_cells n (gridRows n) (gridCols n) frames) in *.
  assert (Hrow : Forall (fun m => mat_rows m = 480
                                  /\ mat_cols m = 640 * gridCols n
                                  /\ mat_type m = CV_8UC3) (hconcat <$> g)).
  { apply Forall_fmap, Forall_forall. intros row Hin. simpl.
    rewrite Forall_forall in Hcells, Hcols.
    specialize (Hcells row Hin). specialize (Hcols row Hin).
    destruct (hconcat_size row) as (H1 & H2 & H3); [|done|].
    - intros ->. simpl in Hcols. lia.
    - rewrite H2, Hcols. repeat split; try done. lia. }
  destruct (vconcat_size (hconcat <$> g) (640 * gridCols n)) as (H1 & H2 & H3).
  - intros Hnil. apply (f_equal length) in Hnil.
    rewrite length_fmap, Hrows in Hnil. simpl in Hnil. lia.
  - done.
  - rewrite H1, length_fmap, Hrows. repeat split; try done. lia.
Qed.

Lemma displayGrid_size_small (numCameras : nat) (frames : list Mat) :
  1 <= Z.of_nat numCameras <= 4096 ->
  length frames = numCameras -> Forall frame_ok frames ->
  let n := Z.of_nat numCameras in
  Forall (Forall frame_ok) (grid_cells n (gridRows n) (gridCols n) frames)
  /\ mat_rows (displayGrid numCameras frames) = 480 * gridRows n
  /\ mat_cols (displayGrid numCameras frames) = 640 * gridCols n
  /\ mat_type (displayGrid numCameras frames) = CV_8UC3.
Proof.
  intros Hn Hlen Hok n.
  destruct (grid_layout_bounds n Hn) as (Hcov & Hsq & Hrc).
  assert (0 < gridCols n) by nia. assert (0 < gridRows n) by nia.
  split; [apply grid_cells_ok; [lia|lia|done]|].
  by apply displayGrid_size_pos.
Qed.

(** With 1 to 4096 cameras and every frame 480 x 640 [CV_8UC3], all
    cells of the grid have that size and type, which is what [hconcat]
    and [vconcat] require, and the composite is
    [480 * gridRows] x [640 * gridCols] of the same type. *)
Theorem displayGrid_size (numCameras : nat) (frames : list Mat) :
  1 <= Z.of_nat numCameras <= 4096 ->
  length frames = numCameras -> Forall frame_ok frames ->
  let n := Z.of_nat numCameras in
  Forall (Forall frame_ok) (grid_cells n (gridRows n) (gridCols n) frames)
  /\ mat_rows (displayGrid numCameras frames) = 480 * gridRows n
  /\ mat_cols (displayGrid numCameras frames) = 640 * gridCols n
  /\ mat_type (displayGrid numCameras frames) = CV_8UC3.
Proof. apply displayGrid_size_small. Qed.

Lemma displayGrid_size_witness :
  mat_rows (displayGrid 3 [frameCopy 1 1; frameCopy 2 2; frameCopy 3 3]) = 960
  /\ mat_cols (displayGrid 3 [frameCopy 1 1; frameCopy 2 2; frameCopy 3 3])
     = 1280.
Proof.
  destruct (displayGrid_size 3 [frameCopy 1 1; frameCopy 2 2; frameCopy 3 3])
    as (_ & Hr & Hc & _).
  - lia.
  - reflexivity.
  - by repeat constructor.
  - split; [exact Hr|exact Hc].
Defined.

(** ** The running system: queues end to end *)

Section SystemMore.
Variable numCameras : nat.

Lemma fifo_ok_init : fifo_ok (init numCameras).
Proof.
  intros i q Hq. simpl in *.
  apply lookup_replicate in Hq as [-> _]. reflexivity.
Qed.

Lemma fifo_ok_release i r st : fifo_ok st -> fifo_ok (release i r st).
Proof. intros H. by destruct r. Qed.

Lemma fifo_ok_AcquireImages_body j c st :
  fifo_ok st -> fifo_ok (AcquireImages_body j c st).
Proof.
  intros H. destruct c as [?|?|?|r|?|ts id r]; simpl; try done.
  - by apply fifo_ok_release.
  - destruct (frameQueues st !! j) as [q0|] eqn:Hq0; [|done].
    apply fifo_ok_release. intros i q Hq. simpl in *.
    destruct (decide (i = j)) as [->|Hne].
    + rewrite list_lookup_insert_eq in Hq by (by eapply lookup_lt_Some).
      injection Hq as <-. unfold SafeQueue.push.
      by rewrite app_assoc, (H j q0 Hq0).
    + rewrite list_lookup_insert_ne in Hq by done.
      by rewrite app_nil_r, (H i q Hq).
Qed.

Lemma fifo_ok_step a st : fifo_ok st -> fifo_ok (step numCameras a st).
Proof.
  intros H. destruct a as [j c|key]; simpl.
  - unfold AcquireImages_step.
    destruct (producers st !! j) as [[]|]; try done.
    by apply (fifo_ok_AcquireImages_body j c st) in H.
  - unfold DisplayFrames_step.
    destruct (display st) as [|j|]; try done.
    destruct (j <? numCameras)%nat.
    + destruct (frameQueues st !! j) as [[|front rest]|] eqn:Hq0; try done.
      intros i q Hq. simpl in *.
      destruct (decide (i = j)) as [->|Hne].
      * rewrite list_lookup_insert_eq in Hq by (by eapply lookup_lt_Some).
        injection Hq as <-.
        rewrite <- (H j _ Hq0), <- app_assoc. reflexivity.
      * rewrite list_lookup_insert_ne in Hq by done.
        by rewrite app_nil_r, (H i q Hq).
    + by destruct (is_quit key).
Qed.

Lemma fifo_ok_exec sched : forall st,
  fifo_ok st -> fifo_ok (exec numCameras sched st).
Proof.
  induction sched as [|a sched IH]; intros st H; simpl; [done|].
  by apply IH, fifo_ok_step.
Qed.

(** Every push in the log is one that [AcquireImages] makes. *)
Lemma push_ok_release i r st :
  Forall push_ok (log st) -> Forall push_ok (log (release i r st)).
Proof. intros H. destruct r; simpl; by constructor. Qed.

Lemma push_ok_step a st :
  Forall push_ok (log st) -> Forall push_ok (log (step numCameras a st)).
Proof.
  intros H. destruct a as [j c|key]; simpl.
  - unfold AcquireImages_step.
    destruct (producers st !! j) as [[]|]; try done.
    simpl. destruct c as [?|?|?|r|?|ts id r]; simpl;
      try (by constructor); try (by apply push_ok_release).
    destruct (frameQueues st !! j); [|done].
    apply push_ok_release. simpl. constructor; [|done]. by exists ts, id.
  - unfold DisplayFrames_step.
    destruct (display st) as [|j|]; try done.
    destruct (j <? numCameras)%nat.
    + destruct (frameQueues st !! j) as [[|front rest]|]; simpl;
        try done; by repeat constructor.
    + destruct (is_quit key); simpl; by constructor.
Qed.

Lemma push_ok_exec sched : forall st,
  Forall push_ok (log st) -> Forall push_ok (log (exec numCameras sched st)).
Proof.
  induction sched as [|a sched IH]; intros st H; simpl; [done|].
  by apply IH, push_ok_step.
Qed.

Lemma pushes_of_shape i l x :
  Forall push_ok l -> x ∈ pushes_of i l ->
  exists ts id, x = mkFrameData (frameCopy ts id) ts (Z.of_nat i).
Proof.
  induction 1 as [|e l He _ IH]; simpl; [by intros ?%elem_of_nil|].
  destruct e as [?|?|j item|?|?|?|?]; try exact IH.
  intros [Hin|Hin]%elem_of_app; [by apply IH|].
  destruct (decide (i = j)) as [->|]; [|by apply elem_of_nil in Hin].
  apply list_elem_of_singleton in Hin as ->. exact He.
Qed.

Lemma queues_length_exec sched : forall st,
  length (frameQueues (exec numCameras sched st)) = length (frameQueues st).
Proof.
  induction sched as [|a sched IH]; intros st; simpl; [done|].
  by rewrite IH, queues_length_step.
Qed.

(** End-to-end FIFO under every interleaving: for each queue, the items
    popped from it so far followed by the items it holds are exactly
    the items pushed to it, in push order; so its depth is the number
    of pushes minus the number of pops, without any bound, and the
    k-th item popped from a queue is the k-th item pushed to it. *)
Theorem queue_fifo_end_to_end (sched : list Action) (i : nat)
    (q : SafeQueue.t) :
  let st := exec numCameras sched (init numCameras) in
  frameQueues st !! i = Some q ->
  pops_of i (log st) ++ q = pushes_of i (log st)
  /\ (length (pops_of i (log st)) + length q
      = length (pushes_of i (log st)))%nat
  /\ (forall k x, pops_of i (log st) !! k = Some x ->
        pushes_of i (log st) !! k = Some x).
Proof.
  intros st Hq.
  pose proof (fifo_ok_exec sched _ fifo_ok_init i q Hq) as H. fold st in H.
  split; [exact H|]. split.
  - by rewrite <- H, length_app.
  - intros k x Hk. rewrite <- H. by apply lookup_app_l_Some.
Qed.

(** Every item that is in queue [i], or was popped from it, was built
    by the producer of camera [i]: it carries that camera index, and
    its frame is the 480 x 640 [CV_8UC3] copy with the item's own
    timestamp drawn on it. *)
Theorem queue_items_provenance (sched : list Action) (i : nat)
    (q : SafeQueue.t) (x : FrameData) :
  let st := exec numCameras sched (init numCameras) in
  frameQueues st !! i = Some q ->
  x ∈ pops_of i (log st) ++ q ->
  cameraIndex x = Z.of_nat i
  /\ frame_ok (frame x)
  /\ exists id, frame x = frameCopy (timestamp x) id.
Proof.
  intros st Hq Hx.
  pose proof (fifo_ok_exec sched _ fifo_ok_init i q Hq) as H. fold st in H.
  rewrite H in Hx.
  assert (Hok : Forall push_ok (log st))
    by (apply push_ok_exec; constructor).
  destruct (pushes_of_shape i _ x Hok Hx) as (ts & id & ->).
  simpl. repeat split. by exists id.
Qed.

(** No vector is indexed out of range: in every reachable state the
    queue vector, the producer threads and the two [latest...] vectors
    all have [numCameras] entries, and the loop variable of the
    collecting loop is at most [numCameras]. *)
Theorem vectors_in_range (sched : list Action) :
  let st := exec numCameras sched (init numCameras) in
  length (frameQueues st) = numCameras
  /\ length (producers st) = numCameras
  /\ length (latestFrames st) = numCameras
  /\ length (latestTimestamps st) = numCameras
  /\ (forall i, display st = DFor i -> (i <= numCameras)%nat)
  /\ (forall i, (i < numCameras)%nat ->
        is_Some (frameQueues st !! i) /\ is_Some (producers st !! i)).
Proof.
  intros st.
  pose proof (Inv_reachable numCameras sched) as HI. fold st in HI.
  assert (Hq : length (frameQueues st) = numCameras).
  { unfold st. rewrite queues_length_exec. simpl. apply length_replicate. }
  assert (Hp : length (producers st) = numCameras).
  { unfold st. rewrite producers_length_exec. simpl. apply length_replicate. }
  split; [done|]. split; [done|].
  split; [apply (inv_frames _ _ HI)|].
  split; [apply (inv_timestamps _ _ HI)|].
  split.
  - intros i Hpc. pose proof (inv_collecting _ _ HI) as Hc.
    unfold collecting_ok in Hc. rewrite Hpc in Hc. tauto.
  - intros i Hi. split; apply lookup_lt_is_Some_2; lia.
Qed.

End SystemMore.

Lemma queue_fifo_end_to_end_witness :
  pops_of 0 (log (exec 2 scenario (init 2))) ++ []
  = pushes_of 0 (log (exec 2 scenario (init 2))).
Proof.
  destruct (queue_fifo_end_to_end 2 scenario 0 []) as (H & _).
  - reflexivity.
  - exact H.
Defined.

Lemma queue_items_provenance_witness :
  cameraIndex (mkFrameData (frameCopy 100 1) 100 0) = 0.
Proof.
  destruct (queue_items_provenance 2 scenario 0 []
              (mkFrameData (frameCopy 100 1) 100 0)) as (H & _).
  - reflexivity.
  - vm_compute. apply list_elem_of_here.
  - exact H.
Defined.

(** ** The running system: what is shown, what stops it, what stalls it *)

Section SystemShown.
Variable numCameras : nat.

Lemma elem_of_concat_2 {A} (x : A) (l : list A) (ls : list (list A)) :
  x ∈ l -> l ∈ ls -> x ∈ concat ls.
Proof.
  intros Hx. induction ls as [|l' ls IH]; [by intros ?%elem_of_nil|].
  intros [->|Hl]%elem_of_cons; simpl; apply elem_of_app; [by left|].
  right. by apply IH.
Qed.

Lemma pushed_items_shape l x :
  Forall push_ok l -> x ∈ pushed_items l ->
  exists i ts id, x = mkFrameData (frameCopy ts id) ts (Z.of_nat i).
Proof.
  induction 1 as [|e l He _ IH]; simpl; [by intros ?%elem_of_nil|].
  destruct e as [?|?|j item|?|?|?|?]; try exact IH.
  intros [->|Hin]%elem_of_cons; [|by apply IH].
  destruct He as (ts & id & ->). by exists j, ts, id.
Qed.

Lemma draw_diffs_ok ts frames :
  length frames = numCameras -> Forall frame_ok frames ->
  Forall frame_ok (draw_diffs numCameras ts frames).
Proof.
  intros Hlen Hok. apply Forall_lookup_2. intros j m Hm.
  rewrite draw_diffs_lookup in Hm by done.
  destruct (bool_decide (1 <= j < numCameras)%nat) eqn:Hj.
  - apply bool_decide_eq_true_1 in Hj. injection Hm as <-.
    destruct (lookup_lt_is_Some_2 frames j ltac:(lia)) as [m Hm].
    rewrite (list_lookup_total_correct _ _ _ Hm).
    by apply (Forall_lookup_1 _ _ _ _ Hok) in Hm.
  - by apply (Forall_lookup_1 _ _ _ _ Hok) in Hm.
Qed.

(** Every frame of a rendered FrameSet is a producer's 480 x 640
    copy. *)
Lemma rendered_frames_ok sched fs img :
  (fs, img) ∈ completed (log (exec numCameras sched (init numCameras))) ->
  Forall frame_ok (frame <$> frameset_items fs).
Proof.
  set (st := exec numCameras sched (init numCameras)). intros Hin.
  pose proof (Inv_reachable numCameras sched) as HI. fold st in HI.
  assert (Hok : Forall push_ok (log st))
    by (apply push_ok_exec; constructor).
  apply Forall_fmap, Forall_forall. intros x Hx. simpl.
  assert (Hr : x ∈ rendered_items (log st)).
  { unfold rendered_items. apply (elem_of_concat_2 x (frameset_items fs)); [done|].
    by apply (list_elem_of_fmap_2
                (fun c : list (nat * FrameData) * Mat => frameset_items c.1)
                _ (fs, img)). }
  assert (Hp : x ∈ pushed_items (log st)).
  { rewrite <- (inv_items _ _ HI). apply elem_of_app. right.
    rewrite popped_partition. apply elem_of_app. right.
    apply elem_of_app. by left. }
  destruct (pushed_items_shape _ _ Hok Hp) as (i & ts & id & ->).
  by repeat split.
Qed.

(** In every run with 1 to 4096 cameras, every composite passed to
    [imshow] was built from [numCameras] frames of 480 x 640
    [CV_8UC3], and is [480 * gridRows] x [640 * gridCols] of that
    type. *)
Theorem composite_size (sched : list Action)
    (fs : list (nat * FrameData)) (img : Mat) :
  1 <= Z.of_nat numCameras <= 4096 ->
  (fs, img) ∈ completed (log (exec numCameras sched (init numCameras))) ->
  length fs = numCameras
  /\ Forall frame_ok (frame <$> frameset_items fs)
  /\ mat_rows img = 480 * gridRows (Z.of_nat numCameras)
  /\ mat_cols img = 640 * gridCols (Z.of_nat numCameras)
  /\ mat_type img = CV_8UC3.
Proof.
  intros Hn Hin.
  pose proof (rendered_frames_ok sched fs img Hin) as Hok.
  pose proof (Inv_reachable numCameras sched) as HI.
  pose proof (inv_completed _ _ HI) as Hc.
  rewrite Forall_forall in Hc. destruct (Hc _ Hin) as [Hidx Himg].
  simpl in Hidx, Himg.
  assert (Hlen : length fs = numCameras).
  { rewrite <- (length_fmap fst fs), Hidx. apply length_seq. }
  split; [done|]. split; [done|].
  assert (Hlenf : length (frame <$> frameset_items fs) = numCameras).
  { unfold frameset_items. by rewrite !length_fmap. }
  destruct (displayGrid_size_small numCameras
              (draw_diffs numCameras (timestamp <$> fs.*2) (frame <$> fs.*2)))
    as (_ & H1 & H2 & H3); try done.
  - by rewrite draw_diffs_length.
  - by apply draw_diffs_ok.
  - by rewrite Himg.
Qed.

(** *** Stopping *)

Lemma completed_app l l0 :
  exists c, completed (l ++ l0) = c ++ completed l0.
Proof.
  induction l as [|e l [c IH]]; [by exists []|].
  destruct e; simpl; try by exists c.
  eexists (_ :: c). by rewrite IH.
Qed.

(** The only step that lowers the flag is the end of a completed cycle
    in which [waitKey] returns a key whose low byte is 'q' or 'Q'. *)
Lemma isRunning_lowered a st :
  isRunning st = true -> isRunning (step numCameras a st) = false ->
  exists key i,
    a = ActDisplay key /\ is_quit key = true
    /\ display st = DFor i /\ (numCameras <= i)%nat
    /\ exists img, log (step numCameras a st) = EvImshow img :: log st.
Proof.
  intros Hrun Hstop. destruct a as [j c|key]; simpl in *.
  - destruct (AcquireImages_step_fields j c st) as (Heq & _). congruence.
  - unfold DisplayFrames_step in *.
    destruct (display st) as [|i|] eqn:Hpc; simpl in *; try congruence.
    destruct (Nat.ltb_spec i numCameras) as [Hi|Hi].
    + destruct (frameQueues st !! i) as [[|front rest]|];
        simpl in *; congruence.
    + destruct (is_quit key) eqn:Hk; simpl in *; [|congruence].
      exists key, i. repeat split; try done. by eexists.
Qed.

Lemma stopped_after_composite sched : forall st,
  (isRunning st = false -> completed (log st) <> []) ->
  isRunning (exec numCameras sched st) = false ->
  completed (log (exec numCameras sched st)) <> [].
Proof.
  induction sched as [|a sched IH]; intros st Hst; simpl; [done|].
  apply IH. intros Hstop.
  destruct (isRunning st) eqn:Hrun.
  - destruct (isRunning_lowered a st Hrun Hstop)
      as (key & i & _ & _ & _ & _ & img & ->). done.
  - destruct (log_step numCameras a st) as [l ->].
    destruct (completed_app l (log st)) as [c ->].
    specialize (Hst eq_refl). by destruct c, (completed (log st)).
Qed.

(** The flag goes down only when the display thread, having just shown
    a composite, reads 'q' or 'Q' from [waitKey]; no producer and no
    other display step lowers it.  So a run that has been stopped has
    shown at least one composite: before every camera has delivered a
    frame the key is not even read. *)
Theorem stop_only_by_quit_key (sched : list Action) (a : Action) :
  let st := exec numCameras sched (init numCameras) in
  isRunning (step numCameras a st) = false ->
  completed (log (step numCameras a st)) <> []
  /\ (isRunning st = true ->
      exists key i,
        a = ActDisplay key /\ is_quit key = true
        /\ display st = DFor i /\ i = numCameras).
Proof.
  intros st Hstop. split.
  - replace (step numCameras a st)
      with (exec numCameras (sched ++ [a]) (init numCameras)) in *
      by (unfold st; by rewrite exec_app).
    by apply stopped_after_composite.
  - intros Hrun.
    destruct (isRunning_lowered a st Hrun Hstop)
      as (key & i & -> & Hk & Hpc & Hi & _).
    exists key, i. repeat split; try done.
    pose proof (inv_collecting _ _ (Inv_reachable numCameras sched)) as Hc.
    fold st in Hc. unfold collecting_ok in Hc. rewrite Hpc in Hc. lia.
Qed.

End SystemShown.

Lemma composite_size_witness :
  mat_rows (displayGrid 2 [frameCopy 100 1;
                           putText (frameCopy 150 2) "Diff with Cam0: 50 ns" 10 60])
  = 480 * gridRows 2.
Proof.
  destruct (composite_size 2 scenario
              [(0%nat, mkFrameData (frameCopy 100 1) 100 0);
               (1%nat, mkFrameData (frameCopy 150 2) 150 1)]
              (displayGrid 2 [frameCopy 100 1;
                              putText (frameCopy 150 2) "Diff with Cam0: 50 ns" 10 60]))
    as (_ & _ & H & _).
  - lia.
  - vm_compute. do 2 apply list_elem_of_further. apply list_elem_of_here.
  - exact H.
Defined.

Lemma stop_only_by_quit_key_witness :
  completed (log (exec 1 quit_run (init 1))) <> [].
Proof.
  destruct (stop_only_by_quit_key 1
              [ActProducer 0 (CaptureOk 100 1 None);
               ActProducer 0 (CaptureOk 100 1 None);
               ActDisplay (-1); ActDisplay (-1)] (ActDisplay 113)) as (H & _).
  - reflexivity.
  - exact H.
Defined.

(** *** A camera that never delivers *)

Section Starvation.
Variable numCameras : nat.
Variable k : nat.
Hypothesis Hk : (k < numCameras)%nat.

Lemma stalled_init : stalled k (init numCameras).
Proof. repeat split; simpl; try done. by apply lookup_replicate_2. Qed.

Lemma stalled_release i r st : stalled k st -> stalled k (release i r st).
Proof. intros H. by destruct r. Qed.

Lemma stalled_step a st :
  starves k a -> stalled k st -> stalled k (step numCameras a st).
Proof.
  intros Ha (Hq & Hc & Hrun & Hpc). destruct a as [j c|key]; simpl in *.
  - unfold AcquireImages_step.
    destruct (producers st !! j) as [[]|]; try done.
    destruct c as [?|?|?|r|?|ts id r]; simpl; try done.
    + by destruct r.
    + destruct (frameQueues st !! j) as [q0|] eqn:Hq0; [|done].
      assert (j <> k) by (intros ->; by specialize (Ha eq_refl)).
      destruct r; repeat split; simpl; try done;
        by rewrite list_lookup_insert_ne.
  - unfold DisplayFrames_step.
    destruct (display st) as [|i|] eqn:Hd; [| |done].
    + rewrite Hrun. repeat split; simpl; try done. lia.
    + destruct (Nat.ltb_spec i numCameras) as [Hi|Hi]; [|lia].
      destruct (decide (i = k)) as [->|Hne].
      * rewrite Hq. by repeat split.
      * destruct (frameQueues st !! i) as [[|front rest]|] eqn:Hq0; simpl.
        -- by repeat split.
        -- repeat split; simpl; try done; [|lia].
           by rewrite list_lookup_insert_ne.
        -- repeat split; try done. by rewrite Hd.
Qed.

Lemma stalled_exec sched : forall st,
  Forall (starves k) sched -> stalled k st ->
  stalled k (exec numCameras sched st).
Proof.
  induction sched as [|a sched IH]; intros st Hs H; simpl; [done|].
  inversion Hs; subst. by apply IH, stalled_step.
Qed.

End Starvation.

(** If one camera never delivers a complete image, whatever the others
    do, the display thread never completes a cycle: nothing is ever
    shown, [waitKey] is never called, so the flag stays up and the
    display thread never returns; the collecting loop never gets past
    that camera's queue. *)
Theorem starved_camera_stalls (numCameras k : nat) (sched : list Action) :
  (k < numCameras)%nat ->
  Forall (starves k) sched ->
  let st := exec numCameras sched (init numCameras) in
  frameQueues st !! k = Some []
  /\ completed (log st) = []
  /\ isRunning st = true
  /\ display st <> DDone
  /\ (forall i, display st = DFor i -> (i <= k)%nat).
Proof.
  intros Hk Hs st.
  destruct (stalled_exec numCameras k Hk sched _ Hs (stalled_init numCameras k Hk))
    as (Hq & Hc & Hrun & Hpc).
  fold st in Hq, Hc, Hrun, Hpc.
  repeat split; try done.
  - intros Hd. by rewrite Hd in Hpc.
  - intros i Hd. by rewrite Hd in Hpc.
Qed.

Lemma starved_camera_stalls_witness :
  completed (log (exec 2 (starved_run ++ [ActDisplay 113; ActDisplay 113])
                    (init 2))) = []
  /\ isRunning (exec 2 (starved_run ++ [ActDisplay 113; ActDisplay 113])
                  (init 2)) = true.
Proof.
  destruct (starved_camera_stalls 2 1
              (starved_run ++ [ActDisplay 113; ActDisplay 113]))
    as (_ & Hc & Hrun & _).
  - lia.
  - repeat constructor; simpl; lia.
  - split; [exact Hc|exact Hrun].
Defined.

(** *** A camera that never delivers keeps the program from ending *)

Section StarvedShutdown.
Import Lifecycle LifecycleNotions.



End StarvedShutdown.

(** *** The cost of an abandoned attempt *)

Lemma discarded_length l :
  Forall (fun a : nat * list (nat * FrameData) => a.2.*1 = seq 0 a.1)
         (abandoned l) ->
  length (discarded_items l) = sum_list ((abandoned l).*1).
Proof.
  unfold discarded_items. induction 1 as [|a al Ha _ IH]; [done|].
  csimpl. rewrite length_app, IH. f_equal.
  unfold frameset_items. rewrite length_fmap.
  rewrite <- (length_fmap fst), Ha. apply length_seq.
Qed.

(** An attempt abandoned at queue [i] throws away exactly [i] items,
    one from each of the queues [0 .. i-1], and [i] is below the number
    of cameras; an attempt that fails at queue 0 costs nothing.  The
    number of discarded items is the sum of the indices at which the
    attempts failed. *)
Theorem abandoned_attempt_cost (numCameras : nat) (sched : list Action) :
  let st := exec numCameras sched (init numCameras) in
  Forall (fun a : nat * list (nat * FrameData) =>
            (a.1 < numCameras)%nat /\ length a.2 = a.1
            /\ a.2.*1 = seq 0 a.1)
         (abandoned (log st))
  /\ length (discarded_items (log st)) = sum_list ((abandoned (log st)).*1).
Proof.
  intros st.
  pose proof (inv_abandoned _ _ (Inv_reachable numCameras sched)) as Ha.
  fold st in Ha. split.
  - eapply Forall_impl; [exact Ha|]. intros a [Hidx Hlt].
    repeat split; try done.
    rewrite <- (length_fmap fst), Hidx. apply length_seq.
  - apply discarded_length. eapply Forall_impl; [exact Ha|]. by intros a [? _].
Qed.

(** *** Lockstep *)

Section Lockstep.
Variable numCameras : nat.

Lemma column_app i fss1 fss2 :
  column i (fss1 ++ fss2) = column i fss1 ++ column i fss2.
Proof.
  induction fss1 as [|fs fss1 IH]; [done|].
  simpl. destruct (fs !! i); simpl; by rewrite IH.
Qed.

Lemma column_lookup i fss k fs :
  Forall (fun fs => is_Some (fs !! i)) fss ->
  fss !! k = Some fs ->
  exists p, fs !! i = Some p /\ column i fss !! k = Some p.2.
Proof.
  intros Hall. revert k.
  induction Hall as [|fs0 fss [p0 Hp0] _ IH]; intros k Hk; [done|].
  simpl. rewrite Hp0. destruct k as [|k]; simpl in *.
  - injection Hk as <-. by exists p0.
  - by apply IH.
Qed.

Lemma lockstep_ok_init : lockstep_ok (init numCameras).
Proof. intros _ i. reflexivity. Qed.

Lemma lockstep_ok_step a st :
  Inv numCameras st -> lockstep_ok st -> lockstep_ok (step numCameras a st).
Proof.
  intros HI H. destruct a as [j c|key]; simpl.
  - unfold AcquireImages_step.
    destruct (producers st !! j) as [[]|]; try done.
    destruct c as [?|?|?|r|?|ts id r]; simpl; try done.
    + by destruct r.
    + destruct (frameQueues st !! j); [|done]. by destruct r.
  - unfold DisplayFrames_step.
    destruct (display st) as [|j|] eqn:Hpc; try done.
    pose proof (inv_collecting _ _ HI) as Hc. unfold collecting_ok in Hc.
    rewrite Hpc in Hc. destruct Hc as (_ & _ & Hidx & _ & _).
    assert (Hlen : length (collecting (log st)) = j).
    { rewrite <- (length_fmap fst), Hidx. apply length_seq. }
    destruct (j <? numCameras)%nat.
    + destruct (frameQueues st !! j) as [[|front rest]|] eqn:Hq0; try done.
      intros Hab i. simpl in *. rewrite (H Hab i), !column_app. simpl.
      rewrite <- app_assoc. f_equal.
      destruct (decide (i = j)) as [->|Hne].
      * rewrite lookup_app_r by lia. rewrite Hlen, Nat.sub_diag. simpl.
        by rewrite (lookup_ge_None_2 (collecting (log st)) j) by lia.
      * rewrite app_nil_r.
        destruct (decide (i < j)%nat).
        -- by rewrite lookup_app_l by lia.
        -- rewrite (lookup_ge_None_2 (collecting (log st)) i) by lia.
           rewrite lookup_app_r by lia.
           by rewrite lookup_ge_None_2 by (simpl; lia).
    + assert (Hshow : forall st1 img,
                log st1 = EvImshow img :: log st -> lockstep_ok st1).
      { intros st1 img Hlog Hab i. rewrite Hlog in *. simpl in *.
        rewrite (H Hab i), reverse_cons, !column_app. simpl.
        by rewrite !app_nil_r. }
      destruct (is_quit key); by eapply Hshow.
Qed.

Lemma lockstep_ok_exec sched : forall st,
  Inv numCameras st -> lockstep_ok st ->
  lockstep_ok (exec numCameras sched st).
Proof.
  induction sched as [|a sched IH]; intros st HI H; simpl; [done|].
  apply IH; [by apply Inv_step|by apply lockstep_ok_step].
Qed.

(** Lockstep by arrival order: in a run in which no attempt was
    abandoned, the k-th composite shown is made of the k-th item
    pushed by each camera, whatever their timestamps. *)
Theorem lockstep_by_arrival (sched : list Action) (k i : nat)
    (fs : list (nat * FrameData)) (img : Mat) :
  let st := exec numCameras sched (init numCameras) in
  abandoned (log st) = [] ->
  reverse (completed (log st)) !! k = Some (fs, img) ->
  (i < numCameras)%nat ->
  exists x, fs !! i = Some (i, x)
            /\ pops_of i (log st) !! k = Some x
            /\ pushes_of i (log st) !! k = Some x.
Proof.
  intros st Hab Hk Hi.
  pose proof (Inv_reachable numCameras sched) as HI. fold st in HI.
  pose proof (lockstep_ok_exec sched _ (Inv_init numCameras)
                lockstep_ok_init Hab i) as Hpops. fold st in Hpops.
  assert (Hall : Forall (fun fs : list (nat * FrameData) => is_Some (fs !! i))
                   (reverse (completed (log st)).*1)).
  { apply Forall_reverse, Forall_fmap.
    eapply Forall_impl; [exact (inv_completed _ _ HI)|].
    intros [fs0 img0] [Hidx _]. simpl in *.
    apply lookup_lt_is_Some_2.
    rewrite <- (length_fmap fst), Hidx, length_seq. lia. }
  assert (Hk' : reverse (completed (log st)).*1 !! k = Some fs).
  { rewrite <- fmap_reverse, list_lookup_fmap, Hk. reflexivity. }
  destruct (column_lookup i _ k fs Hall Hk') as ([i' x] & Hfs & Hcol).
  assert (Hii : i' = i).
  { assert (Hin : (fs, img) ∈ completed (log st)).
    { apply elem_of_reverse. by eapply list_elem_of_lookup_2. }
    pose proof (inv_completed _ _ HI) as Hc. rewrite Forall_forall in Hc.
    destruct (Hc _ Hin) as [Hidx _]. simpl in Hidx.
    assert (Hl : fs.*1 !! i = Some i') by (by rewrite list_lookup_fmap, Hfs).
    rewrite Hidx in Hl. apply lookup_seq in Hl. lia. }
  subst i'. simpl in Hcol.
  assert (Hpop : pops_of i (log st) !! k = Some x).
  { rewrite Hpops, column_app. by apply lookup_app_l_Some. }
  exists x. repeat split; try done.
  assert (Hq : is_Some (frameQueues st !! i)).
  { apply lookup_lt_is_Some_2. unfold st.
    rewrite queues_length_exec. simpl. rewrite length_replicate. lia. }
  destruct Hq as [q Hq].
  pose proof (fifo_ok_exec numCameras sched _ (fifo_ok_init numCameras) i q Hq)
    as Hfifo. fold st in Hfifo.
  rewrite <- Hfifo. by apply lookup_app_l_Some.
Qed.

End Lockstep.

Lemma lockstep_by_arrival_witness :
  exists x,
    [(0%nat, mkFrameData (frameCopy 200 3) 200 0);
     (1%nat, mkFrameData (frameCopy 250 4) 250 1)] !! 1%nat = Some (1%nat, x)
    /\ pops_of 1 (log (exec 2 scenario (init 2))) !! 1%nat = Some x
    /\ pushes_of 1 (log (exec 2 scenario (init 2))) !! 1%nat = Some x.
Proof.
  apply (lockstep_by_arrival 2 scenario 1 1
           [(0%nat, mkFrameData (frameCopy 200 3) 200 0);
            (1%nat, mkFrameData (frameCopy 250 4) 250 1)]
           (displayGrid 2 [frameCopy 200 3;
                           putText (frameCopy 250 4) "Diff with Cam0: 50 ns" 10 60])).
  - reflexivity.
  - reflexivity.
  - lia.
Defined.

(** *** Producers without a consumer *)

Lemma pops_of_producer_step i j c st :
  pops_of i (log (AcquireImages_step j c st)) = pops_of i (log st).
Proof.
  unfold AcquireImages_step.
  destruct (producers st !! j) as [[]|]; try done.
  destruct c as [?|?|?|r|?|ts id r]; simpl; try done.
  - by destruct r.
  - destruct (frameQueues st !! j); [|done]. by destruct r.
Qed.

Lemma pops_of_producers_only numCameras i sched : forall st,
  Forall (fun a => is_display a = false) sched ->
  pops_of i (log (exec numCameras sched st)) = pops_of i (log st)
  /\ display (exec numCameras sched st) = display st.
Proof.
  induction sched as [|a sched IH]; intros st Hs; simpl; [done|].
  inversion Hs as [|? ? Ha Hs']; subst.
  destruct a as [j c|key]; [|done]. simpl.
  destruct (IH (AcquireImages_step j c st) Hs') as [-> ->].
  split; [apply pops_of_producer_step|].
  by destruct (AcquireImages_step_fields j c st) as (_ & -> & _).
Qed.

(** While the display thread takes no step, a queue keeps every item
    its producer pushes, in push order: nothing is dropped and the
    depth is the number of pushes, however many there are. *)
Theorem queue_grows_without_consumer (numCameras : nat)
    (sched : list Action) (i : nat) (q : SafeQueue.t) :
  Forall (fun a => is_display a = false) sched ->
  let st := exec numCameras sched (init numCameras) in
  frameQueues st !! i = Some q ->
  q = pushes_of i (log st)
  /\ length q = length (pushes_of i (log st))
  /\ display st = DWhile.
Proof.
  intros Hs st Hq.
  destruct (pops_of_producers_only numCameras i sched (init numCameras) Hs)
    as [Hpops Hd]. fold st in Hpops, Hd.
  pose proof (fifo_ok_exec numCameras sched _ (fifo_ok_init numCameras) i q Hq)
    as Hfifo. fold st in Hfifo.
  rewrite Hpops in Hfifo. simpl in Hfifo.
  split; [done|]. split; [by rewrite Hfifo|done].
Qed.

Lemma queue_grows_without_consumer_witness :
  length [mkFrameData (frameCopy 100 1) 100 0;
          mkFrameData (frameCopy 200 3) 200 0]
  = length (pushes_of 0 (log (exec 2 (produce 0 100 1 ++ produce 0 200 3)
                                (init 2)))).
Proof.
  destruct (queue_grows_without_consumer 2
              (produce 0 100 1 ++ produce 0 200 3) 0
              [mkFrameData (frameCopy 100 1) 100 0;
               mkFrameData (frameCopy 200 3) 200 0]) as (_ & H & _).
  - by repeat constructor.
  - reflexivity.
  - exact H.
Defined.
